(** * Red-Read: the tokenizer engine and the playback controller

  A shallow embedding of [src/engine/tokenizer.js] and
  [src/engine/playback.js], with the properties the specification states
  about them.

  Conventions of the embedding.
  - A JavaScript string is the list of its UTF-16 code units ([list N]);
    every regular expression of the source is written without the [u]
    flag, so it works on code units and so do [length], [slice] and
    indexing.
  - String positions and lengths are [nat] (loop counters that start at a
    length and only grow); the playback position is a [Z], because
    [step] adds a signed delta to it before clamping.
  - Durations, rates and timestamps are JavaScript numbers.  Integers are
    exact there; the fractional values (multipliers, [200 / wpm],
    timestamps) are taken as exact rationals [Q], and [Math.round] as
    rounding half up.  The rounding of double arithmetic is left out of
    that model; [Binary64] evaluates the duration model in IEEE 754
    binary64, and [Binary64Facts] compares the two.  *)

From Stdlib Require Import Strings.String Strings.Ascii.
From Stdlib Require Import List ZArith NArith QArith Qround Bool Lia.
From Stdlib Require Import Floats.SpecFloat.
From Stdlib Require DecimalString HexadecimalString DecimalZ DecimalN.
Import ListNotations.

Close Scope Q_scope.

(** ** JavaScript strings and the string methods the tokenizer calls *)

Module JsString.

Definition t := list N.

(** An ASCII literal as a JavaScript string. *)
Definition lit (s : String.string) : t :=
  map N_of_ascii (list_ascii_of_string s).

Definition between (lo hi c : N) : bool := ((lo <=? c) && (c <=? hi))%N.

Fixpoint mem (c : N) (cs : list N) : bool :=
  match cs with
  | [] => false
  | d :: cs' => (c =? d)%N || mem c cs'
  end.

(** [[a-zA-Z0-9]] *)
Definition is_alnum (c : N) : bool :=
  between 97 122 c || between 65 90 c || between 48 57 c.

(** [\d] *)
Definition is_digit (c : N) : bool := between 48 57 c.

(** [[A-Z]] *)
Definition is_upper (c : N) : bool := between 65 90 c.

(** [\s], which is also what [trim] strips: TAB LF VT FF CR SP, NBSP,
    U+1680, U+2000..U+200A, LS, PS, U+202F, U+205F, U+3000, U+FEFF. *)
Definition is_space (c : N) : bool :=
  between 9 13 c || mem c [32; 160; 5760]%N || between 8192 8202 c
  || mem c [8232; 8233; 8239; 8287; 12288; 65279]%N.

Definition LF : N := 10.
Definition CR : N := 13.
Definition SP : N := 32.

(** The longest prefix whose code units all satisfy [p]. *)
Fixpoint leading (p : N -> bool) (s : t) : t :=
  match s with
  | c :: s' => if p c then c :: leading p s' else []
  | [] => []
  end.

Fixpoint drop_leading (p : N -> bool) (s : t) : t :=
  match s with
  | c :: s' => if p c then drop_leading p s' else s
  | [] => []
  end.

(** [s.trim()] *)
Definition trim (s : t) : t :=
  rev (drop_leading is_space (rev (drop_leading is_space s))).

(** [s.replace(/\r\n/g, '\n')]: the matches cannot overlap, so the
    replacement deletes exactly the CRs that an LF follows. *)
Fixpoint replace_crlf (s : t) : t :=
  match s with
  | c :: s' =>
      if (c =? CR)%N
      then match s' with
           | d :: _ => if (d =? LF)%N then replace_crlf s' else c :: replace_crlf s'
           | [] => [c]
           end
      else c :: replace_crlf s'
  | [] => []
  end.

(** [s.replace(/\r/g, '\n')] *)
Definition replace_cr (s : t) : t :=
  map (fun c => if (c =? CR)%N then LF else c) s.

(** [s.replace(/\s+/g, ' ')]: every maximal run of white space becomes
    one space.  [in_run] says that the previous code unit was white
    space, whose space has been written already. *)
Fixpoint collapse_spaces (in_run : bool) (s : t) : t :=
  match s with
  | c :: s' =>
      if is_space c
      then if in_run then collapse_spaces true s' else SP :: collapse_spaces true s'
      else c :: collapse_spaces false s'
  | [] => []
  end.

(** [s.split(' ')]: the pieces between the occurrences of the separator;
    [cur] is the piece being read, last code unit first. *)
Fixpoint split_on (sep : N) (cur : t) (s : t) : list t :=
  match s with
  | c :: s' =>
      if (c =? sep)%N then rev cur :: split_on sep [] s'
      else split_on sep (c :: cur) s'
  | [] => [rev cur]
  end.

(** The position just after the last code unit satisfying [p] in [s],
    if there is one. *)
Fixpoint after_last (p : N -> bool) (s : t) : option nat :=
  match s with
  | c :: s' =>
      match after_last p s' with
      | Some n => Some (S n)
      | None => if p c then Some 1%nat else None
      end
  | [] => None
  end.

(** The paragraph separator [/\n\s*\n/] tried at the head of [s]: the
    length of the match.  After the first LF the greedy [\s*] takes the
    whole white-space run (which ends before a code unit that is not an
    LF) and backtracks to the last LF of that run. *)
Definition match_blank_line (s : t) : option nat :=
  match s with
  | c :: s' =>
      if (c =? LF)%N
      then match after_last (fun d => (d =? LF)%N) (leading is_space s') with
           | Some n => Some (S n)
           | None => None
           end
      else None
  | [] => None
  end.

(** [s.split(/\n\s*\n/)], the loop of [RegExp.prototype[Symbol.split]]:
    the separator is tried at every position from left to right; on a
    match the piece read so far is emitted and the scan resumes after
    the match.  [skip] counts the code units of a match still to pass. *)
Fixpoint split_blank_lines (skip : nat) (cur : t) (s : t) : list t :=
  match s with
  | c :: s' =>
      match skip with
      | S k => split_blank_lines k cur s'
      | O =>
          match match_blank_line s with
          | Some n => rev cur :: split_blank_lines (pred n) [] s'
          | None => split_blank_lines O (c :: cur) s'
          end
      end
  | [] => [rev cur]
  end.

End JsString.

(** ** The tokenizer engine ([src/engine/tokenizer.js]) *)

Module Tokenizer.
Import JsString.

Inductive punct := none | minor | major | terminal.

Record TokenFlags := {
  isParagraphStart : bool;
  isParagraphEnd : bool;
  punctuation : punct;
  isLongWord : bool;
  isNumeric : bool;
  isAbbreviation : bool
}.

Record Token := {
  word : JsString.t;
  orpIndex : nat;
  baseDurationMs : Z;
  flags : TokenFlags
}.

(** The two keys of [TIMING_CONFIGS]: the modes of the application. *)
Inductive mode := reading | skim.

(** *** Punctuation classes and patterns *)

(** [[.!?\u2026]]: full stop, exclamation mark, question mark, ellipsis *)
Definition terminal_char (c : N) : bool := mem c [46; 33; 63; 8230]%N.
(** [[:;\u2014\u2013]]: colon, semicolon, em dash, en dash *)
Definition major_char (c : N) : bool := mem c [58; 59; 8212; 8211]%N.
(** The class of [MINOR_PUNCT]: comma, parentheses, apostrophe, double
    quote (written twice in the class), hyphen *)
Definition minor_char (c : N) : bool := mem c [44; 40; 41; 39; 34; 34; 45]%N.

(** [/[cls]+$/.test(w)]: some non-empty run of the class ends the word,
    which is to say that its last code unit is in the class. *)
Definition ends_in (cls : N -> bool) (w : JsString.t) : bool :=
  match rev w with
  | c :: _ => cls c
  | [] => false
  end.

Definition TERMINAL_PUNCT := ends_in terminal_char.
Definition MAJOR_PUNCT := ends_in major_char.
Definition MINOR_PUNCT := ends_in minor_char.

(** [/^([A-Z]\.)+$/.test(w)] *)
Fixpoint letter_dot_pairs (w : JsString.t) : bool :=
  match w with
  | c :: d :: w' =>
      is_upper c && (d =? 46)%N &&
      match w' with [] => true | _ => letter_dot_pairs w' end
  | _ => false
  end.
Definition ABBREVIATION_PATTERN := letter_dot_pairs.

(** [/^[\d,.$%]+$/.test(w)] *)
Definition numeric_char (c : N) : bool := is_digit c || mem c [44; 46; 36; 37]%N.
Definition NUMERIC_PATTERN (w : JsString.t) : bool :=
  match w with
  | [] => false
  | _ => forallb numeric_char w
  end.

Definition LONG_WORD_THRESHOLD : nat := 8.

(** [w.replace(/[^a-zA-Z0-9]/g, '')] *)
Definition strip (w : JsString.t) : JsString.t := filter is_alnum w.

(** *** The optimal recognition point *)

Definition calculateORP (w : JsString.t) : nat :=
  let cleanWord := strip w in
  let len := length cleanWord in
  if (len <=? 1)%nat then 0
  else if (len <=? 3)%nat then 0
  else if (len <=? 5)%nat then 1
  else if (len <=? 9)%nat then 2
  else if (len <=? 13)%nat then 3
  else 4.

(** The [for] loop of [findORPInWord] from position [i] on, [rest] being
    the code units from [i] to the end of the word: the position of the
    alphanumeric code unit number [orpInClean], if the loop returns. *)
Fixpoint orp_loop (orpInClean cleanIndex i : nat) (rest : JsString.t)
  : option nat :=
  match rest with
  | c :: rest' =>
      if is_alnum c
      then if (cleanIndex =? orpInClean)%nat then Some i
           else orp_loop orpInClean (S cleanIndex) (S i) rest'
      else orp_loop orpInClean cleanIndex (S i) rest'
  | [] => None
  end.

Definition findORPInWord (w : JsString.t) : nat :=
  let leadingOffset := length (leading (fun c => negb (is_alnum c)) w) in
  let cleanWord := strip (skipn leadingOffset w) in
  let orpInClean := calculateORP cleanWord in
  match orp_loop orpInClean 0 leadingOffset (skipn leadingOffset w) with
  | Some i => i
  | None => leadingOffset
  end.

(** *** Flags *)

Definition classifyPunctuation (w : JsString.t) : punct :=
  if TERMINAL_PUNCT w then terminal
  else if MAJOR_PUNCT w then major
  else if MINOR_PUNCT w then minor
  else none.

Definition createFlags (w : JsString.t) (isStart isEnd : bool) : TokenFlags :=
  let cleanWord := strip w in
  {| isParagraphStart := isStart;
     isParagraphEnd := isEnd;
     punctuation := classifyPunctuation w;
     isLongWord := (LONG_WORD_THRESHOLD <? length cleanWord)%nat;
     isNumeric := NUMERIC_PATTERN w;
     isAbbreviation := ABBREVIATION_PATTERN w |}.

(** *** The duration model *)

Local Open Scope Q_scope.

Record TimingConfig := {
  longWordMultiplier : Q;
  minorPunctMultiplier : Q;
  majorPunctMultiplier : Q;
  terminalPunctMultiplier : Q;
  paragraphEndMultiplier : Q;
  paragraphStartMultiplier : Q;
  abbreviationMultiplier : Q;
  numericMultiplier : Q
}.

Definition TIMING_CONFIGS (m : mode) : TimingConfig :=
  match m with
  | reading =>
      {| longWordMultiplier := 12 # 10;
         minorPunctMultiplier := 13 # 10;
         majorPunctMultiplier := 16 # 10;
         terminalPunctMultiplier := 20 # 10;
         paragraphEndMultiplier := 25 # 10;
         paragraphStartMultiplier := 13 # 10;
         abbreviationMultiplier := 14 # 10;
         numericMultiplier := 13 # 10 |}
  | skim =>
      {| longWordMultiplier := 10 # 10;
         minorPunctMultiplier := 11 # 10;
         majorPunctMultiplier := 12 # 10;
         terminalPunctMultiplier := 14 # 10;
         paragraphEndMultiplier := 16 # 10;
         paragraphStartMultiplier := 11 # 10;
         abbreviationMultiplier := 11 # 10;
         numericMultiplier := 11 # 10 |}
  end.

(** [Math.round]: the nearest integer, a tie going up. *)
Definition Math_round (x : Q) : Z := Qfloor (x + (1 # 2)).

Definition BASE_MS : Q := 300.

(** [if (b) multiplier *= k] *)
Definition times_if (b : bool) (k : Q) (multiplier : Q) : Q :=
  if b then multiplier * k else multiplier.

Definition calculateBaseDuration (f : TokenFlags) (m : mode) : Z :=
  let config := TIMING_CONFIGS m in
  let multiplier := 1 in
  let multiplier := times_if (isLongWord f) (longWordMultiplier config) multiplier in
  let multiplier := times_if (isAbbreviation f) (abbreviationMultiplier config) multiplier in
  let multiplier := times_if (isNumeric f) (numericMultiplier config) multiplier in
  let multiplier :=
    match punctuation f with
    | minor => multiplier * minorPunctMultiplier config
    | major => multiplier * majorPunctMultiplier config
    | terminal => multiplier * terminalPunctMultiplier config
    | none => multiplier
    end in
  let multiplier := times_if (isParagraphEnd f) (paragraphEndMultiplier config) multiplier in
  let multiplier := times_if (isParagraphStart f) (paragraphStartMultiplier config) multiplier in
  Math_round (BASE_MS * multiplier).

(** *** Segmentation *)

Definition nonempty (s : JsString.t) : bool :=
  match s with [] => false | _ => true end.

Definition splitIntoParagraphs (text : JsString.t) : list JsString.t :=
  filter nonempty
    (map trim (split_blank_lines 0 [] (replace_cr (replace_crlf text)))).

Definition splitIntoWords (paragraph : JsString.t) : list JsString.t :=
  let normalized := trim (collapse_spaces false paragraph) in
  filter nonempty (split_on SP [] normalized).

(** *** The facade *)

(** The inner loop of [tokenize] over the words of one paragraph from
    index [wIdx] on; [n] is [words.length]. *)
Fixpoint tokenize_words (m : mode) (n wIdx : nat) (ws : list JsString.t)
  : list Token :=
  match ws with
  | w :: ws' =>
      let isStart := (wIdx =? 0)%nat in
      let isEnd := (Z.of_nat wIdx =? Z.of_nat n - 1)%Z in
      let f := createFlags w isStart isEnd in
      {| word := w;
         orpIndex := findORPInWord w;
         baseDurationMs := calculateBaseDuration f m;
         flags := f |} :: tokenize_words m n (S wIdx) ws'
  | [] => []
  end.

Definition tokenize_paragraph (m : mode) (paragraph : JsString.t) : list Token :=
  let words := splitIntoWords paragraph in
  tokenize_words m (length words) 0 words.

Definition tokenize (text : JsString.t) (m : mode) : list Token :=
  flat_map (tokenize_paragraph m) (splitIntoParagraphs text).

(** [getDisplayDuration(token, wpm)] *)
Definition BASE_WPM : Q := 200.

Definition getDisplayDuration (tk : Token) (wpm : Q) : Z :=
  Math_round (inject_Z (baseDurationMs tk) * (BASE_WPM / wpm)).

End Tokenizer.

(** ** The duration model in binary64 arithmetic *)

Module Binary64.

Local Open Scope Z_scope.

(** A JavaScript number: an IEEE 754 double. *)
Definition number := spec_float.

Definition prec : Z := 53.
Definition emax : Z := 1024.

Definition of_Z (z : Z) : number := binary_normalize prec emax z 0 false.
Definition mul : number -> number -> number := SFmul prec emax.
Definition div : number -> number -> number := SFdiv prec emax.

(** The double of a decimal literal or of a rate, given as a fraction of
    integers that are doubles themselves: the division is correctly
    rounded, so it is the double nearest to the fraction. *)
Definition of_Q (q : Q) : number := div (of_Z (Qnum q)) (of_Z (Zpos (Qden q))).

(** [Math.round] of a finite number: [floor(x + 1/2)], computed exactly. *)
Definition Math_round (x : number) : option Z :=
  match x with
  | S754_zero _ => Some 0
  | S754_finite s m e =>
      let v := if s then Z.neg m else Z.pos m in
      Some (if 0 <=? e then v * 2 ^ e
            else (2 * v + 2 ^ (- e)) / 2 ^ (- e + 1))
  | S754_infinity _ | S754_nan => None
  end.

Definition times_if (b : bool) (k : Q) (multiplier : number) : number :=
  if b then mul multiplier (of_Q k) else multiplier.

Definition calculateBaseDuration (f : Tokenizer.TokenFlags) (m : Tokenizer.mode)
  : option Z :=
  let config := Tokenizer.TIMING_CONFIGS m in
  let multiplier := of_Z 1 in
  let multiplier :=
    times_if (Tokenizer.isLongWord f) (Tokenizer.longWordMultiplier config) multiplier in
  let multiplier :=
    times_if (Tokenizer.isAbbreviation f) (Tokenizer.abbreviationMultiplier config) multiplier in
  let multiplier :=
    times_if (Tokenizer.isNumeric f) (Tokenizer.numericMultiplier config) multiplier in
  let multiplier :=
    match Tokenizer.punctuation f with
    | Tokenizer.minor => mul multiplier (of_Q (Tokenizer.minorPunctMultiplier config))
    | Tokenizer.major => mul multiplier (of_Q (Tokenizer.majorPunctMultiplier config))
    | Tokenizer.terminal => mul multiplier (of_Q (Tokenizer.terminalPunctMultiplier config))
    | Tokenizer.none => multiplier
    end in
  let multiplier :=
    times_if (Tokenizer.isParagraphEnd f) (Tokenizer.paragraphEndMultiplier config) multiplier in
  let multiplier :=
    times_if (Tokenizer.isParagraphStart f) (Tokenizer.paragraphStartMultiplier config) multiplier in
  Math_round (mul (of_Z 300) multiplier).

Definition getDisplayDuration (tk : Tokenizer.Token) (wpm : Q) : option Z :=
  Math_round (mul (of_Z (Tokenizer.baseDurationMs tk)) (div (of_Z 200) (of_Q wpm))).

End Binary64.

(** ** The playback controller ([src/engine/playback.js]) *)

Module Playback.

Local Open Scope Z_scope.

Record PlaybackState := {
  st_isPlaying : bool;
  st_currentIndex : Z;
  st_wpm : Q;
  st_mode : Tokenizer.mode
}.

(** What the controller tells its four callbacks. *)
Inductive notification :=
| OnTick (tk : Tokenizer.Token) (index : Z)
| OnComplete
| OnStateChange (st : PlaybackState)
| OnProgress (percent : Q).

(** The fields of a [PlaybackController], and of its host: the animation
    frames requested and not yet run or cancelled ([pending], handles
    being positive), the next handle [requestAnimationFrame] gives out,
    and the notifications delivered so far, oldest first, each with
    [this.tokens.length] as it was when the callback ran. *)
Record controller := {
  tokens : list Tokenizer.Token;
  currentIndex : Z;
  isPlaying : bool;
  wpm : Q;
  mode : Tokenizer.mode;
  rafId : option positive;
  lastTimestamp : option Q;
  accumulatedTime : Q;
  currentTokenDuration : Z;
  wasPlayingBeforeHidden : bool;
  pending : list positive;
  nextHandle : positive;
  log : list (Z * notification)
}.

(** [new PlaybackController(callbacks)] *)
Definition constructor : controller :=
  {| tokens := []; currentIndex := 0; isPlaying := false; wpm := 300%Q;
     mode := Tokenizer.reading; rafId := None; lastTimestamp := None;
     accumulatedTime := 0%Q; currentTokenDuration := 0;
     wasPlayingBeforeHidden := false;
     pending := []; nextHandle := 1%positive; log := [] |}.

(** *** Assignments to one field *)

Definition set_tokens v (c : controller) : controller :=
  {| tokens := v; currentIndex := currentIndex c; isPlaying := isPlaying c;
     wpm := wpm c; mode := mode c; rafId := rafId c;
     lastTimestamp := lastTimestamp c; accumulatedTime := accumulatedTime c;
     currentTokenDuration := currentTokenDuration c;
     wasPlayingBeforeHidden := wasPlayingBeforeHidden c;
     pending := pending c; nextHandle := nextHandle c; log := log c |}.

Definition set_currentIndex v (c : controller) : controller :=
  {| tokens := tokens c; currentIndex := v; isPlaying := isPlaying c;
     wpm := wpm c; mode := mode c; rafId := rafId c;
     lastTimestamp := lastTimestamp c; accumulatedTime := accumulatedTime c;
     currentTokenDuration := currentTokenDuration c;
     wasPlayingBeforeHidden := wasPlayingBeforeHidden c;
     pending := pending c; nextHandle := nextHandle c; log := log c |}.

Definition set_isPlaying v (c : controller) : controller :=
  {| tokens := tokens c; currentIndex := currentIndex c; isPlaying := v;
     wpm := wpm c; mode := mode c; rafId := rafId c;
     lastTimestamp := lastTimestamp c; accumulatedTime := accumulatedTime c;
     currentTokenDuration := currentTokenDuration c;
     wasPlayingBeforeHidden := wasPlayingBeforeHidden c;
     pending := pending c; nextHandle := nextHandle c; log := log c |}.

Definition set_wpm v (c : controller) : controller :=
  {| tokens := tokens c; currentIndex := currentIndex c; isPlaying := isPlaying c;
     wpm := v; mode := mode c; rafId := rafId c;
     lastTimestamp := lastTimestamp c; accumulatedTime := accumulatedTime c;
     currentTokenDuration := currentTokenDuration c;
     wasPlayingBeforeHidden := wasPlayingBeforeHidden c;
     pending := pending c; nextHandle := nextHandle c; log := log c |}.

Definition set_mode v (c : controller) : controller :=
  {| tokens := tokens c; currentIndex := currentIndex c; isPlaying := isPlaying c;
     wpm := wpm c; mode := v; rafId := rafId c;
     lastTimestamp := lastTimestamp c; accumulatedTime := accumulatedTime c;
     currentTokenDuration := currentTokenDuration c;
     wasPlayingBeforeHidden := wasPlayingBeforeHidden c;
     pending := pending c; nextHandle := nextHandle c; log := log c |}.

Definition set_rafId v (c : controller) : controller :=
  {| tokens := tokens c; currentIndex := currentIndex c; isPlaying := isPlaying c;
     wpm := wpm c; mode := mode c; rafId := v;
     lastTimestamp := lastTimestamp c; accumulatedTime := accumulatedTime c;
     currentTokenDuration := currentTokenDuration c;
     wasPlayingBeforeHidden := wasPlayingBeforeHidden c;
     pending := pending c; nextHandle := nextHandle c; log := log c |}.

Definition set_lastTimestamp v (c : controller) : controller :=
  {| tokens := tokens c; currentIndex := currentIndex c; isPlaying := isPlaying c;
     wpm := wpm c; mode := mode c; rafId := rafId c;
     lastTimestamp := v; accumulatedTime := accumulatedTime c;
     currentTokenDuration := currentTokenDuration c;
     wasPlayingBeforeHidden := wasPlayingBeforeHidden c;
     pending := pending c; nextHandle := nextHandle c; log := log c |}.

Definition set_accumulatedTime v (c : controller) : controller :=
  {| tokens := tokens c; currentIndex := currentIndex c; isPlaying := isPlaying c;
     wpm := wpm c; mode := mode c; rafId := rafId c;
     lastTimestamp := lastTimestamp c; accumulatedTime := v;
     currentTokenDuration := currentTokenDuration c;
     wasPlayingBeforeHidden := wasPlayingBeforeHidden c;
     pending := pending c; nextHandle := nextHandle c; log := log c |}.

Definition set_currentTokenDuration v (c : controller) : controller :=
  {| tokens := tokens c; currentIndex := currentIndex c; isPlaying := isPlaying c;
     wpm := wpm c; mode := mode c; rafId := rafId c;
     lastTimestamp := lastTimestamp c; accumulatedTime := accumulatedTime c;
     currentTokenDuration := v;
     wasPlayingBeforeHidden := wasPlayingBeforeHidden c;
     pending := pending c; nextHandle := nextHandle c; log := log c |}.

Definition set_wasPlayingBeforeHidden v (c : controller) : controller :=
  {| tokens := tokens c; currentIndex := currentIndex c; isPlaying := isPlaying c;
     wpm := wpm c; mode := mode c; rafId := rafId c;
     lastTimestamp := lastTimestamp c; accumulatedTime := accumulatedTime c;
     currentTokenDuration := currentTokenDuration c;
     wasPlayingBeforeHidden := v;
     pending := pending c; nextHandle := nextHandle c; log := log c |}.

(** *** The host *)

Definition len (c : controller) : Z := Z.of_nat (length (tokens c)).

(** A callback is invoked: the notification is appended to the log. *)
Definition notify (n : notification) (c : controller) : controller :=
  {| tokens := tokens c; currentIndex := currentIndex c; isPlaying := isPlaying c;
     wpm := wpm c; mode := mode c; rafId := rafId c;
     lastTimestamp := lastTimestamp c; accumulatedTime := accumulatedTime c;
     currentTokenDuration := currentTokenDuration c;
     wasPlayingBeforeHidden := wasPlayingBeforeHidden c;
     pending := pending c; nextHandle := nextHandle c; log := log c ++ [(len c, n)] |}.

(** [this.rafId = requestAnimationFrame((ts) => this.tick(ts))] *)
Definition requestAnimationFrame (c : controller) : controller :=
  {| tokens := tokens c; currentIndex := currentIndex c; isPlaying := isPlaying c;
     wpm := wpm c; mode := mode c; rafId := Some (nextHandle c);
     lastTimestamp := lastTimestamp c; accumulatedTime := accumulatedTime c;
     currentTokenDuration := currentTokenDuration c;
     wasPlayingBeforeHidden := wasPlayingBeforeHidden c;
     pending := pending c ++ [nextHandle c];
     nextHandle := Pos.succ (nextHandle c); log := log c |}.

(** [cancelAnimationFrame(h)] *)
Definition cancelAnimationFrame (h : positive) (c : controller) : controller :=
  {| tokens := tokens c; currentIndex := currentIndex c; isPlaying := isPlaying c;
     wpm := wpm c; mode := mode c; rafId := rafId c;
     lastTimestamp := lastTimestamp c; accumulatedTime := accumulatedTime c;
     currentTokenDuration := currentTokenDuration c;
     wasPlayingBeforeHidden := wasPlayingBeforeHidden c;
     pending := filter (fun h' => negb (Pos.eqb h' h)) (pending c);
     nextHandle := nextHandle c; log := log c |}.

(** *** Helpers *)

(** [arr[i]] for an integer [i]: [undefined] outside the array. *)
Definition at_index {A} (arr : list A) (i : Z) : option A :=
  if i <? 0 then None else nth_error arr (Z.to_nat i).

(** [Math.max(0, Math.min(i, this.tokens.length - 1))] *)
Definition clamp_index (c : controller) (i : Z) : Z :=
  Z.max 0 (Z.min i (len c - 1)).

Definition Q_min (a b : Q) : Q := if Qle_bool a b then a else b.
Definition Q_max (a b : Q) : Q := if Qle_bool a b then b else a.

(** *** Notifications *)

Definition emitTick (c : controller) : controller :=
  match at_index (tokens c) (currentIndex c) with
  | Some tk => notify (OnTick tk (currentIndex c)) c
  | None => c
  end.

Definition emitProgress (c : controller) : controller :=
  let percent :=
    if 0 <? len c
    then (inject_Z (currentIndex c) / inject_Z (len c) * 100)%Q
    else 0%Q in
  notify (OnProgress percent) c.

Definition getState (c : controller) : PlaybackState :=
  {| st_isPlaying := isPlaying c; st_currentIndex := currentIndex c;
     st_wpm := wpm c; st_mode := mode c |}.

Definition emitStateChange (c : controller) : controller :=
  notify (OnStateChange (getState c)) c.

(** *** Operations

    An operation that reads [this.tokens[this.currentIndex]] and passes
    it to [getDisplayDuration] throws a [TypeError] when that element is
    [undefined]; it is then [None] here. *)

Definition pause (c : controller) : controller :=
  let c := set_isPlaying false c in
  let c :=
    match rafId c with
    | Some h => set_rafId None (cancelAnimationFrame h c)
    | None => c
    end in
  let c := set_lastTimestamp None c in
  emitStateChange c.

Definition stop (c : controller) : controller :=
  let c := pause c in
  let c := set_currentIndex 0 c in
  let c := set_accumulatedTime 0%Q c in
  emitStateChange c.

Definition load (toks : list Tokenizer.Token) (startIndex : Z) (c : controller)
  : controller :=
  let c := stop c in
  let c := set_tokens toks c in
  let c := set_currentIndex (clamp_index c startIndex) c in
  let c := emitTick c in
  emitStateChange c.

Definition setWPM (w : Q) (c : controller) : controller :=
  let c := set_wpm (Q_max 50 (Q_min 2000 w)) c in
  let c :=
    if isPlaying c
    then match at_index (tokens c) (currentIndex c) with
         | Some tk =>
             set_currentTokenDuration (Tokenizer.getDisplayDuration tk (wpm c)) c
         | None => c
         end
    else c in
  emitStateChange c.

Definition adjustWPM (delta : Q) (c : controller) : controller :=
  setWPM (wpm c + delta)%Q c.

Definition setMode (m : Tokenizer.mode) (c : controller) : controller :=
  emitStateChange (set_mode m c).

Definition play (c : controller) : option controller :=
  if len c =? 0 then Some c
  else
    let c := if len c - 1 <=? currentIndex c then set_currentIndex 0 c else c in
    let c := set_isPlaying true c in
    let c := set_accumulatedTime 0%Q c in
    let c := set_lastTimestamp None c in
    match at_index (tokens c) (currentIndex c) with
    | None => None
    | Some tk =>
        let c :=
          set_currentTokenDuration (Tokenizer.getDisplayDuration tk (wpm c)) c in
        let c := requestAnimationFrame c in
        Some (emitStateChange c)
    end.

(** The position [play] starts from: the test of its "if at end,
    restart". *)
Definition start_of (c : controller) : Z :=
  if len c - 1 <=? currentIndex c then 0 else currentIndex c.

Definition toggle (c : controller) : option controller :=
  if isPlaying c then Some (pause c) else play c.

Definition step (delta : Z) (c : controller) : controller :=
  let wasPlaying := isPlaying c in
  let c := if wasPlaying then pause c else c in
  let c := set_currentIndex (clamp_index c (currentIndex c + delta)) c in
  let c := set_accumulatedTime 0%Q c in
  let c := emitTick c in
  let c := emitProgress c in
  emitStateChange c.

Definition seek (index : Z) (c : controller) : option controller :=
  let wasPlaying := isPlaying c in
  let c := if wasPlaying then pause c else c in
  let c := set_currentIndex (clamp_index c index) c in
  let c := set_accumulatedTime 0%Q c in
  let c := emitTick c in
  let c := emitProgress c in
  if wasPlaying then play c else Some (emitStateChange c).

Definition seekPercent (percent : Q) (c : controller) : option controller :=
  let index := Qfloor (percent / 100 * inject_Z (len c))%Q in
  seek index c.

Definition rewind (words : Z) (c : controller) : controller :=
  step (- words) c.

(** The time a frame adds to the accumulator: [timestamp -
    this.lastTimestamp], after a [null] [lastTimestamp] has been set to
    [timestamp]. *)
Definition deltaTime (timestamp : Q) (c : controller) : Q :=
  let last :=
    match lastTimestamp c with
    | None => timestamp
    | Some l => l
    end in
  (timestamp - last)%Q.

(** The accumulator of [tick] once the frame's time has been added. *)
Definition due (timestamp : Q) (c : controller) : Q :=
  (accumulatedTime c + deltaTime timestamp c)%Q.

Definition tick (timestamp : Q) (c : controller) : option controller :=
  if negb (isPlaying c) then Some c
  else
    let deltaTime := deltaTime timestamp c in
    let c := set_lastTimestamp (Some timestamp) c in
    let c := set_accumulatedTime (accumulatedTime c + deltaTime)%Q c in
    if Qle_bool (inject_Z (currentTokenDuration c)) (accumulatedTime c)
    then
      let c :=
        set_accumulatedTime
          (accumulatedTime c - inject_Z (currentTokenDuration c))%Q c in
      let c := set_currentIndex (currentIndex c + 1) c in
      if len c <=? currentIndex c
      then
        let c := set_currentIndex (len c - 1) c in
        let c := pause c in
        Some (notify OnComplete c)
      else
        match at_index (tokens c) (currentIndex c) with
        | None => None
        | Some tk =>
            let c :=
              set_currentTokenDuration
                (Tokenizer.getDisplayDuration tk (wpm c)) c in
            let c := emitTick c in
            let c := emitProgress c in
            Some (requestAnimationFrame c)
        end
    else Some (requestAnimationFrame c).

(** The host runs the frame callback registered under handle [h], if it
    is still pending. *)
Definition frame (h : positive) (timestamp : Q) (c : controller)
  : option controller :=
  if existsb (Pos.eqb h) (pending c)
  then tick timestamp (cancelAnimationFrame h c)
  else Some c.

(** [handleVisibilityChange()], [hidden] being [document.hidden]. *)
Definition handleVisibilityChange (hidden : bool) (c : controller) : controller :=
  if hidden
  then
    let c := set_wasPlayingBeforeHidden (isPlaying c) c in
    if isPlaying c then pause c else c
  else
    let c := set_lastTimestamp None c in
    set_accumulatedTime 0%Q c.

Definition handleFreeze (c : controller) : controller :=
  let c := set_wasPlayingBeforeHidden (isPlaying c) c in
  pause c.

Definition handleResume (c : controller) : controller :=
  let c := set_lastTimestamp None c in
  set_accumulatedTime 0%Q c.

End Playback.

(** ** A session: the calls a controller receives *)

Module Session.
Import Playback.

Local Open Scope Z_scope.

(** The public operations, called by the application, and the events of
    the host: an animation frame and the page lifecycle. *)
Inductive call :=
| Load (toks : list Tokenizer.Token) (startIndex : Z)
| SetWPM (w : Q)
| AdjustWPM (delta : Q)
| SetMode (m : Tokenizer.mode)
| Play
| Pause
| Stop
| Toggle
| Step (delta : Z)
| Seek (index : Z)
| SeekPercent (percent : Q)
| Rewind (words : Z)
| Frame (h : positive) (timestamp : Q)
| VisibilityChange (hidden : bool)
| Freeze
| Resume.

Definition run (k : call) (c : controller) : option controller :=
  match k with
  | Load toks startIndex => Some (load toks startIndex c)
  | SetWPM w => Some (setWPM w c)
  | AdjustWPM delta => Some (adjustWPM delta c)
  | SetMode m => Some (setMode m c)
  | Play => play c
  | Pause => Some (pause c)
  | Stop => Some (stop c)
  | Toggle => toggle c
  | Step delta => Some (step delta c)
  | Seek index => seek index c
  | SeekPercent percent => seekPercent percent c
  | Rewind words => Some (rewind words c)
  | Frame h timestamp => frame h timestamp c
  | VisibilityChange hidden => Some (handleVisibilityChange hidden c)
  | Freeze => Some (handleFreeze c)
  | Resume => Some (handleResume c)
  end.

(** The controllers a session can produce from a new one. *)
Inductive reachable : controller -> Prop :=
| reach_new : reachable constructor
| reach_call c k c' : reachable c -> run k c = Some c' -> reachable c'.

(** [0 <= i <= max(0, L - 1)] *)
Definition in_bounds (L i : Z) : Prop := 0 <= i <= Z.max 0 (L - 1).

(** The position a notification shows to its observer. *)
Definition position_of (n : notification) : option Z :=
  match n with
  | OnTick _ index => Some index
  | OnStateChange st => Some (st_currentIndex st)
  | OnComplete | OnProgress _ => None
  end.

Definition seen_in_bounds (e : Z * notification) : Prop :=
  match position_of (snd e) with
  | Some i => in_bounds (fst e) i
  | None => True
  end.

(** What every operation keeps: the position is within bounds, a
    playing controller has tokens, and so far every observer was shown
    a position within bounds. *)
Record sound (c : controller) : Prop := {
  sound_position : in_bounds (len c) (currentIndex c);
  sound_playing : isPlaying c = true -> 0 < len c;
  sound_log : Forall seen_in_bounds (log c)
}.

End Session.

(** ** Definitions that follow the words of the specification *)

Module Spec.

Local Open Scope Q_scope.

(** Duration Model: the multipliers that apply to a token, in the order
    long-word, abbreviation, numeric, punctuation class, paragraph end,
    paragraph start. *)
Definition applicable (f : Tokenizer.TokenFlags) (m : Tokenizer.mode) : list Q :=
  let cfg := Tokenizer.TIMING_CONFIGS m in
  (if Tokenizer.isLongWord f then [Tokenizer.longWordMultiplier cfg] else [])
  ++ (if Tokenizer.isAbbreviation f then [Tokenizer.abbreviationMultiplier cfg] else [])
  ++ (if Tokenizer.isNumeric f then [Tokenizer.numericMultiplier cfg] else [])
  ++ match Tokenizer.punctuation f with
     | Tokenizer.none => []
     | Tokenizer.minor => [Tokenizer.minorPunctMultiplier cfg]
     | Tokenizer.major => [Tokenizer.majorPunctMultiplier cfg]
     | Tokenizer.terminal => [Tokenizer.terminalPunctMultiplier cfg]
     end
  ++ (if Tokenizer.isParagraphEnd f then [Tokenizer.paragraphEndMultiplier cfg] else [])
  ++ (if Tokenizer.isParagraphStart f then [Tokenizer.paragraphStartMultiplier cfg] else []).

(** "Reference duration = 300 ... Multipliers compose multiplicatively
    ... Result rounded to nearest integer, minimum 1." *)
Definition baseDuration (f : Tokenizer.TokenFlags) (m : Tokenizer.mode) : Z :=
  Z.max 1 (Tokenizer.Math_round (300 * fold_left Qmult (applicable f m) 1)).



End Spec.

(** ** Concrete inputs *)

Module Scenario.
Import JsString Tokenizer Playback.

Local Open Scope Z_scope.

(** ["Hello, world. New paragraph here.\n\nSecond paragraph."] *)
Definition two_paragraphs : JsString.t :=
  lit "Hello, world. New paragraph here." ++ [LF; LF] ++ lit "Second paragraph.".

(** A word made of punctuation only. *)
Definition ellipsis : JsString.t := lit "...".

(** A token with no multiplier applied, as [tokenize] builds it for a
    word in the middle of a paragraph. *)
Definition plain_token : Token :=
  {| word := lit "b"; orpIndex := 0; baseDurationMs := 300;
     flags := createFlags (lit "b") false false |}.

(** Four tokens of 390, 300, 300 and 750 ms at the reference rate. *)
Definition four_tokens : list Token := tokenize (lit "a b c d") reading.

Definition hundred_tokens : list Token := repeat plain_token 100.

Definition then_ (o : option controller) (f : controller -> option controller)
  : option controller :=
  match o with
  | Some c => f c
  | None => None
  end.

(** A controller loaded with four tokens at the last of them (the start
    index 9 is clamped to 3). *)
Definition loaded_four : controller := load four_tokens 9 constructor.

(** A controller loaded with four tokens, played at the default 300 wpm,
    whose first frame arrived at time 0. *)
Definition running_four : option controller :=
  then_ (play (load four_tokens 0 constructor)) (tick 0%Q).

Definition or_new (o : option controller) : controller :=
  match o with
  | Some c => c
  | None => constructor
  end.

(** A controller loaded with a hundred tokens, paused and playing. *)
Definition paused_hundred : controller := load hundred_tokens 0 constructor.
Definition playing_hundred : option controller := play paused_hundred.

End Scenario.

(** ** The visible part of a text *)

Module Text.
Import JsString.

(** The code units of a string that are not white space. *)
Definition visible (s : JsString.t) : JsString.t :=
  filter (fun c => negb (is_space c)) s.

(** The only white space in the string is the space itself. *)
Definition spaces_are_SP (s : JsString.t) : Prop :=
  forall c, In c s -> is_space c = true -> c = SP.

(** A string that is not empty and has no white space in it. *)
Definition solid (s : JsString.t) : Prop := s <> [] /\ visible s = s.

End Text.

(** ** The rest of the tokenizer module: reading time *)

Module ReadingTime.
Import JsString Tokenizer.

Local Open Scope Z_scope.

(** A token of a given base duration, for what depends on the duration
    alone. *)
Definition with_base (b : Z) : Token :=
  {| word := []; orpIndex := 0; baseDurationMs := b;
     flags := createFlags [] false false |}.

(** [tokens.reduce((sum, token) => sum + getDisplayDuration(token, wpm), 0)] *)
Definition totalMs (toks : list Token) (wpm : Q) : Z :=
  fold_left (fun sum tk => sum + getDisplayDuration tk wpm) toks 0.

Definition estimateReadingTime (toks : list Token) (wpm : Q) : Z :=
  Math_round (inject_Z (totalMs toks wpm) / 1000).

(** [Number.isSafeInteger(n)]: the integers that a number of the source
    holds exactly, together with its neighbours. *)
Definition isSafeInteger (n : Z) : bool := Z.abs n <? 2 ^ 53.

(** The decimal digits of an integer, after a minus sign when it is
    negative. *)
Definition digits (n : Z) : JsString.t :=
  lit (DecimalString.NilZero.string_of_int (Z.to_int n)).

(** [n.toString()] of a safe integer: its digits.  Beyond the safe
    integers a number need not be the integer meant, its digits are the
    shortest that give the number back, and from 1e21 on the notation has
    an exponent: there the model gives no answer. *)
Definition toString (n : Z) : option JsString.t :=
  if isSafeInteger n then Some (digits n) else None.

(** [s.padStart(2, '0')] *)
Definition padStart2 (s : JsString.t) : JsString.t :=
  match s with
  | [] => [48; 48]%N
  | [c] => [48%N; c]
  | _ => s
  end.

Definition colon : N := 58.

(** [formatTime(seconds)] for a safe integer number of seconds: there the
    quotients are far enough from the next integer for [Math.floor] of
    the rounded quotient to be the floor division, and [%] is the
    remainder that takes the sign of the dividend.  Beyond the safe
    integers the model gives no answer. *)
Definition formatTime (seconds : Z) : option JsString.t :=
  if isSafeInteger seconds
  then
    let hrs := seconds / 3600 in
    let mins := Z.rem seconds 3600 / 60 in
    let secs := Z.rem seconds 60 in
    if 0 <? hrs
    then
      match toString hrs, toString mins, toString secs with
      | Some h, Some m, Some s =>
          Some (h ++ [colon] ++ padStart2 m ++ [colon] ++ padStart2 s)
      | _, _, _ => None
      end
    else
      match toString mins, toString secs with
      | Some m, Some s => Some (m ++ [colon] ++ padStart2 s)
      | _, _ => None
      end
  else None.

(** The two decimal digits of a number below 100. *)
Definition two_digits (n : Z) : JsString.t :=
  [Z.to_N (48 + n / 10); Z.to_N (48 + n mod 10)].

End ReadingTime.

(** ** The rest of the controller: [getProgress] *)

Module Progress.
Import Playback.

Local Open Scope Z_scope.

Record info := {
  current : Z;
  total : Z;
  percent : Q
}.

Definition getProgress (c : controller) : info :=
  {| current := currentIndex c + 1;
     total := len c;
     percent :=
       if 0 <? len c
       then (inject_Z (currentIndex c) / inject_Z (len c) * 100)%Q
       else 0%Q |}.

End Progress.

(** ** The application's calls into the engine ([app.js]) *)

Module App.
Import JsString Tokenizer Playback.

Local Open Scope Z_scope.

(** [s.substring(start, end)], and [s.substring(start)] when [end_] is
    [None]: both indices are clamped to the length and taken in order. *)
Definition substring (s : JsString.t) (start : nat) (end_ : option nat)
  : JsString.t :=
  let len := length s in
  let finalStart := Nat.min start len in
  let finalEnd := match end_ with Some e => Nat.min e len | None => len end in
  let from := Nat.min finalStart finalEnd in
  let to := Nat.max finalStart finalEnd in
  firstn (to - from) (skipn from s).

(** [s.charAt(i)]: the empty string outside the string. *)
Definition charAt (s : JsString.t) (i : nat) : JsString.t :=
  match nth_error s i with
  | Some c => [c]
  | None => []
  end.

(** The text of the three elements that show a word. *)
Record display := {
  wordBefore : JsString.t;
  wordPivot : JsString.t;
  wordAfter : JsString.t
}.

(** [renderWord(token)], [None] being a token that is not there. *)
Definition renderWord (token : option Token) : display :=
  match token with
  | None => {| wordBefore := []; wordPivot := []; wordAfter := [] |}
  | Some tk =>
      {| wordBefore := substring (word tk) 0 (Some (orpIndex tk));
         wordPivot := charAt (word tk) (orpIndex tk);
         wordAfter := substring (word tk) (orpIndex tk + 1) None |}
  end.

(** The reading progress kept with a document, and the settings that
    [openReader] falls back on. *)
Record ProgressData := {
  progress_currentIndex : Z;
  progress_wpm : Q;
  progress_mode : Tokenizer.mode
}.

Record Settings := {
  defaultWPM : Q;
  settings_mode : Tokenizer.mode
}.

(** The argument of [updateProgress] in [saveProgress()]. *)
Definition saveProgress (c : controller) : ProgressData :=
  let state := getState c in
  {| progress_currentIndex := st_currentIndex state;
     progress_wpm := st_wpm state;
     progress_mode := st_mode state |}.

(** What [openReader(doc, resume)] does to the controller, [progress]
    being [doc.progress] and [toks] being [this.tokens]; a rate of 0 is
    falsy and gives way to the default. *)
Definition openReader (toks : list Token) (progress : option ProgressData)
    (resume : bool) (settings : Settings) (c : controller) : controller :=
  let startIndex :=
    match progress with
    | Some p => if resume then progress_currentIndex p else 0
    | None => 0
    end in
  let wpm :=
    match progress with
    | Some p =>
        if Qeq_bool (progress_wpm p) 0 then defaultWPM settings
        else progress_wpm p
    | None => defaultWPM settings
    end in
  let mode :=
    match progress with
    | Some p => progress_mode p
    | None => settings_mode settings
    end in
  let c := load toks startIndex c in
  let c := setWPM wpm c in
  setMode mode c.

(** [updateWpmDrag(y)], with [startY] and [startWPM] of the gesture. *)
Definition updateWpmDrag (startY startWPM y : Q) (c : controller) : controller :=
  let deltaY := (startY - y)%Q in
  let wpmDelta := Math_round (deltaY / 2) in
  let newWPM := Math_round ((startWPM + inject_Z wpmDelta) / 10) * 10 in
  setWPM (inject_Z newWPM) c.

End App.

(** ** Document identifiers ([src/persistence.js]) *)

Module Persistence.
Import JsString.

Local Open Scope Z_scope.

(** [ToInt32]: the integer modulo 2^32, in [-2^31, 2^31). *)
Definition toInt32 (z : Z) : Z := (z + 2 ^ 31) mod 2 ^ 32 - 2 ^ 31.

(** [hash << 5] *)
Definition shl5 (hash : Z) : Z := toInt32 (toInt32 hash * 2 ^ 5).

(** One round of the loop: [hash = ((hash << 5) - hash) + char;
    hash = hash & hash]. *)
Definition hash_round (hash : Z) (char : N) : Z :=
  let hash := (shl5 hash - hash) + Z.of_N char in
  toInt32 hash.

(** The loop over [input.charCodeAt(i)]. *)
Definition hashCode (input : JsString.t) : Z := fold_left hash_round input 0.

Record File := {
  name : JsString.t;
  size : Z;
  lastModified : Z
}.

(** [n.toString(16)] of a natural number. *)
Definition toString16 (n : Z) : JsString.t :=
  lit (HexadecimalString.NilZero.string_of_uint (N.to_hex_uint (Z.to_N n))).

(** [generateDocumentId(file)], for a size and a modification time that
    are safe integers. *)
Definition generateDocumentId (file : File) : option JsString.t :=
  match ReadingTime.toString (size file),
        ReadingTime.toString (lastModified file) with
  | Some sizeText, Some modifiedText =>
      let input :=
        name file ++ lit "-" ++ sizeText ++ lit "-" ++ modifiedText in
      Some (lit "doc_" ++ toString16 (Z.abs (hashCode input)))
  | _, _ => None
  end.

(** The polynomial in 31 whose coefficients are the code units of the
    input, the first one with the highest power. *)
Definition polynomial31 (input : JsString.t) : Z :=
  fold_left (fun acc char => acc * 31 + Z.of_N char) input 0.

End Persistence.

(** ** Runs of frames, and what a session keeps besides the bounds *)

Module Run.
Import Tokenizer Playback.

Local Open Scope Z_scope.

(** The frames of a list of timestamps, one after the other. *)
Fixpoint ticks (timestamps : list Q) (c : controller) : option controller :=
  match timestamps with
  | [] => Some c
  | ts :: rest =>
      match tick ts c with
      | Some c' => ticks rest c'
      | None => None
      end
  end.

(** The time the tokens before the current one take at the current
    rate. *)
Definition shown (c : controller) : Z :=
  fold_left (fun sum tk => sum + getDisplayDuration tk (wpm c))
    (firstn (Z.to_nat (currentIndex c)) (tokens c)) 0.

(** The playback clock: the time of the tokens shown, and the time
    accumulated on the current one. *)
Definition clock (c : controller) : Q :=
  (inject_Z (shown c) + accumulatedTime c)%Q.

(** The timestamp that the elapsed time of a run is counted from. *)
Definition baseline (timestamps : list Q) (c : controller) : Q :=
  match lastTimestamp c with
  | Some t => t
  | None => hd 0%Q timestamps
  end.

(** While playing, the duration in force is that of the current token at
    the current rate. *)
Definition in_sync (c : controller) : Prop :=
  isPlaying c = true ->
  exists tk, at_index (tokens c) (currentIndex c) = Some tk
             /\ currentTokenDuration c = getDisplayDuration tk (wpm c).

Definition rate_in_range (c : controller) : Prop :=
  (50 <= wpm c)%Q /\ (wpm c <= 2000)%Q.

(** A paused controller holds no frame handle and no timestamp; a playing
    one holds the handle of a frame that is pending. *)
Definition frame_kept (c : controller) : Prop :=
  (isPlaying c = false -> rafId c = None /\ lastTimestamp c = None)
  /\ (isPlaying c = true -> exists h, rafId c = Some h /\ In h (pending c)).

Definition progress_below_100 (e : Z * notification) : Prop :=
  match snd e with
  | OnProgress p => (0 <= p)%Q /\ (p < 100)%Q
  | _ => True
  end.

(** What holds of a controller in the middle of an operation that has
    paused it, and of one whose frame has just been taken off the
    queue. *)
Definition settled (c : controller) : Prop :=
  isPlaying c = false -> rafId c = None /\ lastTimestamp c = None.

Record calm (c : controller) : Prop := {
  calm_rate : rate_in_range c;
  calm_paused : isPlaying c = false;
  calm_settled : rafId c = None /\ lastTimestamp c = None;
  calm_progress : Forall progress_below_100 (log c)
}.

Record steady (c : controller) : Prop := {
  steady_rate : rate_in_range c;
  steady_settled : settled c;
  steady_sync : in_sync c;
  steady_progress : Forall progress_below_100 (log c)
}.

Record kept (c : controller) : Prop := {
  kept_rate : rate_in_range c;
  kept_frame : frame_kept c;
  kept_sync : in_sync c;
  kept_progress : Forall progress_below_100 (log c)
}.

(** A whole number of milliseconds, from 0 to below 2^52: the numbers of
    the source hold such numbers, their sums and their differences
    exactly. *)
Definition whole (q : Q) : bool :=
  Qeq_bool q (inject_Z (Qfloor q)) && (0 <=? Qfloor q) && (Qfloor q <? 2 ^ 52).

(** Timestamps that do not go back in time, from [from] on. *)
Fixpoint ascending (from : Q) (timestamps : list Q) : bool :=
  match timestamps with
  | [] => true
  | ts :: rest => Qle_bool from ts && ascending ts rest
  end.

(** A run of frames in whole milliseconds: the time accumulated so far,
    the timestamp the run is counted from and the timestamps of the
    frames are whole, and the time does not go back. *)
Definition on_whole_ms (timestamps : list Q) (c : controller) : Prop :=
  whole (accumulatedTime c) = true
  /\ whole (baseline timestamps c) = true
  /\ forallb whole timestamps = true
  /\ ascending (baseline timestamps c) timestamps = true.

End Run.

(** ** Facts about the tokenizer *)

Module TokenizerFacts.
Import JsString Tokenizer.

(** *** The fixation index *)

Lemma strip_idempotent (w : JsString.t) : strip (strip w) = strip w.
Proof.
  unfold strip. induction w as [|c w IH]; simpl; [reflexivity|].
  destruct (is_alnum c) eqn:E; simpl; [rewrite E, IH|]; auto.
Qed.

Lemma calculateORP_lt (w : JsString.t) :
  strip w <> [] -> (calculateORP w < length (strip w))%nat.
Proof.
  unfold calculateORP. intros Hne.
  assert (H : (1 <= length (strip w))%nat)
    by (destruct (strip w); [congruence | simpl; lia]).
  repeat match goal with
         | |- context [(?a <=? ?b)%nat] => destruct (Nat.leb_spec a b)
         end; lia.
Qed.

(** The word falls apart into its leading punctuation and the rest. *)
Lemma leading_skipn (p : N -> bool) (w : JsString.t) :
  skipn (length (leading p w)) w = drop_leading p w.
Proof.
  induction w as [|c w IH]; simpl; [reflexivity|].
  destruct (p c); simpl; auto.
Qed.

Lemma leading_length (p : N -> bool) (w : JsString.t) :
  (length (leading p w) + length (drop_leading p w) = length w)%nat.
Proof.
  induction w as [|c w IH]; simpl; [reflexivity|].
  destruct (p c); simpl; lia.
Qed.

Lemma drop_leading_head (p : N -> bool) (w : JsString.t) c rest :
  drop_leading p w = c :: rest -> p c = false.
Proof.
  induction w as [|d w IH]; simpl; [discriminate|].
  destruct (p d) eqn:E; [auto|]. intros H; injection H as -> _. exact E.
Qed.

Lemma drop_leading_no_alnum (w : JsString.t) :
  existsb is_alnum w = false ->
  drop_leading (fun c => negb (is_alnum c)) w = [].
Proof.
  induction w as [|c w IH]; simpl; [reflexivity|].
  destruct (is_alnum c); simpl; [discriminate | exact IH].
Qed.

Lemma drop_leading_alnum (w : JsString.t) :
  existsb is_alnum w = true ->
  strip (drop_leading (fun c => negb (is_alnum c)) w) <> [].
Proof.
  induction w as [|c w IH]; simpl; [discriminate|].
  destruct (is_alnum c) eqn:E; simpl; [|exact IH].
  intros _. unfold strip. simpl. rewrite E. discriminate.
Qed.

(** The loop finds its target as long as enough alphanumeric code units
    are left, and then inside the part of the word it walks over. *)
Lemma orp_loop_finds (rest : JsString.t) :
  forall k ci i,
    (ci <= k)%nat -> (k - ci < length (strip rest))%nat ->
    exists j, orp_loop k ci i rest = Some j /\ (i <= j < i + length rest)%nat.
Proof.
  induction rest as [|c rest IH]; intros k ci i Hle Hlt; simpl in *; [lia|].
  unfold strip in Hlt. simpl in Hlt.
  destruct (is_alnum c) eqn:E.
  - destruct (Nat.eqb_spec ci k) as [->|Hne].
    + exists i. split; [reflexivity | lia].
    + simpl in Hlt.
      destruct (IH k (S ci) (S i)) as (j & Hj & Hb); [lia | unfold strip; lia |].
      exists j. split; [exact Hj | lia].
  - destruct (IH k ci (S i)) as (j & Hj & Hb); [lia | exact Hlt |].
    exists j. split; [exact Hj | lia].
Qed.

(** A word with an alphanumeric code unit gets a position inside it. *)
Lemma findORPInWord_inside (w : JsString.t) :
  existsb is_alnum w = true -> (findORPInWord w < length w)%nat.
Proof.
  intros H. unfold findORPInWord. cbv zeta.
  set (p := fun c => negb (is_alnum c)).
  rewrite (leading_skipn p w).
  pose proof (drop_leading_alnum w H) as Hne. fold p in Hne.
  pose proof (leading_length p w) as Hlen.
  destruct (orp_loop_finds (drop_leading p w)
              (calculateORP (strip (drop_leading p w))) 0
              (length (leading p w))) as (j & Hj & Hb).
  - lia.
  - rewrite Nat.sub_0_r.
    rewrite <- (strip_idempotent (drop_leading p w)) at 2.
    apply calculateORP_lt. rewrite strip_idempotent. exact Hne.
  - rewrite Hj. lia.
Qed.

(** A word without one gets the position just past its end. *)
Lemma findORPInWord_outside (w : JsString.t) :
  existsb is_alnum w = false -> findORPInWord w = length w.
Proof.
  intros H. unfold findORPInWord. cbv zeta.
  set (p := fun c => negb (is_alnum c)).
  rewrite (leading_skipn p w).
  pose proof (leading_length p w) as Hlen.
  pose proof (drop_leading_no_alnum w H) as Hd. fold p in Hd.
  rewrite Hd in *. simpl in *. lia.
Qed.

(** *** The paragraph separator *)

Lemma leading_drop (p : N -> bool) (s : JsString.t) :
  s = leading p s ++ drop_leading p s /\ forallb p (leading p s) = true.
Proof.
  induction s as [|c s [IH1 IH2]]; simpl; [auto|].
  destruct (p c) eqn:E; simpl; [|auto].
  rewrite E, IH2. split; [f_equal; exact IH1 | reflexivity].
Qed.

Lemma after_last_split (p : N -> bool) (s : JsString.t) (n : nat) :
  after_last p s = Some n ->
  exists a x b, s = a ++ x :: b /\ p x = true /\ n = S (length a)
                /\ after_last p b = None.
Proof.
  revert n. induction s as [|c s IH]; intros n; simpl; [discriminate|].
  destruct (after_last p s) as [k|] eqn:E.
  - intros H. injection H as <-.
    destruct (IH k eq_refl) as (a & x & b & -> & Hx & -> & Hb).
    exists (c :: a), x, b. auto.
  - destruct (p c) eqn:Hc; [|discriminate]. intros H. injection H as <-.
    exists [], c, s. auto.
Qed.

(** What [match_blank_line] returns is a match of [/\n\s*\n/] at the head
    of the string: an LF, white space, an LF; and it is the longest one,
    since the white space that follows it holds no further LF. *)
Lemma match_blank_line_match (s : JsString.t) (n : nat) :
  match_blank_line s = Some n ->
  exists ws rest,
    s = LF :: ws ++ LF :: rest
    /\ forallb is_space ws = true
    /\ n = (2 + length ws)%nat
    /\ after_last (fun d => (d =? LF)%N) (leading is_space rest) = None.
Proof.
  unfold match_blank_line. destruct s as [|c s]; [discriminate|].
  destruct (N.eqb_spec c LF) as [->|_]; [|discriminate].
  destruct (after_last _ (leading is_space s)) as [k|] eqn:E; [|discriminate].
  intros H. injection H as <-.
  destruct (after_last_split _ _ _ E) as (a & x & b & Hs & Hx & -> & Hb).
  apply N.eqb_eq in Hx. subst x.
  destruct (leading_drop is_space s) as [Hsplit Hall].
  rewrite Hs in Hsplit, Hall. rewrite forallb_app in Hall.
  apply andb_prop in Hall. destruct Hall as [Ha Hb'].
  simpl in Hb'.
  exists a, (b ++ drop_leading is_space s).
  split; [|split; [exact Ha | split; [reflexivity|]]].
  - rewrite Hsplit at 1. rewrite <- app_assoc. reflexivity.
  - assert (Hlead : leading is_space (b ++ drop_leading is_space s) = b).
    { clear -Hb'. induction b as [|y b IH]; simpl in *.
      - destruct (drop_leading is_space s) as [|z r] eqn:E; [reflexivity|].
        simpl. rewrite (drop_leading_head _ _ _ _ E). reflexivity.
      - apply andb_prop in Hb'. destruct Hb' as [-> Hb'].
        rewrite (IH Hb'). reflexivity. }
    rewrite Hlead. exact Hb.
Qed.

(** *** The punctuation patterns *)

(** [ends_in cls] is the test of [/[cls]+$/]: a non-empty run of the
    class ends the word. *)
Lemma ends_in_run (cls : N -> bool) (w : JsString.t) :
  ends_in cls w = true <->
  exists pre run, w = pre ++ run /\ run <> [] /\ forallb cls run = true.
Proof.
  unfold ends_in. split.
  - destruct (rev w) as [|c r] eqn:E; [discriminate|]. intros Hc.
    exists (rev r), [c]. split; [|split].
    + rewrite <- (rev_involutive w), E. reflexivity.
    + discriminate.
    + simpl. rewrite Hc. reflexivity.
  - intros (pre & run & -> & Hne & Hall).
    rewrite rev_app_distr. destruct (rev run) as [|c r] eqn:E.
    + apply (f_equal (@rev N)) in E. rewrite rev_involutive in E.
      simpl in E. contradiction.
    + simpl. rewrite forallb_forall in Hall. apply Hall.
      apply in_rev. rewrite E. now left.
Qed.

(** An abbreviation ends in a full stop, and is not numeric. *)
Lemma abbreviation_is_terminal (w : JsString.t) :
  ABBREVIATION_PATTERN w = true ->
  classifyPunctuation w = terminal /\ NUMERIC_PATTERN w = false.
Proof.
  unfold ABBREVIATION_PATTERN, classifyPunctuation, TERMINAL_PUNCT.
  intros H. split.
  - assert (Hend : ends_in terminal_char w = true); [|now rewrite Hend].
    apply ends_in_run.
    revert H. induction w as [w IH] using (well_founded_induction
      (Wf_nat.well_founded_ltof _ (@length N))).
    destruct w as [|c [|d w']]; simpl; try discriminate.
    intros H. apply andb_prop in H. destruct H as [H Hrest].
    apply andb_prop in H. destruct H as [_ Hd]. apply N.eqb_eq in Hd. subst d.
    destruct w' as [|x w''].
    + exists [c], [46%N]. split; [reflexivity|]. split; [discriminate | reflexivity].
    + destruct (IH (x :: w'')) as (pre & run & E & Hne & Hall).
      * unfold Wf_nat.ltof. simpl. lia.
      * exact Hrest.
      * exists (c :: 46%N :: pre), run. rewrite E.
        split; [reflexivity|]. split; assumption.
  - destruct w as [|c [|d w']]; simpl in *; try discriminate.
    apply andb_prop in H. destruct H as [H _].
    apply andb_prop in H. destruct H as [Hu _].
    assert (numeric_char c = false); [|now rewrite H].
    unfold is_upper, between in Hu. apply andb_prop in Hu. destruct Hu as [H1 H2].
    apply N.leb_le in H1, H2.
    unfold numeric_char, is_digit, between, mem.
    repeat match goal with
           | |- context [(?a <=? ?b)%N] => destruct (N.leb_spec a b)
           | |- context [(?a =? ?b)%N] => destruct (N.eqb_spec a b)
           end; simpl; try reflexivity; lia.
Qed.

(** *** What [tokenize] emits *)

Lemma tokenize_words_word (m : mode) (ws : list JsString.t) :
  forall n i t, In t (tokenize_words m n i ws) ->
    In (word t) ws /\ orpIndex t = findORPInWord (word t)
    /\ exists isStart isEnd,
         baseDurationMs t = calculateBaseDuration (createFlags (word t) isStart isEnd) m.
Proof.
  induction ws as [|w ws IH]; intros n i t Hin; simpl in Hin; [contradiction|].
  destruct Hin as [<-|Hin]; simpl.
  - split; [now left|]. split; [reflexivity|]. eauto.
  - destruct (IH _ _ _ Hin) as (? & ? & ?). auto.
Qed.

Lemma tokenize_token (text : JsString.t) (m : mode) (t : Token) :
  In t (tokenize text m) ->
  word t <> [] /\ orpIndex t = findORPInWord (word t)
  /\ exists isStart isEnd,
       baseDurationMs t = calculateBaseDuration (createFlags (word t) isStart isEnd) m.
Proof.
  unfold tokenize. rewrite in_flat_map. intros (para & _ & Hin).
  unfold tokenize_paragraph in Hin.
  apply tokenize_words_word in Hin. destruct Hin as (Hw & Horp & Hdur).
  unfold splitIntoWords in Hw. apply filter_In in Hw. destruct Hw as (_ & Hne).
  split; [|auto]. destruct (word t); [discriminate | congruence].
Qed.

(** The extent of the fixation index over everything [tokenize] emits:
    never past the position one after the last code unit, and inside the
    word exactly when the word has an ASCII letter or digit. *)
Theorem tokenize_orpIndex_extent (text : JsString.t) (m : mode) (t : Token) :
  In t (tokenize text m) ->
  word t <> []
  /\ (orpIndex t <= length (word t))%nat
  /\ ((orpIndex t < length (word t))%nat <-> existsb is_alnum (word t) = true).
Proof.
  intros Hin. destruct (tokenize_token _ _ _ Hin) as (Hne & -> & _).
  split; [exact Hne|].
  destruct (existsb is_alnum (word t)) eqn:E.
  - pose proof (findORPInWord_inside _ E). split; [lia|]. tauto.
  - rewrite (findORPInWord_outside _ E). split; [lia|].
    split; [lia | discriminate].
Qed.

(** C1.  The fixation index of every token is claimed to be a position
    inside the token's text.  For the text ["..."] the tokenizer emits
    one token, the word ["..."] of length 3, whose [orpIndex] is 3: the
    fallback of [findORPInWord] returns the leading offset unclamped,
    and for a word without letters and digits that offset is the length
    of the word. *)
Theorem orpIndex_past_the_end :
  map (fun t => (word t, orpIndex t, length (word t)))
      (tokenize Scenario.ellipsis reading)
  = [(Scenario.ellipsis, 3%nat, 3%nat)].
Proof. vm_compute. reflexivity. Qed.

(** *** The scenario of the specification *)

(** C6.  [tokenize("Hello, world. New paragraph here.\n\nSecond
    paragraph.", "reading")]: the text has exactly two paragraphs and the
    result is the tokens of the first followed by the tokens of the
    second, word by word in order; the one token whose text is
    ["world."] has punctuation class [terminal]; the last token of the
    first paragraph is ["here."] with [isParagraphEnd = true]; the first
    token of the second paragraph is ["Second"] with
    [isParagraphStart = true]. *)
Theorem two_paragraphs_scenario :
  let p1 := lit "Hello, world. New paragraph here." in
  let p2 := lit "Second paragraph." in
  let toks := tokenize Scenario.two_paragraphs reading in
  splitIntoParagraphs Scenario.two_paragraphs = [p1; p2]
  /\ toks = tokenize_paragraph reading p1 ++ tokenize_paragraph reading p2
  /\ map word (tokenize_paragraph reading p1)
     = map lit ["Hello,"; "world."; "New"; "paragraph"; "here."]%string
  /\ map word (tokenize_paragraph reading p2)
     = map lit ["Second"; "paragraph."]%string
  /\ (forall t, In t toks -> word t = lit "world." ->
                punctuation (flags t) = terminal)
  /\ option_map (fun t => (word t, isParagraphEnd (flags t)))
       (hd_error (rev (tokenize_paragraph reading p1)))
     = Some (lit "here.", true)
  /\ option_map (fun t => (word t, isParagraphStart (flags t)))
       (hd_error (tokenize_paragraph reading p2))
     = Some (lit "Second", true).
Proof.
  cbv zeta.
  do 4 (split; [vm_compute; reflexivity|]).
  split; [|split; vm_compute; reflexivity].
  intros t Hin Hw. vm_compute in Hin. vm_compute in Hw.
  repeat (destruct Hin as [<-|Hin];
          [first [discriminate Hw | reflexivity]|]).
  contradiction.
Qed.

(** *** The duration model *)

(** C7.  For every combination of flags (so for the flags of every word)
    and both modes, the base duration is what the Duration Model
    describes: 300 times the product of the multipliers that apply,
    rounded to the nearest integer, with a minimum of 1; and it is an
    integer that is at least 1, in exact arithmetic and in the double
    arithmetic of the source alike. *)
Theorem baseDuration_at_least_1 (f : TokenFlags) (m : mode) :
  calculateBaseDuration f m = Spec.baseDuration f m
  /\ (1 <= calculateBaseDuration f m)%Z
  /\ exists d, Binary64.calculateBaseDuration f m = Some d /\ (1 <= d)%Z.
Proof.
  destruct f as [s e p l n a].
  destruct m, s, e, p, l, n, a; vm_compute;
    (split; [reflexivity|]); (split; [discriminate|]);
    eexists; (split; [reflexivity | discriminate]).
Qed.

(** Every multiplier is at least 1, so no base duration is below the
    reference duration. *)
Lemma calculateBaseDuration_ge_300 (f : TokenFlags) (m : mode) :
  (300 <= calculateBaseDuration f m)%Z.
Proof.
  destruct f as [s e p l n a].
  destruct m, s, e, p, l, n, a; vm_compute; discriminate.
Qed.

(** Hence every token of [tokenize] lasts at least 1 unit. *)
Corollary tokenize_baseDuration (text : JsString.t) (m : mode) (t : Token) :
  In t (tokenize text m) -> (1 <= baseDurationMs t)%Z.
Proof.
  intros Hin. destruct (tokenize_token _ _ _ Hin) as (_ & _ & s & e & ->).
  pose proof (calculateBaseDuration_ge_300 (createFlags (word t) s e) m). lia.
Qed.

(** *** Scaling to the reading rate *)

Lemma Math_round_monotone (x y : Q) :
  (x <= y)%Q -> (Math_round x <= Math_round y)%Z.
Proof.
  intros H. unfold Math_round. apply Qfloor_resp_le.
  apply Qplus_le_l. exact H.
Qed.

(** C4, as the code has it.  For a base duration that is not negative
    and rates [0 < r1 < r2], the on-screen duration at the lower rate is
    at least the one at the higher rate. *)
Theorem getDisplayDuration_monotone (tk : Token) (r1 r2 : Q) :
  (0 <= baseDurationMs tk)%Z -> (0 < r1)%Q -> (r1 < r2)%Q ->
  (getDisplayDuration tk r2 <= getDisplayDuration tk r1)%Z.
Proof.
  intros Hb H1 H12. unfold getDisplayDuration.
  apply Math_round_monotone.
  assert (H2 : (0 < r2)%Q) by (eapply Qlt_trans; eassumption).
  rewrite !(Qmult_comm (inject_Z (baseDurationMs tk))).
  apply Qmult_le_compat_r.
  - unfold Qdiv. apply Qmult_le_l; [reflexivity|].
    apply Qlt_le_weak. apply (Qinv_lt_contravar r1 r2 H1 H2). exact H12.
  - rewrite Zle_Qle in Hb. exact Hb.
Qed.

Lemma getDisplayDuration_monotone_witness :
  (getDisplayDuration Scenario.plain_token 200
   <= getDisplayDuration Scenario.plain_token 100)%Z.
Proof.
  apply getDisplayDuration_monotone.
  - vm_compute. discriminate.
  - reflexivity.
  - reflexivity.
Defined.

(** C4, as the specification has it, fails: a token of base duration 300
    is on screen for 30 ms at 1999 wpm and for 30 ms at 2000 wpm. *)
Lemma getDisplayDuration_not_strict :
  (0 < 1999)%Q /\ (1999 < 2000)%Q
  /\ getDisplayDuration Scenario.plain_token 1999 = 30%Z
  /\ getDisplayDuration Scenario.plain_token 2000 = 30%Z
  /\ ~ (getDisplayDuration Scenario.plain_token 1999
        > getDisplayDuration Scenario.plain_token 2000)%Z.
Proof.
  do 2 (split; [reflexivity|]).
  do 2 (split; [vm_compute; reflexivity|]).
  vm_compute. intros H. discriminate H.
Qed.

End TokenizerFacts.

(** ** The exact model against binary64 arithmetic *)

Module Binary64Facts.
Import Tokenizer.

(** The base duration computed in doubles is the one computed exactly,
    for all flags but those of a word that is an abbreviation and numeric
    at once. *)
Lemma calculateBaseDuration_binary64 (f : TokenFlags) (m : mode) :
  isAbbreviation f && isNumeric f = false ->
  Binary64.calculateBaseDuration f m = Some (calculateBaseDuration f m).
Proof.
  destruct f as [s e p l n a].
  destruct m, s, e, p, l, n, a; intros H; try discriminate H;
    vm_compute; reflexivity.
Qed.

(** No word is both, so the two agree on every token. *)
Lemma createFlags_binary64 (w : JsString.t) (isStart isEnd : bool) (m : mode) :
  let f := createFlags w isStart isEnd in
  Binary64.calculateBaseDuration f m = Some (calculateBaseDuration f m).
Proof.
  cbv zeta. apply calculateBaseDuration_binary64. simpl.
  destruct (ABBREVIATION_PATTERN w) eqn:E; [|reflexivity].
  apply TokenizerFacts.abbreviation_is_terminal in E. destruct E as [_ ->].
  reflexivity.
Qed.

(** The one combination where they part: the exact product is 1774.5,
    the product of the doubles is just below. *)
Example calculateBaseDuration_tie :
  let f := {| isParagraphStart := false; isParagraphEnd := true;
              punctuation := minor; isLongWord := false;
              isNumeric := true; isAbbreviation := true |} in
  calculateBaseDuration f reading = 1775%Z
  /\ Binary64.calculateBaseDuration f reading = Some 1774%Z.
Proof. split; vm_compute; reflexivity. Qed.

(** The on-screen durations that the counterexamples rely on are
    the same in doubles. *)
Example getDisplayDuration_binary64 :
  map (fun tk => Binary64.getDisplayDuration tk 300) Scenario.four_tokens
  = map (fun tk => Some (getDisplayDuration tk 300)) Scenario.four_tokens
  /\ Binary64.getDisplayDuration Scenario.plain_token 1999
     = Some (getDisplayDuration Scenario.plain_token 1999)
  /\ Binary64.getDisplayDuration Scenario.plain_token 2000
     = Some (getDisplayDuration Scenario.plain_token 2000).
Proof.
  split; [vm_compute; reflexivity|].
  split; vm_compute; reflexivity.
Qed.

End Binary64Facts.

(** ** Facts about the playback controller *)

Module PlaybackFacts.
Import Tokenizer Playback Session.

Local Open Scope Z_scope.

(** *** Array access *)

Lemma at_index_Some {A} (arr : list A) (i : Z) (x : A) :
  at_index arr i = Some x -> 0 <= i < Z.of_nat (length arr).
Proof.
  unfold at_index. destruct (Z.ltb_spec i 0) as [Hneg|Hpos]; [discriminate|].
  intros H. assert (Hn : nth_error arr (Z.to_nat i) <> None) by congruence.
  apply nth_error_Some in Hn. lia.
Qed.

Lemma at_index_inside {A} (arr : list A) (i : Z) :
  0 <= i < Z.of_nat (length arr) -> exists x, at_index arr i = Some x.
Proof.
  intros H. unfold at_index. destruct (Z.ltb_spec i 0) as [Hneg|Hpos]; [lia|].
  destruct (nth_error arr (Z.to_nat i)) eqn:E; [eauto|].
  apply nth_error_None in E. lia.
Qed.

Lemma len_nonneg (c : controller) : 0 <= len c.
Proof. unfold len. lia. Qed.

Lemma len_nonempty (c : controller) : tokens c <> [] <-> 0 < len c.
Proof. unfold len. destruct (tokens c); simpl; split; (congruence || lia). Qed.

Lemma log_notify (n : notification) (c : controller) :
  log (notify n c) = log c ++ [(len c, n)].
Proof. reflexivity. Qed.

Lemma log_requestAnimationFrame (c : controller) :
  log (requestAnimationFrame c) = log c.
Proof. reflexivity. Qed.

(** *** Soundness is kept *)

Lemma sound_notify (n : notification) (c : controller) :
  sound c ->
  match position_of n with
  | Some i => in_bounds (len c) i
  | None => True
  end ->
  sound (notify n c).
Proof.
  intros [Hp Hq Hl] Hn. split; [exact Hp | exact Hq |].
  simpl. apply Forall_app. split; [exact Hl|]. constructor; [|constructor].
  exact Hn.
Qed.

Lemma sound_emitStateChange (c : controller) : sound c -> sound (emitStateChange c).
Proof. intros H. apply sound_notify; [exact H|]. apply H. Qed.

Lemma sound_emitProgress (c : controller) : sound c -> sound (emitProgress c).
Proof. intros H. apply sound_notify; [exact H | exact I]. Qed.

Lemma sound_emitTick (c : controller) : sound c -> sound (emitTick c).
Proof.
  intros H. unfold emitTick. destruct (at_index _ _) eqn:E; [|exact H].
  apply sound_notify; [exact H | apply H].
Qed.

(** Soundness looks at four fields only. *)
Lemma sound_same (c c' : controller) :
  tokens c' = tokens c -> currentIndex c' = currentIndex c ->
  (isPlaying c' = true -> isPlaying c = true) -> log c' = log c ->
  sound c -> sound c'.
Proof.
  intros Ht Hi Hp Hl [H1 H2 H3]. unfold len in *.
  split; unfold len; rewrite ?Ht, ?Hi, ?Hl; auto.
Qed.

(** Moving the position of a controller to a position within bounds. *)
Lemma sound_move (i : Z) (c : controller) :
  in_bounds (len c) i -> sound c -> sound (set_currentIndex i c).
Proof. intros Hi [H1 H2 H3]. split; auto. Qed.

Lemma clamp_in_bounds (c : controller) (i : Z) :
  in_bounds (len c) (clamp_index c i).
Proof. unfold in_bounds, clamp_index. pose proof (len_nonneg c). lia. Qed.

Lemma zero_in_bounds (L : Z) : in_bounds L 0.
Proof. unfold in_bounds. lia. Qed.

Lemma sound_pause (c : controller) : sound c -> sound (pause c).
Proof.
  intros H. unfold pause. cbn. apply sound_emitStateChange.
  destruct (rafId c); (eapply sound_same; [..|exact H]);
    try reflexivity; simpl; discriminate.
Qed.

Lemma isPlaying_pause (c : controller) : isPlaying (pause c) = false.
Proof. unfold pause. cbn. destruct (rafId c); reflexivity. Qed.

Lemma tokens_pause (c : controller) : tokens (pause c) = tokens c.
Proof. unfold pause. cbn. destruct (rafId c); reflexivity. Qed.

Lemma currentIndex_pause (c : controller) : currentIndex (pause c) = currentIndex c.
Proof. unfold pause. cbn. destruct (rafId c); reflexivity. Qed.

Lemma sound_stop (c : controller) : sound c -> sound (stop c).
Proof.
  intros H. unfold stop. apply sound_emitStateChange.
  apply sound_pause in H.
  eapply sound_same with (c := set_currentIndex 0 (pause c)); try reflexivity.
  - simpl. auto.
  - apply sound_move; [apply zero_in_bounds | exact H].
Qed.

Lemma isPlaying_stop (c : controller) : isPlaying (stop c) = false.
Proof. unfold stop. simpl. apply isPlaying_pause. Qed.

Lemma sound_load toks startIndex (c : controller) :
  sound c -> sound (load toks startIndex c).
Proof.
  intros H. unfold load. apply sound_emitStateChange, sound_emitTick.
  pose proof (isPlaying_stop c) as Hp. apply sound_stop in H.
  set (c1 := set_tokens toks (stop c)).
  split.
  - exact (clamp_in_bounds c1 startIndex).
  - intros Hx. change (isPlaying (stop c) = true) in Hx.
    rewrite Hp in Hx. discriminate.
  - exact (sound_log _ H).
Qed.

(** The assignments that soundness does not look at, and the two it
    does. *)
Lemma sound_set_wpm v c : sound c -> sound (set_wpm v c).
Proof. intros [? ? ?]; split; auto. Qed.
Lemma sound_set_mode v c : sound c -> sound (set_mode v c).
Proof. intros [? ? ?]; split; auto. Qed.
Lemma sound_set_rafId v c : sound c -> sound (set_rafId v c).
Proof. intros [? ? ?]; split; auto. Qed.
Lemma sound_set_lastTimestamp v c : sound c -> sound (set_lastTimestamp v c).
Proof. intros [? ? ?]; split; auto. Qed.
Lemma sound_set_accumulatedTime v c : sound c -> sound (set_accumulatedTime v c).
Proof. intros [? ? ?]; split; auto. Qed.
Lemma sound_set_currentTokenDuration v c :
  sound c -> sound (set_currentTokenDuration v c).
Proof. intros [? ? ?]; split; auto. Qed.
Lemma sound_set_wasPlayingBeforeHidden v c :
  sound c -> sound (set_wasPlayingBeforeHidden v c).
Proof. intros [? ? ?]; split; auto. Qed.
Lemma sound_requestAnimationFrame c : sound c -> sound (requestAnimationFrame c).
Proof. intros [? ? ?]; split; auto. Qed.
Lemma sound_cancelAnimationFrame h c : sound c -> sound (cancelAnimationFrame h c).
Proof. intros [? ? ?]; split; auto. Qed.
Lemma sound_set_isPlaying b c :
  (b = true -> 0 < len c) -> sound c -> sound (set_isPlaying b c).
Proof. intros ? [? ? ?]; split; auto. Qed.

Create HintDb sound.
#[local] Hint Resolve sound_set_wpm sound_set_mode sound_set_rafId
  sound_set_lastTimestamp sound_set_accumulatedTime
  sound_set_currentTokenDuration sound_set_wasPlayingBeforeHidden
  sound_requestAnimationFrame sound_cancelAnimationFrame
  sound_emitStateChange sound_emitProgress sound_emitTick
  sound_pause sound_stop sound_load clamp_in_bounds zero_in_bounds
  sound_move : sound.

(** *** [play] *)

Lemma start_of_inside (c : controller) :
  0 < len c -> 0 <= currentIndex c -> 0 <= start_of c < len c.
Proof. unfold start_of. intros. destruct (Z.leb_spec (len c - 1) (currentIndex c)); lia. Qed.

Lemma play_empty (c : controller) : tokens c = [] -> play c = Some c.
Proof. intros H. unfold play, len. rewrite H. reflexivity. Qed.

Lemma play_nonempty (c : controller) :
  0 < len c -> 0 <= currentIndex c ->
  exists tk c',
    at_index (tokens c) (start_of c) = Some tk
    /\ play c = Some c'
    /\ tokens c' = tokens c
    /\ currentIndex c' = start_of c
    /\ accumulatedTime c' = 0%Q
    /\ lastTimestamp c' = None
    /\ currentTokenDuration c' = getDisplayDuration tk (wpm c)
    /\ isPlaying c' = true
    /\ rafId c' = Some (nextHandle c)
    /\ pending c' = pending c ++ [nextHandle c]
    /\ wpm c' = wpm c /\ mode c' = mode c
    /\ log c' = log c ++ [(len c, OnStateChange
                             {| st_isPlaying := true;
                                st_currentIndex := start_of c;
                                st_wpm := wpm c; st_mode := mode c |})].
Proof.
  intros Hlen Hidx.
  destruct (at_index_inside (tokens c) (start_of c)) as [tk Htk].
  { apply start_of_inside; assumption. }
  exists tk. unfold play.
  destruct (Z.eqb_spec (len c) 0) as [E|_]; [lia|].
  unfold start_of in *.
  destruct (len c - 1 <=? currentIndex c);
    cbn -[at_index getDisplayDuration]; rewrite Htk;
    eexists; repeat split; reflexivity.
Qed.

Lemma sound_play (c : controller) :
  sound c -> exists c', play c = Some c' /\ sound c'.
Proof.
  intros H. destruct (Z.eq_dec (len c) 0) as [E|E].
  - exists c. split; [|exact H]. apply play_empty.
    unfold len in E. destruct (tokens c); [reflexivity | discriminate].
  - pose proof (len_nonneg c). pose proof (sound_position _ H) as [Hlo _].
    destruct (play_nonempty c) as (tk & c' & Htk & Hplay & Ht & Hi & _ & _ & _ & Hp & _ & _ & _ & _ & Hl);
      [lia | exact Hlo |].
    exists c'. split; [exact Hplay|].
    pose proof (start_of_inside c ltac:(lia) Hlo) as Hs.
    assert (Hb : in_bounds (len c) (start_of c)) by (unfold in_bounds; lia).
    split.
    + unfold len. rewrite Ht, Hi. exact Hb.
    + intros _. unfold len. rewrite Ht. fold (len c). lia.
    + rewrite Hl. apply Forall_app. split; [apply H|].
      constructor; [exact Hb | constructor].
Qed.

(** *** [tick] *)

Ltac tick_cases :=
  unfold tick, due, len in *; cbv zeta;
  cbn -[at_index getDisplayDuration Qle_bool Z.leb Z.add Z.sub deltaTime
        Qplus Qminus inject_Z Z.of_nat];
  repeat match goal with
         | c : controller |- _ =>
             progress change (Z.of_nat (length (tokens c))) with (len c) in *
         end.

Lemma tick_paused (ts : Q) (c : controller) :
  isPlaying c = false -> tick ts c = Some c.
Proof. intros H. unfold tick. rewrite H. reflexivity. Qed.

(** The duration has not elapsed: the frame only adds its time. *)
Lemma tick_wait (ts : Q) (c : controller) :
  isPlaying c = true ->
  Qle_bool (inject_Z (currentTokenDuration c)) (due ts c) = false ->
  exists c',
    tick ts c = Some c'
    /\ tokens c' = tokens c /\ currentIndex c' = currentIndex c
    /\ isPlaying c' = true /\ accumulatedTime c' = due ts c
    /\ lastTimestamp c' = Some ts
    /\ currentTokenDuration c' = currentTokenDuration c
    /\ log c' = log c.
Proof.
  intros Hp Hd. tick_cases. rewrite Hp. tick_cases. rewrite Hd.
  eexists. repeat split; try reflexivity. exact Hp.
Qed.

(** The duration has elapsed and a token follows: one step forward. *)
Lemma tick_advance (ts : Q) (c : controller) (tk : Token) :
  isPlaying c = true ->
  Qle_bool (inject_Z (currentTokenDuration c)) (due ts c) = true ->
  at_index (tokens c) (currentIndex c + 1) = Some tk ->
  exists c',
    tick ts c = Some c'
    /\ tokens c' = tokens c /\ currentIndex c' = currentIndex c + 1
    /\ isPlaying c' = true
    /\ accumulatedTime c' = (due ts c - inject_Z (currentTokenDuration c))%Q
    /\ lastTimestamp c' = Some ts
    /\ currentTokenDuration c' = getDisplayDuration tk (wpm c)
    /\ exists percent,
         log c' = log c ++ [(len c, OnTick tk (currentIndex c + 1));
                            (len c, OnProgress percent)].
Proof.
  intros Hp Hd Htk. pose proof (at_index_Some _ _ _ Htk) as Hin.
  tick_cases. rewrite Hp. tick_cases. rewrite Hd.
  destruct (Z.leb_spec (len c) (currentIndex c + 1)) as [Hge|_]; [lia|].
  rewrite ?Htk. unfold emitTick, emitProgress. tick_cases. rewrite ?Htk.
  tick_cases. eexists. repeat split; try reflexivity; [exact Hp|].
  eexists. rewrite log_requestAnimationFrame, !log_notify, <- app_assoc.
  reflexivity.
Qed.

(** The duration has elapsed on the last token: the position stays on
    the last index and playback ends. *)
Lemma tick_complete (ts : Q) (c : controller) :
  isPlaying c = true ->
  Qle_bool (inject_Z (currentTokenDuration c)) (due ts c) = true ->
  len c <= currentIndex c + 1 ->
  exists c',
    tick ts c = Some c'
    /\ tokens c' = tokens c /\ currentIndex c' = len c - 1
    /\ isPlaying c' = false
    /\ accumulatedTime c' = (due ts c - inject_Z (currentTokenDuration c))%Q
    /\ lastTimestamp c' = None /\ rafId c' = None
    /\ log c' = log c ++ [(len c, OnStateChange
                             {| st_isPlaying := false;
                                st_currentIndex := len c - 1;
                                st_wpm := wpm c; st_mode := mode c |});
                          (len c, OnComplete)].
Proof.
  intros Hp Hd Hge.
  tick_cases. rewrite Hp. tick_cases. rewrite Hd.
  destruct (Z.leb_spec (len c) (currentIndex c + 1)) as [_|Hlt]; [|lia].
  unfold pause, emitStateChange. tick_cases.
  destruct (rafId c) eqn:E; eexists; repeat split; try reflexivity;
    try exact E; rewrite !log_notify, <- app_assoc; reflexivity.
Qed.

Lemma sound_fields (c c' : controller) :
  tokens c' = tokens c ->
  in_bounds (len c) (currentIndex c') ->
  (isPlaying c' = true -> 0 < len c) ->
  Forall seen_in_bounds (log c') ->
  sound c'.
Proof.
  intros Ht Hi Hp Hl. split; unfold len in *; rewrite ?Ht; assumption.
Qed.

Lemma sound_tick (ts : Q) (c : controller) :
  sound c -> exists c', tick ts c = Some c' /\ sound c'.
Proof.
  intros H. destruct (isPlaying c) eqn:Hp.
  2:{ exists c. split; [apply tick_paused; exact Hp | exact H]. }
  pose proof (sound_playing _ H Hp) as Hlen.
  pose proof (sound_position _ H) as Hpos. unfold in_bounds in Hpos.
  destruct (Qle_bool (inject_Z (currentTokenDuration c)) (due ts c)) eqn:Hd.
  - destruct (Z_lt_le_dec (currentIndex c + 1) (len c)) as [Hlt|Hge].
    + destruct (at_index_inside (tokens c) (currentIndex c + 1)) as [tk Htk];
        [unfold len in Hlt; lia|].
      destruct (tick_advance ts c tk Hp Hd Htk)
        as (c' & Ht & Htok & Hi & _ & _ & _ & _ & pc & Hl).
      exists c'. split; [exact Ht|].
      assert (Hb : in_bounds (len c) (currentIndex c + 1))
        by (unfold in_bounds; lia).
      apply (sound_fields c); [exact Htok | rewrite Hi; exact Hb | auto |].
      rewrite Hl. apply Forall_app. split; [apply H|].
      constructor; [exact Hb|]. constructor; [exact I | constructor].
    + destruct (tick_complete ts c Hp Hd Hge)
        as (c' & Ht & Htok & Hi & _ & _ & _ & _ & Hl).
      exists c'. split; [exact Ht|].
      assert (Hb : in_bounds (len c) (len c - 1)) by (unfold in_bounds; lia).
      apply (sound_fields c); [exact Htok | rewrite Hi; exact Hb | auto |].
      rewrite Hl. apply Forall_app. split; [apply H|].
      constructor; [exact Hb|]. constructor; [exact I | constructor].
  - destruct (tick_wait ts c Hp Hd) as (c' & Ht & Htok & Hi & _ & _ & _ & _ & Hl).
    exists c'. split; [exact Ht|].
    apply (sound_fields c); [exact Htok | rewrite Hi; apply H | auto |].
    rewrite Hl. apply H.
Qed.

(** *** The other operations *)

Lemma sound_step (delta : Z) (c : controller) : sound c -> sound (step delta c).
Proof.
  intros H. unfold step. cbv zeta.
  assert (H1 : sound (if isPlaying c then pause c else c))
    by (destruct (isPlaying c); auto with sound).
  auto 10 with sound.
Qed.

Lemma sound_seek (index : Z) (c : controller) :
  sound c -> exists c', seek index c = Some c' /\ sound c'.
Proof.
  intros H. unfold seek. cbv zeta.
  assert (H1 : sound (if isPlaying c then pause c else c))
    by (destruct (isPlaying c); auto with sound).
  destruct (isPlaying c).
  - apply sound_play. auto 10 with sound.
  - eexists. split; [reflexivity|]. auto 10 with sound.
Qed.

Lemma sound_toggle (c : controller) :
  sound c -> exists c', toggle c = Some c' /\ sound c'.
Proof.
  intros H. unfold toggle. destruct (isPlaying c).
  - eexists. split; [reflexivity|]. auto with sound.
  - apply sound_play, H.
Qed.

Lemma sound_setWPM (w : Q) (c : controller) : sound c -> sound (setWPM w c).
Proof.
  intros H. unfold setWPM. cbv zeta. apply sound_emitStateChange.
  destruct (isPlaying _); [destruct (at_index _ _)|]; auto with sound.
Qed.

Lemma sound_handleVisibilityChange (hidden : bool) (c : controller) :
  sound c -> sound (handleVisibilityChange hidden c).
Proof.
  intros H. unfold handleVisibilityChange. cbv zeta.
  destruct hidden; [destruct (isPlaying _)|]; auto with sound.
Qed.

Lemma sound_frame (h : positive) (ts : Q) (c : controller) :
  sound c -> exists c', frame h ts c = Some c' /\ sound c'.
Proof.
  intros H. unfold frame. destruct (existsb _ _).
  - apply sound_tick. auto with sound.
  - exists c. auto.
Qed.

(** Every call completes, and keeps soundness. *)
Lemma sound_run (k : call) (c : controller) :
  sound c -> exists c', run k c = Some c' /\ sound c'.
Proof.
  intros H. destruct k; simpl;
    try (eexists; split; [reflexivity|]).
  - apply sound_load, H.
  - apply sound_setWPM, H.
  - apply sound_setWPM, H.
  - unfold setMode. auto with sound.
  - apply sound_play, H.
  - apply sound_pause, H.
  - apply sound_stop, H.
  - apply sound_toggle, H.
  - apply sound_step, H.
  - apply sound_seek, H.
  - apply sound_seek, H.
  - apply sound_step, H.
  - apply sound_frame, H.
  - apply sound_handleVisibilityChange, H.
  - unfold handleFreeze. auto with sound.
  - unfold handleResume. auto with sound.
Qed.

Lemma sound_constructor : sound constructor.
Proof.
  split; simpl.
  - unfold in_bounds. simpl. lia.
  - discriminate.
  - constructor.
Qed.

Lemma sound_reachable (c : controller) : reachable c -> sound c.
Proof.
  induction 1 as [|c k c' _ IH Hrun]; [exact sound_constructor|].
  destruct (sound_run k c IH) as (c'' & Hrun' & Hs). congruence.
Qed.

(** C10.  In every controller that a session can reach from a new one
    by the public operations, animation frames and lifecycle events, the
    position satisfies [0 <= currentIndex <= max(0, tokens.length - 1)];
    every position that a callback has been passed ([onTick],
    [onStateChange]) satisfied the same bound for the tokens of that
    moment, so it was never [tokens.length] for a non-empty sequence and
    it was 0 for an empty one; and every further call completes. *)
Theorem position_always_in_bounds (c : controller) :
  reachable c ->
  0 <= currentIndex c <= Z.max 0 (len c - 1)
  /\ (forall L n i,
        In (L, n) (log c) -> position_of n = Some i ->
        0 <= i <= Z.max 0 (L - 1) /\ (0 < L -> i <> L) /\ (L = 0 -> i = 0))
  /\ (forall k, exists c', run k c = Some c' /\ reachable c').
Proof.
  intros Hr. pose proof (sound_reachable c Hr) as H.
  split; [apply H|]. split.
  - intros L n i Hin Hpos.
    pose proof (sound_log _ H) as Hl. rewrite Forall_forall in Hl.
    specialize (Hl _ Hin). unfold seen_in_bounds in Hl. simpl in Hl.
    rewrite Hpos in Hl. unfold in_bounds in Hl. lia.
  - intros k. destruct (sound_run k c H) as (c' & Hrun & _).
    exists c'. split; [exact Hrun|]. econstructor; eassumption.
Qed.

Lemma position_always_in_bounds_witness :
  let c := Scenario.loaded_four in
  0 <= currentIndex c <= Z.max 0 (len c - 1)
  /\ (forall L n i,
        In (L, n) (log c) -> position_of n = Some i ->
        0 <= i <= Z.max 0 (L - 1) /\ (0 < L -> i <> L) /\ (L = 0 -> i = 0))
  /\ (forall k, exists c', run k c = Some c' /\ reachable c').
Proof.
  apply (position_always_in_bounds Scenario.loaded_four).
  apply (reach_call constructor (Load Scenario.four_tokens 9)).
  - apply reach_new.
  - reflexivity.
Defined.

(** *** The frame loop *)

(** Playing or not, a frame moves the position by one token at most. *)
Lemma tick_one_token (ts : Q) (c : controller) :
  0 <= currentIndex c ->
  exists c', tick ts c = Some c' /\ currentIndex c' <= currentIndex c + 1.
Proof.
  intros Hpos. destruct (isPlaying c) eqn:Hp.
  2:{ exists c. split; [apply tick_paused; exact Hp | lia]. }
  destruct (Qle_bool (inject_Z (currentTokenDuration c)) (due ts c)) eqn:Hd.
  - destruct (Z_lt_le_dec (currentIndex c + 1) (len c)) as [Hlt|Hge].
    + destruct (at_index_inside (tokens c) (currentIndex c + 1)) as [tk Htk];
        [unfold len in Hlt; lia|].
      destruct (tick_advance ts c tk Hp Hd Htk) as (c' & Ht & _ & Hi & _).
      exists c'. split; [exact Ht | lia].
    + destruct (tick_complete ts c Hp Hd Hge) as (c' & Ht & _ & Hi & _).
      exists c'. split; [exact Ht | lia].
  - destruct (tick_wait ts c Hp Hd) as (c' & Ht & _ & Hi & _).
    exists c'. split; [exact Ht | lia].
Qed.




(** *** [step] *)

Lemma tokens_emitTick (c : controller) : tokens (emitTick c) = tokens c.
Proof. unfold emitTick. destruct (at_index _ _); reflexivity. Qed.

Lemma currentIndex_emitTick (c : controller) :
  currentIndex (emitTick c) = currentIndex c.
Proof. unfold emitTick. destruct (at_index _ _); reflexivity. Qed.

Lemma isPlaying_emitTick (c : controller) : isPlaying (emitTick c) = isPlaying c.
Proof. unfold emitTick. destruct (at_index _ _); reflexivity. Qed.

(** C3.  [step] is claimed to restore the Running state when it was
    called while running.  It does not: a playing controller at
    position 0 that receives [step(1)] moves to position 1 with its
    frame cancelled and is left paused; and whatever the controller and
    the delta, playing before or not, the controller is not playing
    after [step]. *)
Theorem step_leaves_paused :
  (let c := Scenario.or_new Scenario.running_four in
   Scenario.running_four = Some c
   /\ isPlaying c = true /\ currentIndex c = 0
   /\ currentIndex (step 1 c) = 1
   /\ isPlaying (step 1 c) = false
   /\ rafId (step 1 c) = None)
  /\ (forall delta c, isPlaying (step delta c) = false).
Proof.
  split.
  - cbv zeta. repeat (split; [vm_compute; reflexivity|]).
    vm_compute; reflexivity.
  - intros delta c. unfold step. cbv zeta.
    unfold emitStateChange, emitProgress. simpl.
    rewrite isPlaying_emitTick. simpl.
    destruct (isPlaying c) eqn:Hp; [apply isPlaying_pause | exact Hp].
Qed.

(** *** Suspension *)

Lemma deltaTime_first (ts : Q) (c : controller) :
  lastTimestamp c = None -> (deltaTime ts c == 0)%Q.
Proof. intros H. unfold deltaTime. rewrite H. apply Qplus_opp_r. Qed.

(** C5.  When the page has been hidden and is visible again, and when
    the page resumes after a freeze, the last-frame timestamp is cleared
    and the accumulator is zero.  The frame that comes next, however
    late its timestamp, counts no elapsed time and moves the position by
    one token at most; so does the first frame after playback has been
    started again.  After the hidden-visible cycle the controller is
    paused, and a frame alone changes nothing. *)
Theorem resuming_counts_no_suspended_time (ts : Q) (c : controller) :
  0 <= currentIndex c ->
  let v := handleVisibilityChange false (handleVisibilityChange true c) in
  let r := handleResume c in
  (lastTimestamp v = None /\ accumulatedTime v = 0%Q)
  /\ (lastTimestamp r = None /\ accumulatedTime r = 0%Q)
  /\ tick ts v = Some v
  /\ (forall s, s = v \/ s = r \/ play v = Some s ->
        (deltaTime ts s == 0)%Q
        /\ exists s', tick ts s = Some s'
                      /\ currentIndex s' <= currentIndex s + 1).
Proof.
  intros Hpos v r.
  assert (Hv : lastTimestamp v = None /\ accumulatedTime v = 0%Q)
    by (split; reflexivity).
  assert (Hr : lastTimestamp r = None /\ accumulatedTime r = 0%Q)
    by (split; reflexivity).
  assert (Hvp : isPlaying v = false).
  { unfold v, handleVisibilityChange. cbv zeta. cbn.
    destruct (isPlaying c) eqn:Hp; cbn; [|exact Hp].
    destruct (rafId c); reflexivity. }
  assert (Hvi : currentIndex v = currentIndex c).
  { unfold v, handleVisibilityChange. cbv zeta. cbn.
    destruct (isPlaying c); cbn; [|reflexivity].
    destruct (rafId c); reflexivity. }
  split; [exact Hv|]. split; [exact Hr|].
  split; [apply tick_paused; exact Hvp|].
  intros s [->|[->|Hplay]].
  - split; [apply deltaTime_first, Hv|].
    apply tick_one_token. rewrite Hvi. exact Hpos.
  - split; [apply deltaTime_first, Hr|].
    apply tick_one_token. exact Hpos.
  - destruct (Z.eq_dec (len v) 0) as [E|E].
    + assert (Hs : s = v).
      { unfold play in Hplay. rewrite E in Hplay. simpl in Hplay. congruence. }
      subst s. split; [apply deltaTime_first, Hv|].
      apply tick_one_token. rewrite Hvi. exact Hpos.
    + pose proof (len_nonneg v).
      destruct (play_nonempty v) as (tk & s0 & _ & Hplay0 & _ & Hi & _ & Hts & _);
        [lia | rewrite Hvi; exact Hpos |].
      assert (s0 = s) by congruence. subst s0.
      split; [apply deltaTime_first, Hts|].
      apply tick_one_token. rewrite Hi.
      pose proof (start_of_inside v). lia.
Qed.

Lemma resuming_counts_no_suspended_time_witness :
  let c := Scenario.or_new Scenario.running_four in
  let v := handleVisibilityChange false (handleVisibilityChange true c) in
  let r := handleResume c in
  (lastTimestamp v = None /\ accumulatedTime v = 0%Q)
  /\ (lastTimestamp r = None /\ accumulatedTime r = 0%Q)
  /\ tick 3600000 v = Some v
  /\ (forall s, s = v \/ s = r \/ play v = Some s ->
        (deltaTime 3600000 s == 0)%Q
        /\ exists s', tick 3600000 s = Some s'
                      /\ currentIndex s' <= currentIndex s + 1).
Proof.
  apply (resuming_counts_no_suspended_time 3600000
           (Scenario.or_new Scenario.running_four)).
  vm_compute. discriminate.
Defined.

(** *** [seek] *)

Lemma clamp_index_min_max (c : controller) (i : Z) :
  0 < len c -> clamp_index c i = Z.min (Z.max i 0) (len c - 1).
Proof. unfold clamp_index. lia. Qed.

(** Where [seek] does clamp.  On a non-empty sequence of length [L],
    [seek] never raises, whatever the index, and keeps the controller
    paused or playing as it was.  When the controller is paused, and
    when it is playing and the clamped index is before the last one, the
    resulting position is [min(max(index, 0), L - 1)]. *)
Lemma seek_clamps (index : Z) (c : controller) :
  tokens c <> [] ->
  let target := Z.min (Z.max index 0) (len c - 1) in
  exists c',
    seek index c = Some c'
    /\ tokens c' = tokens c
    /\ isPlaying c' = isPlaying c
    /\ (isPlaying c = false \/ target < len c - 1 -> currentIndex c' = target).
Proof.
  intros Hne target. apply len_nonempty in Hne.
  pose proof (clamp_index_min_max c index Hne) as Hc. fold target in Hc.
  unfold seek. cbv zeta. destruct (isPlaying c) eqn:Hp.
  - set (x := emitProgress _).
    assert (Hxt : tokens x = tokens c).
    { unfold x, emitProgress. simpl. rewrite tokens_emitTick. simpl.
      apply tokens_pause. }
    assert (Hxl : len x = len c) by (unfold len; rewrite Hxt; reflexivity).
    assert (Hxi : currentIndex x = target).
    { unfold x, emitProgress. simpl. rewrite currentIndex_emitTick. simpl.
      rewrite <- Hc. unfold clamp_index, len. rewrite tokens_pause.
      reflexivity. }
    destruct (play_nonempty x)
      as (tk & c' & _ & Hplay & Ht & Hi & _ & _ & _ & Hpl & _);
      [lia | lia |].
    exists c'. split; [exact Hplay|]. split; [congruence|].
    split; [exact Hpl|].
    intros [Hf|Hlt]; [discriminate|].
    rewrite Hi. unfold start_of. rewrite Hxl, Hxi.
    destruct (Z.leb_spec (len c - 1) target); [lia | reflexivity].
  - eexists. split; [reflexivity|].
    unfold emitStateChange, emitProgress. simpl.
    rewrite tokens_emitTick, isPlaying_emitTick, currentIndex_emitTick.
    simpl. auto.
Qed.

Lemma seek_clamps_witness :
  let c := Scenario.paused_hundred in
  let target := Z.min (Z.max 9999 0) (len c - 1) in
  exists c',
    seek 9999 c = Some c'
    /\ tokens c' = tokens c
    /\ isPlaying c' = isPlaying c
    /\ (isPlaying c = false \/ target < len c - 1 -> currentIndex c' = target).
Proof.
  apply (seek_clamps 9999 Scenario.paused_hundred).
  vm_compute. discriminate.
Defined.

(** The two cases of the specification, on a paused controller. *)
Example seek_hundred :
  len Scenario.paused_hundred = 100
  /\ option_map currentIndex (seek (-5) Scenario.paused_hundred) = Some 0
  /\ option_map currentIndex (seek 9999 Scenario.paused_hundred) = Some 99.
Proof. repeat split; vm_compute; reflexivity. Qed.

(** C8.  The code breaks the claim on a playing controller.  With a
    hundred tokens playing, [seek(99)], a valid index, clamps nothing,
    shows token 99 and progress 99 to the observers, and then resumes
    through [play], whose restart guard finds the position on the last
    index and sets it to 0: the controller ends on position 0, and no tick
    is notified for the token there.  [seek(9999)] ends on 0 likewise.
    The paused path of [seek] and the sibling [step] both end on 99. *)
Theorem seek_last_index_restarts :
  let c := Scenario.or_new Scenario.playing_hundred in
  Scenario.playing_hundred = Some c
  /\ len c = 100 /\ isPlaying c = true /\ currentIndex c = 0
  /\ Z.min (Z.max 99 0) (len c - 1) = 99
  /\ Z.min (Z.max 9999 0) (len c - 1) = 99
  /\ option_map currentIndex (seek 99 c) = Some 0
  /\ option_map currentIndex (seek 9999 c) = Some 0
  /\ option_map (fun c' => skipn (length (log c)) (log c')) (seek 99 c)
     = Some [(100, OnStateChange
                     {| st_isPlaying := false; st_currentIndex := 0;
                        st_wpm := 300; st_mode := reading |});
             (100, OnTick Scenario.plain_token 99);
             (100, OnProgress (9900 # 100));
             (100, OnStateChange
                     {| st_isPlaying := true; st_currentIndex := 0;
                        st_wpm := 300; st_mode := reading |})]
  /\ option_map currentIndex (seek 99 (pause c)) = Some 99
  /\ option_map currentIndex (seek 9999 (pause c)) = Some 99
  /\ currentIndex (step 99 c) = 99.
Proof.
  cbv zeta. repeat (split; [vm_compute; reflexivity|]).
  vm_compute. reflexivity.
Qed.

(** *** [play] *)

(** C9.  On an empty sequence [play] changes nothing.  On a non-empty
    one it completes; the position is 0 if it was on or past the last
    index and is unchanged otherwise; the accumulator is zero and the
    last-frame timestamp cleared; the duration is that of the token at
    the new position, scaled to the current rate; the controller is
    playing; a frame has been requested and is pending; and the new state
    has been notified. *)
Theorem play_starts (c : controller) :
  (tokens c = [] -> play c = Some c)
  /\ (tokens c <> [] -> 0 <= currentIndex c ->
      let start :=
        if len c - 1 <=? currentIndex c then 0 else currentIndex c in
      exists tk c',
        at_index (tokens c) start = Some tk
        /\ play c = Some c'
        /\ tokens c' = tokens c
        /\ currentIndex c' = start
        /\ accumulatedTime c' = 0%Q
        /\ lastTimestamp c' = None
        /\ currentTokenDuration c' = getDisplayDuration tk (wpm c)
        /\ isPlaying c' = true
        /\ rafId c' = Some (nextHandle c)
        /\ pending c' = pending c ++ [nextHandle c]
        /\ wpm c' = wpm c /\ mode c' = mode c
        /\ log c' = log c ++ [(len c, OnStateChange
                                 {| st_isPlaying := true;
                                    st_currentIndex := start;
                                    st_wpm := wpm c; st_mode := mode c |})]).
Proof.
  split; [apply play_empty|].
  intros Hne Hpos. apply len_nonempty in Hne.
  exact (play_nonempty c Hne Hpos).
Qed.

Lemma play_starts_witness :
  let c := Scenario.loaded_four in
  exists tk c',
    at_index (tokens c) 0 = Some tk
    /\ play c = Some c'
    /\ tokens c' = tokens c
    /\ currentIndex c' = 0
    /\ accumulatedTime c' = 0%Q
    /\ lastTimestamp c' = None
    /\ currentTokenDuration c' = getDisplayDuration tk (wpm c)
    /\ isPlaying c' = true
    /\ rafId c' = Some (nextHandle c)
    /\ pending c' = pending c ++ [nextHandle c]
    /\ wpm c' = wpm c /\ mode c' = mode c
    /\ log c' = log c ++ [(len c, OnStateChange
                             {| st_isPlaying := true;
                                st_currentIndex := 0;
                                st_wpm := wpm c; st_mode := mode c |})].
Proof.
  apply (proj2 (play_starts Scenario.loaded_four)).
  - vm_compute. discriminate.
  - vm_compute. discriminate.
Defined.

End PlaybackFacts.

(** ** What segmentation keeps of the text *)

Module SegmentationFacts.
Import JsString Tokenizer Text.

Lemma visible_cons (c : N) (s : JsString.t) :
  visible (c :: s) = if is_space c then visible s else c :: visible s.
Proof. unfold visible. simpl. destruct (is_space c); reflexivity. Qed.

Lemma visible_app (s1 s2 : JsString.t) :
  visible (s1 ++ s2) = visible s1 ++ visible s2.
Proof. apply filter_app. Qed.

Lemma visible_spaces (s : JsString.t) :
  forallb is_space s = true -> visible s = [].
Proof.
  induction s as [|c s IH]; [reflexivity|].
  cbn [forallb]. intros H. apply andb_prop in H. destruct H as [Hc Hs].
  rewrite visible_cons, Hc. auto.
Qed.

Lemma visible_rev (s : JsString.t) : visible (rev s) = rev (visible s).
Proof.
  induction s as [|c s IH]; [reflexivity|].
  cbn [rev]. rewrite visible_app, IH, !visible_cons.
  destruct (is_space c); cbn [rev visible filter]; [apply app_nil_r | reflexivity].
Qed.

Lemma visible_replace_crlf (s : JsString.t) :
  visible (replace_crlf s) = visible s.
Proof.
  induction s as [|c s IH]; [reflexivity|].
  cbn [replace_crlf]. destruct (N.eqb_spec c CR) as [->|Hc].
  - destruct s as [|d s']; [reflexivity|].
    destruct (d =? LF)%N.
    + rewrite IH. rewrite (visible_cons CR). reflexivity.
    + rewrite !(visible_cons CR), IH. reflexivity.
  - rewrite !(visible_cons c), IH. reflexivity.
Qed.

Lemma visible_replace_cr (s : JsString.t) :
  visible (replace_cr s) = visible s.
Proof.
  unfold replace_cr. induction s as [|c s IH]; [reflexivity|].
  cbn [map]. rewrite !visible_cons, IH.
  destruct (N.eqb_spec c CR) as [->|_]; reflexivity.
Qed.

Lemma visible_drop_leading (s : JsString.t) :
  visible (drop_leading is_space s) = visible s.
Proof.
  induction s as [|c s IH]; [reflexivity|].
  cbn [drop_leading]. destruct (is_space c) eqn:E; [|reflexivity].
  rewrite IH, visible_cons, E. reflexivity.
Qed.

Lemma visible_trim (s : JsString.t) : visible (trim s) = visible s.
Proof.
  unfold trim.
  rewrite visible_rev, visible_drop_leading, visible_rev, rev_involutive.
  apply visible_drop_leading.
Qed.

(** The pieces of [split(/\n\s*\n/)] hold every visible code unit of the
    string, in order; [skip] code units of a separator are still ahead. *)
Lemma visible_split_blank_lines (s : JsString.t) :
  forall skip cur,
    forallb is_space (firstn skip s) = true ->
    concat (map visible (split_blank_lines skip cur s))
    = visible (rev cur) ++ visible s.
Proof.
  induction s as [|c s IH]; intros skip cur Hskip.
  - cbn. rewrite app_nil_r. reflexivity.
  - destruct skip as [|k].
    + cbn [split_blank_lines].
      destruct (match_blank_line (c :: s)) as [n|] eqn:E.
      * destruct (TokenizerFacts.match_blank_line_match _ _ E)
          as (ws & rest & Hs & Hws & -> & _).
        injection Hs as -> ->.
        cbn [map concat Nat.pred Nat.add]. rewrite IH.
        -- rewrite (visible_cons LF). reflexivity.
        -- rewrite firstn_app, firstn_all2 by lia.
           replace (S (length ws) - length ws)%nat with 1%nat by lia.
           cbn [firstn]. rewrite forallb_app, Hws. reflexivity.
      * rewrite IH by reflexivity. cbn [rev].
        rewrite visible_app, <- app_assoc.
        rewrite (visible_cons c s), (visible_cons c []).
        destruct (is_space c); reflexivity.
    + cbn [split_blank_lines]. cbn [firstn forallb] in Hskip.
      apply andb_prop in Hskip. destruct Hskip as [Hc Hk].
      rewrite IH by exact Hk. rewrite (visible_cons c), Hc. reflexivity.
Qed.

Lemma concat_filter_nonempty (l : list JsString.t) :
  concat (filter nonempty l) = concat l.
Proof.
  induction l as [|x l IH]; [reflexivity|].
  destruct x; cbn [filter nonempty concat]; [exact IH|].
  rewrite IH. reflexivity.
Qed.

Lemma concat_visible_filter_nonempty (l : list JsString.t) :
  concat (map visible (filter nonempty l)) = concat (map visible l).
Proof.
  induction l as [|x l IH]; [reflexivity|].
  destruct x; cbn [filter nonempty map concat]; [exact IH|].
  rewrite IH. reflexivity.
Qed.

Lemma visible_paragraphs (text : JsString.t) :
  concat (map visible (splitIntoParagraphs text)) = visible text.
Proof.
  unfold splitIntoParagraphs.
  rewrite concat_visible_filter_nonempty, map_map.
  rewrite (map_ext _ visible) by (intros; apply visible_trim).
  rewrite visible_split_blank_lines by reflexivity.
  cbn [rev visible filter app].
  rewrite visible_replace_cr. apply visible_replace_crlf.
Qed.

Lemma trim_visible (s : JsString.t) : trim s <> [] -> visible (trim s) <> [].
Proof.
  unfold trim.
  destruct (drop_leading is_space (rev (drop_leading is_space s)))
    as [|c r] eqn:E; [intros H; now contradiction H|].
  intros _. rewrite visible_rev, visible_cons.
  rewrite (TokenizerFacts.drop_leading_head _ _ _ _ E).
  cbn [rev]. intros H. apply app_eq_nil in H. destruct H; discriminate.
Qed.

Lemma paragraph_visible (text p : JsString.t) :
  In p (splitIntoParagraphs text) -> visible p <> [].
Proof.
  unfold splitIntoParagraphs. rewrite filter_In, in_map_iff.
  intros [(piece & <- & _) Hne]. apply trim_visible.
  destruct (trim piece); [discriminate | discriminate].
Qed.

(** *** Words *)

Lemma collapse_spaces_SP (s : JsString.t) :
  forall in_run, spaces_are_SP (collapse_spaces in_run s).
Proof.
  induction s as [|c s IH]; intros in_run x Hin Hx; [contradiction|].
  cbn [collapse_spaces] in Hin. destruct (is_space c) eqn:E.
  - destruct in_run; [exact (IH _ _ Hin Hx)|].
    destruct Hin as [<-|Hin]; [reflexivity | exact (IH _ _ Hin Hx)].
  - destruct Hin as [<-|Hin]; [congruence | exact (IH _ _ Hin Hx)].
Qed.

Lemma visible_collapse_spaces (s : JsString.t) :
  forall in_run, visible (collapse_spaces in_run s) = visible s.
Proof.
  induction s as [|c s IH]; intros in_run; [reflexivity|].
  cbn [collapse_spaces]. rewrite (visible_cons c s).
  destruct (is_space c) eqn:E.
  - destruct in_run; [apply IH|]. rewrite (visible_cons SP). apply IH.
  - rewrite visible_cons, E, IH. reflexivity.
Qed.

Lemma drop_leading_incl (p : N -> bool) (s : JsString.t) (c : N) :
  In c (drop_leading p s) -> In c s.
Proof.
  induction s as [|d s IH]; [auto|]. cbn [drop_leading].
  destruct (p d); [right; auto | auto].
Qed.

Lemma trim_SP (s : JsString.t) : spaces_are_SP s -> spaces_are_SP (trim s).
Proof.
  intros H c Hin. apply H. unfold trim in Hin.
  apply in_rev, drop_leading_incl, in_rev, drop_leading_incl in Hin. exact Hin.
Qed.

(** The pieces of [split(' ')]: together they are the string without its
    spaces, and none of them holds a space. *)
Lemma split_on_pieces (s : JsString.t) :
  forall cur,
    ~ In SP cur ->
    concat (split_on SP cur s) = rev cur ++ filter (fun c => negb (c =? SP)%N) s
    /\ forall w, In w (split_on SP cur s) -> ~ In SP w.
Proof.
  induction s as [|c s IH]; intros cur Hcur.
  - cbn. rewrite !app_nil_r. split; [reflexivity|].
    intros w [<-|[]]. rewrite <- in_rev. exact Hcur.
  - cbn [split_on filter]. destruct (N.eqb_spec c SP) as [->|Hc].
    + destruct (IH [] (fun H => H)) as [Hcat Hin].
      cbn [concat negb]. rewrite Hcat. split; [reflexivity|].
      intros w [<-|Hw]; [rewrite <- in_rev; exact Hcur | exact (Hin w Hw)].
    + destruct (IH (c :: cur)) as [Hcat Hin].
      { intros [H|H]; [congruence | exact (Hcur H)]. }
      rewrite Hcat. cbn [rev negb]. rewrite <- app_assoc. split; [reflexivity|].
      exact Hin.
Qed.

Lemma split_on_incl (sep : N) (s : JsString.t) :
  forall cur w, In w (split_on sep cur s) ->
                forall c, In c w -> In c cur \/ In c s.
Proof.
  induction s as [|d s IH]; intros cur w Hw c Hc.
  - destruct Hw as [<-|[]]. left. apply in_rev. exact Hc.
  - cbn [split_on] in Hw. destruct (d =? sep)%N.
    + destruct Hw as [<-|Hw]; [left; apply in_rev; exact Hc|].
      destruct (IH [] w Hw c Hc) as [[]|H]. right. now right.
    + destruct (IH _ w Hw c Hc) as [[<-|H]|H];
        [right; now left | now left | right; now right].
Qed.

Lemma filter_SP_visible (s : JsString.t) :
  spaces_are_SP s -> filter (fun c => negb (c =? SP)%N) s = visible s.
Proof.
  induction s as [|c s IH]; intros H; [reflexivity|].
  rewrite visible_cons. cbn [filter].
  rewrite IH by (intros x Hx; apply H; now right).
  destruct (N.eqb_spec c SP) as [->|Hc]; [reflexivity|].
  destruct (is_space c) eqn:E; [|reflexivity].
  exfalso. apply Hc. apply H; [now left | exact E].
Qed.

Lemma visible_fixed (s : JsString.t) :
  (forall c, In c s -> is_space c = false) -> visible s = s.
Proof.
  induction s as [|c s IH]; intros H; [reflexivity|].
  rewrite visible_cons, (H c) by now left.
  rewrite IH by (intros x Hx; apply H; now right). reflexivity.
Qed.

(** The words of a paragraph: its visible code units, cut into pieces
    that are not empty and hold no white space. *)
Lemma words_of_paragraph (p : JsString.t) :
  concat (splitIntoWords p) = visible p
  /\ Forall solid (splitIntoWords p).
Proof.
  unfold splitIntoWords. cbv zeta.
  set (normalized := trim (collapse_spaces false p)).
  assert (Hsp : spaces_are_SP normalized)
    by (apply trim_SP, collapse_spaces_SP).
  destruct (split_on_pieces normalized [] (fun H => H)) as [Hcat Hin].
  split.
  - rewrite concat_filter_nonempty, Hcat. cbn [rev app].
    rewrite (filter_SP_visible _ Hsp). unfold normalized.
    rewrite visible_trim. apply visible_collapse_spaces.
  - apply Forall_forall. intros w Hw. apply filter_In in Hw.
    destruct Hw as [Hw Hne]. split; [destruct w; [discriminate | discriminate]|].
    apply visible_fixed. intros c Hc.
    destruct (is_space c) eqn:E; [|reflexivity]. exfalso.
    apply (Hin w Hw).
    assert (Hc' : In c normalized).
    { destruct (split_on_incl _ _ _ _ Hw c Hc) as [[]|H]. exact H. }
    rewrite <- (Hsp c Hc' E). exact Hc.
Qed.

(** *** Tokens *)

Lemma tokenize_words_words (m : mode) (ws : list JsString.t) :
  forall n i, map word (tokenize_words m n i ws) = ws.
Proof.
  induction ws as [|w ws IH]; intros n i; [reflexivity|].
  cbn [tokenize_words map word]. rewrite IH. reflexivity.
Qed.

Lemma tokenize_words_of_text (text : JsString.t) (m : mode) :
  map word (tokenize text m)
  = flat_map splitIntoWords (splitIntoParagraphs text).
Proof.
  unfold tokenize. induction (splitIntoParagraphs text) as [|p ps IH];
    [reflexivity|].
  cbn [flat_map]. rewrite map_app, IH. unfold tokenize_paragraph.
  rewrite tokenize_words_words. reflexivity.
Qed.

Lemma words_of_text (text : JsString.t) :
  concat (flat_map splitIntoWords (splitIntoParagraphs text)) = visible text
  /\ Forall solid (flat_map splitIntoWords (splitIntoParagraphs text)).
Proof.
  rewrite <- visible_paragraphs.
  induction (splitIntoParagraphs text) as [|p ps [IH1 IH2]];
    [split; [reflexivity | constructor]|].
  destruct (words_of_paragraph p) as [Hcat Hsolid].
  cbn [flat_map map concat]. rewrite concat_app, Hcat, IH1.
  split; [reflexivity|]. apply Forall_app. split; assumption.
Qed.

Lemma visible_nil (s : JsString.t) :
  visible s = [] <-> forallb is_space s = true.
Proof.
  split; [|apply visible_spaces].
  induction s as [|c s IH]; [reflexivity|].
  rewrite visible_cons. cbn [forallb].
  destruct (is_space c); [exact IH | discriminate].
Qed.

Lemma solid_no_space (w : JsString.t) :
  solid w -> forallb (fun c => negb (is_space c)) w = true.
Proof.
  intros [_ H]. unfold visible in H. apply forallb_forall. intros c Hc.
  rewrite <- H in Hc. apply filter_In in Hc. apply Hc.
Qed.

(** X1. Tokenizing loses nothing but white space: the words of the tokens, one
    after the other, are the text without its white space. *)
Theorem tokenize_keeps_the_text (text : JsString.t) (m : mode) :
  concat (map word (tokenize text m)) = visible text.
Proof. rewrite tokenize_words_of_text. apply words_of_text. Qed.

(** X2. Every word of a token is a run of code units that are not white space,
    and is not empty. *)
Theorem tokenize_words_are_solid (text : JsString.t) (m : mode) (t : Token) :
  In t (tokenize text m) ->
  word t <> [] /\ forallb (fun c => negb (is_space c)) (word t) = true.
Proof.
  intros Hin. apply (in_map word) in Hin.
  rewrite tokenize_words_of_text in Hin.
  destruct (words_of_text text) as [_ Hsolid].
  rewrite Forall_forall in Hsolid. specialize (Hsolid _ Hin).
  split; [apply Hsolid | apply solid_no_space, Hsolid].
Qed.

Lemma tokenize_words_are_solid_witness :
  let t := Scenario.plain_token in
  word t <> [] /\ forallb (fun c => negb (is_space c)) (word t) = true.
Proof.
  apply (tokenize_words_are_solid (lit "a b c") reading Scenario.plain_token).
  vm_compute. right. left. reflexivity.
Defined.

(** X3. There are no tokens exactly when the text is empty or all white
    space. *)
Theorem tokenize_nothing (text : JsString.t) (m : mode) :
  tokenize text m = [] <-> forallb is_space text = true.
Proof.
  rewrite <- visible_nil.
  assert (Hcat : concat (map word (tokenize text m)) = visible text)
    by (rewrite tokenize_words_of_text; apply words_of_text).
  assert (Hsolid : Forall solid (map word (tokenize text m)))
    by (rewrite tokenize_words_of_text; apply words_of_text).
  rewrite <- Hcat. split.
  - intros ->. reflexivity.
  - intros H. destruct (tokenize text m) as [|t ts]; [reflexivity|].
    exfalso. cbn [map concat] in H, Hsolid.
    inversion Hsolid as [|? ? [Hne _] _]; subst.
    apply app_eq_nil in H. destruct H as [H _]. contradiction.
Qed.

(** *** Paragraph boundaries *)

Lemma tokenize_words_length (m : mode) (ws : list JsString.t) :
  forall n i, length (tokenize_words m n i ws) = length ws.
Proof.
  induction ws as [|w ws IH]; intros n i; [reflexivity|].
  cbn [tokenize_words length]. rewrite IH. reflexivity.
Qed.

Lemma tokenize_words_nth (m : mode) (ws : list JsString.t) :
  forall n i k t,
    nth_error (tokenize_words m n i ws) k = Some t ->
    isParagraphStart (flags t) = (i + k =? 0)%nat
    /\ isParagraphEnd (flags t) = (S (i + k) =? n)%nat.
Proof.
  induction ws as [|w ws IH]; intros n i k t H.
  - destruct k; discriminate.
  - destruct k as [|k]; cbn [tokenize_words nth_error] in H.
    + injection H as <-. cbn [flags createFlags isParagraphStart isParagraphEnd].
      rewrite Nat.add_0_r. split; [reflexivity|].
      destruct (Z.eqb_spec (Z.of_nat i) (Z.of_nat n - 1));
        destruct (Nat.eqb_spec (S i) n); (reflexivity || lia).
    + destruct (IH n (S i) k t H) as [H1 H2].
      rewrite H1, H2. replace (i + S k)%nat with (S i + k)%nat by lia.
      split; reflexivity.
Qed.

(** X4. The tokens are those of the paragraphs, one paragraph after the other;
    every paragraph has a token, its first token and no other is flagged as
    the start of a paragraph, its last token and no other as the end. *)
Theorem paragraph_flags (text p : JsString.t) (m : mode) :
  In p (splitIntoParagraphs text) ->
  let ts := tokenize_paragraph m p in
  ts <> []
  /\ forall k t, nth_error ts k = Some t ->
       isParagraphStart (flags t) = (k =? 0)%nat
       /\ isParagraphEnd (flags t) = (S k =? length ts)%nat.
Proof.
  intros Hp ts. split.
  - intros E. apply (f_equal (map word)) in E. unfold ts, tokenize_paragraph in E.
    rewrite tokenize_words_words in E. cbn [map] in E.
    destruct (words_of_paragraph p) as [Hcat _]. rewrite E in Hcat.
    symmetry in Hcat. exact (paragraph_visible _ _ Hp Hcat).
  - intros k t H. unfold ts, tokenize_paragraph in *. cbv zeta in *.
    rewrite tokenize_words_length.
    exact (tokenize_words_nth _ _ _ 0%nat k t H).
Qed.

Lemma paragraph_flags_witness :
  let p := lit "Second paragraph." in
  let ts := tokenize_paragraph reading p in
  ts <> []
  /\ forall k t, nth_error ts k = Some t ->
       isParagraphStart (flags t) = (k =? 0)%nat
       /\ isParagraphEnd (flags t) = (S k =? length ts)%nat.
Proof.
  apply (paragraph_flags Scenario.two_paragraphs).
  vm_compute. right. left. reflexivity.
Defined.

(** *** The pivot *)

Lemma orp_loop_found (rest : JsString.t) :
  forall k ci i j,
    orp_loop k ci i rest = Some j ->
    exists pre c post,
      rest = pre ++ c :: post /\ j = (i + length pre)%nat
      /\ is_alnum c = true /\ (length (strip pre) + ci = k)%nat.
Proof.
  induction rest as [|c rest IH]; intros k ci i j H; [discriminate|].
  cbn [orp_loop] in H. destruct (is_alnum c) eqn:E.
  - destruct (Nat.eqb_spec ci k) as [->|Hne].
    + injection H as <-. exists [], c, rest.
      rewrite Nat.add_0_r. auto.
    + destruct (IH _ _ _ _ H) as (pre & x & post & -> & -> & Hx & Hk).
      exists (c :: pre), x, post. unfold strip in *. cbn [filter length app].
      rewrite E. cbn [length]. repeat split; auto; lia.
  - destruct (IH _ _ _ _ H) as (pre & x & post & -> & -> & Hx & Hk).
    exists (c :: pre), x, post. unfold strip in *. cbn [filter length app].
    rewrite E. repeat split; auto; lia.
Qed.

Lemma strip_leading (w : JsString.t) :
  strip (leading (fun c => negb (is_alnum c)) w) = [].
Proof.
  unfold strip. induction w as [|c w IH]; [reflexivity|].
  cbn [leading]. destruct (is_alnum c) eqn:E; cbn [negb]; [reflexivity|].
  cbn [filter]. rewrite E. exact IH.
Qed.

Lemma strip_app (a b : JsString.t) : strip (a ++ b) = strip a ++ strip b.
Proof. apply filter_app. Qed.

(** The position found holds a letter or a digit. *)
Lemma orp_position (w : JsString.t) :
  existsb is_alnum w = true ->
  exists c, nth_error w (findORPInWord w) = Some c /\ is_alnum c = true.
Proof.
  intros H. set (p := fun c => negb (is_alnum c)).
  destruct (TokenizerFacts.leading_drop p w) as [Hsplit _].
  pose proof (TokenizerFacts.drop_leading_alnum w H) as Hne. fold p in Hne.
  unfold findORPInWord. cbv zeta. fold p.
  rewrite (TokenizerFacts.leading_skipn p w).
  destruct (TokenizerFacts.orp_loop_finds (drop_leading p w)
              (calculateORP (strip (drop_leading p w))) 0
              (length (leading p w)))
    as (j & Hj & _).
  - lia.
  - rewrite Nat.sub_0_r.
    rewrite <- (TokenizerFacts.strip_idempotent (drop_leading p w)) at 2.
    apply TokenizerFacts.calculateORP_lt.
    rewrite TokenizerFacts.strip_idempotent. exact Hne.
  - rewrite Hj.
    destruct (orp_loop_found _ _ _ _ _ Hj) as (pre & c & post & Hd & -> & Hc & _).
    exists c. split; [|exact Hc].
    rewrite Hsplit at 1. rewrite Hd, nth_error_app2 by lia.
    replace (length (leading p w) + length pre - length (leading p w))%nat
      with (length pre) by lia.
    rewrite nth_error_app2 by lia. rewrite Nat.sub_diag. reflexivity.
Qed.

(** X5. In a word that has a letter or a digit, the position that
    [findORPInWord] returns holds a letter or a digit; the letters and digits
    before it are as many as [calculateORP] says, whatever punctuation stands
    between them: at most 4, and fewer than half of those of the word. *)
Theorem pivot_of_a_word (w : JsString.t) :
  existsb is_alnum w = true ->
  let i := findORPInWord w in
  let before := length (strip (firstn i w)) in
  exists c,
    nth_error w i = Some c /\ is_alnum c = true
    /\ before = calculateORP w
    /\ (before <= 4)%nat
    /\ (2 * before < length (strip w))%nat.
Proof.
  intros H. cbv zeta.
  set (p := fun c => negb (is_alnum c)).
  destruct (TokenizerFacts.leading_drop p w) as [Hsplit _].
  pose proof (TokenizerFacts.drop_leading_alnum w H) as Hne. fold p in Hne.
  assert (Hstrip : strip (drop_leading p w) = strip w).
  { rewrite Hsplit at 2. rewrite strip_app. unfold p.
    rewrite strip_leading. reflexivity. }
  assert (Horp : calculateORP (strip (drop_leading p w)) = calculateORP w).
  { unfold calculateORP. rewrite TokenizerFacts.strip_idempotent, Hstrip.
    reflexivity. }
  pose proof (TokenizerFacts.calculateORP_lt w) as Hlt.
  rewrite <- Hstrip in Hlt. specialize (Hlt Hne). rewrite Hstrip in Hlt.
  unfold findORPInWord. cbv zeta. fold p.
  rewrite (TokenizerFacts.leading_skipn p w), Horp.
  destruct (TokenizerFacts.orp_loop_finds (drop_leading p w)
              (calculateORP w) 0 (length (leading p w)))
    as (j & Hj & _); [lia | rewrite Hstrip; lia |].
  rewrite Hj.
  destruct (orp_loop_found _ _ _ _ _ Hj) as (pre & c & post & Hd & -> & Hc & Hk).
  exists c.
  assert (Hw : w = (leading p w ++ pre) ++ c :: post)
    by (rewrite <- app_assoc, <- Hd; exact Hsplit).
  assert (Hlen : (length (leading p w) + length pre
                  = length (leading p w ++ pre))%nat)
    by (rewrite length_app; reflexivity).
  rewrite Hlen.
  assert (Hpre : strip (leading p w ++ pre) = strip pre)
    by (rewrite strip_app; unfold p; rewrite strip_leading; reflexivity).
  remember (leading p w ++ pre) as L eqn:HL.
  assert (Hnth : nth_error w (length L) = Some c).
  { rewrite Hw. rewrite nth_error_app2 by lia.
    rewrite Nat.sub_diag. reflexivity. }
  assert (Hfirst : firstn (length L) w = L).
  { rewrite Hw. rewrite firstn_app, firstn_all, Nat.sub_diag.
    cbn [firstn]. apply app_nil_r. }
  rewrite Hfirst, Hpre.
  split; [exact Hnth|]. split; [exact Hc|]. split; [lia|].
  rewrite Nat.add_0_r in Hk. rewrite Hk.
  clear -Hlt. unfold calculateORP in *.
  repeat match goal with
         | |- context [(?a <=? ?b)%nat] => destruct (Nat.leb_spec a b)
         | H : context [(?a <=? ?b)%nat] |- _ => destruct (Nat.leb_spec a b)
         end; lia.
Qed.

Lemma pivot_of_a_word_witness :
  let w := lit "(hello)" in
  let i := findORPInWord w in
  let before := length (strip (firstn i w)) in
  exists c,
    nth_error w i = Some c /\ is_alnum c = true
    /\ before = calculateORP w
    /\ (before <= 4)%nat
    /\ (2 * before < length (strip w))%nat.
Proof.
  apply (pivot_of_a_word (lit "(hello)")). reflexivity.
Defined.

End SegmentationFacts.

(** ** Durations and reading time *)

Module DurationFacts.
Import JsString Tokenizer ReadingTime.

(** The duration table: every base duration lies between 300 and 4259,
    and skimming never takes longer than reading. *)
Lemma base_duration_table (f : TokenFlags) :
  (300 <= calculateBaseDuration f skim)%Z
  /\ (calculateBaseDuration f skim <= calculateBaseDuration f reading)%Z
  /\ (calculateBaseDuration f reading <= 4259)%Z.
Proof.
  destruct f as [s e p l n a].
  destruct s, e, p, l, n, a; vm_compute; repeat split; discriminate.
Qed.

Lemma base_duration_range (f : TokenFlags) (m : mode) :
  (300 <= calculateBaseDuration f m <= 4259)%Z.
Proof. pose proof (base_duration_table f). destruct m; lia. Qed.

Lemma Math_round_le (x y : Q) : (x <= y)%Q -> (Math_round x <= Math_round y)%Z.
Proof.
  intros H. unfold Math_round. apply Qfloor_resp_le.
  apply Qplus_le_l. exact H.
Qed.

Lemma Math_round_integer (z : Z) : Math_round (inject_Z z) = z.
Proof.
  unfold Math_round, Qfloor, Qplus, inject_Z. cbn [Qnum Qden].
  rewrite Z.mul_1_r. change (Z.pos (1 * 2)) with 2%Z.
  replace (z * 2 + 1)%Z with (1 + z * 2)%Z by lia.
  rewrite Z.div_add by lia. reflexivity.
Qed.

(** A lower rate never shortens the time a token is shown. *)
Lemma display_duration_antitone (tk : Token) (r1 r2 : Q) :
  (0 <= baseDurationMs tk)%Z -> (0 < r1)%Q -> (r1 <= r2)%Q ->
  (getDisplayDuration tk r2 <= getDisplayDuration tk r1)%Z.
Proof.
  intros Hb H1 H12. unfold getDisplayDuration. apply Math_round_le.
  assert (H2 : (0 < r2)%Q) by (eapply Qlt_le_trans; eassumption).
  rewrite !(Qmult_comm (inject_Z (baseDurationMs tk))).
  apply Qmult_le_compat_r; [|rewrite Zle_Qle in Hb; exact Hb].
  unfold BASE_WPM. apply Qle_shift_div_l; [exact H1|].
  apply Qle_trans with (200 / r2 * r2)%Q.
  - apply Qmult_le_l; [|exact H12].
    apply Qlt_shift_div_l; [exact H2 | reflexivity].
  - rewrite Qmult_comm, Qmult_div_r; [apply Qle_refl|].
    intros E. rewrite E in H2. discriminate.
Qed.

(** A longer base duration never shortens it either. *)
Lemma display_duration_monotone_base (t1 t2 : Token) (r : Q) :
  (baseDurationMs t1 <= baseDurationMs t2)%Z -> (0 < r)%Q ->
  (getDisplayDuration t1 r <= getDisplayDuration t2 r)%Z.
Proof.
  intros Hb Hr. unfold getDisplayDuration. apply Math_round_le.
  apply Qmult_le_compat_r; [rewrite <- Zle_Qle; exact Hb|].
  apply Qlt_le_weak, Qlt_shift_div_l; [exact Hr | reflexivity].
Qed.

Lemma display_duration_of_base (tk : Token) (r : Q) :
  getDisplayDuration tk r = getDisplayDuration (with_base (baseDurationMs tk)) r.
Proof. reflexivity. Qed.

(** X6. Whatever the text and the mode, at every rate that the controller
    admits a token of [tokenize] is shown for at least 30 ms and at most 17036
    ms; at the reference rate of 200 it is shown for its base duration. *)
Theorem display_duration_range (text : JsString.t) (m : mode) (t : Token)
    (wpm : Q) :
  In t (tokenize text m) -> (50 <= wpm)%Q -> (wpm <= 2000)%Q ->
  (30 <= getDisplayDuration t wpm <= 17036)%Z
  /\ getDisplayDuration t 200 = baseDurationMs t.
Proof.
  intros Hin Hlo Hhi.
  destruct (TokenizerFacts.tokenize_token _ _ _ Hin) as (_ & _ & s & e & Hb).
  pose proof (base_duration_range (createFlags (word t) s e) m) as Hr.
  rewrite <- Hb in Hr.
  assert (Hpos : (0 < wpm)%Q) by (eapply Qlt_le_trans; [|exact Hlo]; reflexivity).
  split; [split|].
  - apply Z.le_trans with (getDisplayDuration (with_base 300) 2000);
      [vm_compute; discriminate|].
    apply Z.le_trans with (getDisplayDuration (with_base 300) wpm).
    + apply display_duration_antitone; [vm_compute; discriminate | | ]; assumption.
    + rewrite (display_duration_of_base t).
      apply display_duration_monotone_base; [apply Hr | exact Hpos].
  - apply Z.le_trans with (getDisplayDuration (with_base 4259) 50);
      [|vm_compute; discriminate].
    apply Z.le_trans with (getDisplayDuration (with_base 4259) wpm).
    + rewrite (display_duration_of_base t).
      apply display_duration_monotone_base; [apply Hr | exact Hpos].
    + apply display_duration_antitone;
        [vm_compute; discriminate | reflexivity | exact Hlo].
  - unfold getDisplayDuration.
    assert (E : (inject_Z (baseDurationMs t) * (BASE_WPM / 200)
                 == inject_Z (baseDurationMs t))%Q).
    { unfold BASE_WPM. setoid_replace (200 / 200)%Q with 1%Q by reflexivity.
      apply Qmult_1_r. }
    unfold Math_round. rewrite E. apply Math_round_integer.
Qed.

Lemma display_duration_range_witness :
  let t := Scenario.plain_token in
  (30 <= getDisplayDuration t 300 <= 17036)%Z
  /\ getDisplayDuration t 200 = baseDurationMs t.
Proof.
  apply (display_duration_range (lit "a b c") reading Scenario.plain_token 300).
  - vm_compute. right. left. reflexivity.
  - vm_compute. discriminate.
  - vm_compute. discriminate.
Defined.

(** *** The two modes *)

Lemma tokenize_words_modes (ws : list JsString.t) :
  forall n i,
    Forall2 (fun a b => word a = word b /\ orpIndex a = orpIndex b
                        /\ flags a = flags b
                        /\ (baseDurationMs a <= baseDurationMs b)%Z)
      (tokenize_words skim n i ws) (tokenize_words reading n i ws).
Proof.
  induction ws as [|w ws IH]; intros n i; [constructor|].
  cbn [tokenize_words]. constructor; [|apply IH].
  cbn [word orpIndex flags baseDurationMs].
  do 3 (split; [reflexivity|]).
  exact (proj1 (proj2 (base_duration_table _))).
Qed.

(** X7. The mode changes durations only: skimming and reading give the same
    words, pivots and flags, token by token, and no token lasts longer when
    skimming than when reading. *)
Theorem skim_is_never_slower (text : JsString.t) :
  Forall2 (fun a b => word a = word b /\ orpIndex a = orpIndex b
                      /\ flags a = flags b
                      /\ (baseDurationMs a <= baseDurationMs b)%Z)
    (tokenize text skim) (tokenize text reading).
Proof.
  unfold tokenize. induction (splitIntoParagraphs text) as [|p ps IH];
    [constructor|].
  cbn [flat_map]. apply Forall2_app; [|exact IH].
  apply tokenize_words_modes.
Qed.

(** *** Reading time *)

Lemma totalMs_from (toks : list Token) (wpm : Q) :
  forall start,
    fold_left (fun sum tk => (sum + getDisplayDuration tk wpm)%Z) toks start
    = (start + totalMs toks wpm)%Z.
Proof.
  unfold totalMs. induction toks as [|tk toks IH]; intros start;
    cbn [fold_left]; [lia|].
  rewrite IH, (IH (0 + _)%Z). lia.
Qed.

Lemma totalMs_cons (tk : Token) (toks : list Token) (wpm : Q) :
  totalMs (tk :: toks) wpm = (getDisplayDuration tk wpm + totalMs toks wpm)%Z.
Proof. unfold totalMs at 1. cbn [fold_left]. apply totalMs_from. Qed.

Lemma totalMs_antitone (toks : list Token) (r1 r2 : Q) :
  Forall (fun tk => (0 <= baseDurationMs tk)%Z) toks ->
  (0 < r1)%Q -> (r1 <= r2)%Q ->
  (totalMs toks r2 <= totalMs toks r1)%Z.
Proof.
  intros Hall H1 H12. induction Hall as [|tk toks Hb _ IH]; [reflexivity|].
  rewrite !totalMs_cons.
  pose proof (display_duration_antitone tk r1 r2 Hb H1 H12). lia.
Qed.

(** X8. The estimate of the reading time does not grow with the rate: for
    tokens whose base durations are not negative and rates [0 < r1 <= r2],
    reading at [r2] is estimated to take no longer than at [r1]. *)
Theorem estimateReadingTime_antitone (toks : list Token) (r1 r2 : Q) :
  Forall (fun tk => (0 <= baseDurationMs tk)%Z) toks ->
  (0 < r1)%Q -> (r1 <= r2)%Q ->
  (estimateReadingTime toks r2 <= estimateReadingTime toks r1)%Z.
Proof.
  intros Hall H1 H12. unfold estimateReadingTime. apply Math_round_le.
  apply Qmult_le_compat_r; [|discriminate].
  rewrite <- Zle_Qle. apply totalMs_antitone; assumption.
Qed.

Lemma estimateReadingTime_antitone_witness :
  (estimateReadingTime Scenario.four_tokens 400
   <= estimateReadingTime Scenario.four_tokens 200)%Z.
Proof.
  apply estimateReadingTime_antitone.
  - vm_compute. repeat constructor; discriminate.
  - reflexivity.
  - vm_compute. discriminate.
Defined.

(** X9. The estimate is the sum of the on-screen times, in seconds: two token
    lists read one after the other take the time of both, up to the rounding
    of each estimate to a second. *)
Theorem estimateReadingTime_app (a b : list Token) (wpm : Q) :
  totalMs (a ++ b) wpm = (totalMs a wpm + totalMs b wpm)%Z
  /\ (estimateReadingTime a wpm + estimateReadingTime b wpm - 1
      <= estimateReadingTime (a ++ b) wpm
      <= estimateReadingTime a wpm + estimateReadingTime b wpm + 1)%Z.
Proof.
  assert (Hsum : totalMs (a ++ b) wpm = (totalMs a wpm + totalMs b wpm)%Z).
  { unfold totalMs at 1. rewrite fold_left_app. fold (totalMs a wpm).
    apply totalMs_from. }
  split; [exact Hsum|].
  unfold estimateReadingTime. rewrite Hsum.
  generalize (totalMs a wpm) (totalMs b wpm). intros x y.
  assert (R : forall z, Math_round (inject_Z z / 1000) = ((2 * z + 1000) / 2000)%Z).
  { intros z. unfold Math_round, Qfloor, Qplus, Qdiv, Qmult, Qinv, inject_Z.
    cbn [Qnum Qden]. rewrite !Z.mul_1_r.
    change (Z.pos (1 * 1000 * 2)) with 2000%Z.
    change (Z.pos (1 * 1000)) with 1000%Z.
    f_equal. lia. }
  rewrite !R.
  pose proof (Z.div_mod (2 * x + 1000) 2000 ltac:(lia)).
  pose proof (Z.div_mod (2 * y + 1000) 2000 ltac:(lia)).
  pose proof (Z.div_mod (2 * (x + y) + 1000) 2000 ltac:(lia)).
  pose proof (Z.mod_pos_bound (2 * x + 1000) 2000 ltac:(lia)).
  pose proof (Z.mod_pos_bound (2 * y + 1000) 2000 ltac:(lia)).
  pose proof (Z.mod_pos_bound (2 * (x + y) + 1000) 2000 ltac:(lia)).
  lia.
Qed.

End DurationFacts.

(** ** The display of a word *)

Module DisplayFacts.
Import JsString Tokenizer App.

Lemma substring_to (s : JsString.t) (n : nat) :
  substring s 0 (Some n) = firstn n s.
Proof.
  unfold substring. cbv zeta. rewrite Nat.min_0_l, Nat.max_0_l, Nat.sub_0_r.
  cbn [skipn]. destruct (Nat.le_ge_cases n (length s)) as [H|H].
  - rewrite Nat.min_l by exact H. reflexivity.
  - rewrite Nat.min_r by exact H. rewrite firstn_all, firstn_all2; auto.
Qed.

Lemma substring_from (s : JsString.t) (n : nat) :
  substring s n None = skipn n s.
Proof.
  unfold substring. cbv zeta.
  destruct (Nat.le_ge_cases n (length s)) as [H|H].
  - rewrite (Nat.min_l n) by exact H.
    rewrite Nat.min_l, Nat.max_r by exact H.
    rewrite <- (length_skipn n s). apply firstn_all.
  - rewrite (Nat.min_r n) by exact H. rewrite Nat.min_id, Nat.max_id, Nat.sub_diag.
    rewrite (skipn_all2 s H). reflexivity.
Qed.

Lemma split_at (s : JsString.t) (n : nat) :
  firstn n s ++ charAt s n ++ skipn (n + 1) s = s.
Proof.
  unfold charAt. revert n. induction s as [|c s IH]; intros n.
  - destruct n; reflexivity.
  - destruct n as [|n]; [reflexivity|].
    cbn [firstn nth_error Nat.add skipn app]. f_equal. apply IH.
Qed.

(** X10. The three parts that [renderWord] shows are the word, cut at the
    pivot: put together again they give the word, whatever the [orpIndex] of
    the token; the pivot part is empty exactly when the [orpIndex] is not a
    position of the word. *)
Theorem renderWord_shows_the_word (tk : Token) :
  let d := renderWord (Some tk) in
  wordBefore d ++ wordPivot d ++ wordAfter d = word tk
  /\ (wordPivot d = [] <-> (length (word tk) <= orpIndex tk)%nat).
Proof.
  cbn [renderWord wordBefore wordPivot wordAfter].
  rewrite substring_to, substring_from. split; [apply split_at|].
  unfold charAt. destruct (nth_error (word tk) (orpIndex tk)) eqn:E.
  - split; [discriminate|]. intros H. apply nth_error_None in H. congruence.
  - split; [|reflexivity]. intros _. apply nth_error_None. exact E.
Qed.

(** X11. For a token of [tokenize]: when its word has a letter or a digit, the
    pivot shown is one code unit, a letter or a digit; when it has none, no
    pivot is shown and the whole word stands before the pivot. *)
Theorem renderWord_pivot (text : JsString.t) (m : mode) (t : Token) :
  In t (tokenize text m) ->
  let d := renderWord (Some t) in
  if existsb is_alnum (word t)
  then exists c, wordPivot d = [c] /\ is_alnum c = true
  else wordBefore d = word t /\ wordPivot d = [] /\ wordAfter d = [].
Proof.
  intros Hin. destruct (TokenizerFacts.tokenize_token _ _ _ Hin) as (_ & Horp & _).
  cbn [renderWord wordBefore wordPivot wordAfter].
  rewrite substring_to, substring_from, Horp.
  destruct (existsb is_alnum (word t)) eqn:E.
  - destruct (SegmentationFacts.orp_position (word t) E) as (c & Hc & Ha).
    exists c. unfold charAt. rewrite Hc. auto.
  - rewrite (TokenizerFacts.findORPInWord_outside _ E).
    unfold charAt.
    rewrite firstn_all, (proj2 (nth_error_None _ _) (Nat.le_refl _)).
    rewrite skipn_all2 by lia. auto.
Qed.

Lemma renderWord_pivot_witness :
  let t := Scenario.plain_token in
  let d := renderWord (Some t) in
  if existsb is_alnum (word t)
  then exists c, wordPivot d = [c] /\ is_alnum c = true
  else wordBefore d = word t /\ wordPivot d = [] /\ wordAfter d = [].
Proof.
  apply (renderWord_pivot (lit "a b c") reading Scenario.plain_token).
  vm_compute. right. left. reflexivity.
Defined.

End DisplayFacts.


(** ** What a session keeps *)

Module SessionFacts.
Import Tokenizer Playback Session Run.

Local Open Scope Z_scope.

Lemma calm_kept (c : controller) : calm c -> kept c.
Proof.
  intros [Hr Hp Hs Hl]. split; [exact Hr | | | exact Hl].
  - split; [auto|]. rewrite Hp. discriminate.
  - intros H. rewrite Hp in H. discriminate.
Qed.

Lemma kept_steady (c : controller) : kept c -> steady c.
Proof. intros [Hr [Hf _] Hs Hl]. split; auto. Qed.

(** *** Rates *)

Lemma clamp_rate (w : Q) :
  (50 <= Q_max 50 (Q_min 2000 w))%Q /\ (Q_max 50 (Q_min 2000 w) <= 2000)%Q.
Proof.
  unfold Q_max, Q_min.
  destruct (Qle_bool 2000 w) eqn:E1.
  - cbn. split; discriminate.
  - destruct (Qle_bool 50 w) eqn:E2.
    + split; [apply Qle_bool_iff; exact E2|].
      apply Qlt_le_weak, Qnot_le_lt. intros H.
      apply Qle_bool_iff in H. congruence.
    + split; [apply Qle_refl | discriminate].
Qed.

Lemma clamp_rate_inside (w : Q) :
  (50 <= w)%Q -> (w <= 2000)%Q -> (Q_max 50 (Q_min 2000 w) == w)%Q.
Proof.
  intros Hlo Hhi. unfold Q_max, Q_min.
  destruct (Qle_bool 2000 w) eqn:E1.
  - apply Qle_bool_iff in E1. cbn. apply Qle_antisym; assumption.
  - apply Qle_bool_iff in Hlo. rewrite Hlo. reflexivity.
Qed.

(** *** Progress *)

Lemma progress_percent (L i : Z) :
  in_bounds L i ->
  let p := if 0 <? L then (inject_Z i / inject_Z L * 100)%Q else 0%Q in
  (0 <= p)%Q /\ (p < 100)%Q.
Proof.
  intros [Hlo Hhi]. cbv zeta. destruct (Z.ltb_spec 0 L) as [HL|HL].
  - assert (HLq : (0 < inject_Z L)%Q)
      by (unfold Qlt, inject_Z; cbn [Qnum Qden]; lia).
    split.
    + apply Qmult_le_0_compat; [|discriminate].
      apply Qle_shift_div_l; [exact HLq|].
      unfold Qle, Qmult, inject_Z. cbn [Qnum Qden]. lia.
    + setoid_replace 100%Q with (1 * 100)%Q at 2 by reflexivity.
      apply Qmult_lt_compat_r; [reflexivity|].
      apply Qlt_shift_div_r; [exact HLq|].
      unfold Qlt, Qmult, inject_Z. cbn [Qnum Qden]. lia.
  - split; [apply Qle_refl | reflexivity].
Qed.

(** *** The fields that the notifications leave alone *)

Lemma emitTick_fields (c : controller) :
  tokens (emitTick c) = tokens c /\ currentIndex (emitTick c) = currentIndex c
  /\ isPlaying (emitTick c) = isPlaying c /\ wpm (emitTick c) = wpm c
  /\ rafId (emitTick c) = rafId c /\ lastTimestamp (emitTick c) = lastTimestamp c
  /\ currentTokenDuration (emitTick c) = currentTokenDuration c
  /\ pending (emitTick c) = pending c
  /\ accumulatedTime (emitTick c) = accumulatedTime c
  /\ mode (emitTick c) = mode c
  /\ exists n, log (emitTick c) = log c ++ n /\ Forall progress_below_100 n.
Proof.
  unfold emitTick. destruct (at_index _ _);
    do 10 (split; [reflexivity|]).
  - eexists. split; [reflexivity|]. constructor; [exact I | constructor].
  - exists []. split; [symmetry; apply app_nil_r | constructor].
Qed.

Lemma len_emitTick (c : controller) : len (emitTick c) = len c.
Proof. unfold len. destruct (emitTick_fields c) as (-> & _). reflexivity. Qed.

(** *** A paused controller in the middle of an operation *)

Lemma calm_pause (c : controller) :
  rate_in_range c -> Forall progress_below_100 (log c) -> calm (pause c).
Proof.
  intros Hr Hl.
  assert (Hlog : Forall progress_below_100 (log (pause c))).
  { unfold pause. cbv zeta. cbn [rafId set_isPlaying]. destruct (rafId c);
      cbn [emitStateChange notify log set_lastTimestamp set_rafId
           cancelAnimationFrame set_isPlaying];
      (apply Forall_app; split; [exact Hl|]);
      (constructor; [exact I | constructor]). }
  split; [| | |exact Hlog].
  - unfold pause. cbv zeta. cbn [rafId set_isPlaying]. destruct (rafId c); exact Hr.
  - apply PlaybackFacts.isPlaying_pause.
  - unfold pause. cbv zeta. cbn [rafId set_isPlaying].
    destruct (rafId c) eqn:E; split; try reflexivity; exact E.
Qed.

Lemma calm_of_kept (c : controller) : kept c -> isPlaying c = false -> calm c.
Proof.
  intros [Hr [Hf _] _ Hl] Hp. split; auto.
Qed.

Lemma calm_set_tokens v c : calm c -> calm (set_tokens v c).
Proof. intros [? ? ? ?]; split; auto. Qed.
Lemma calm_set_currentIndex v c : calm c -> calm (set_currentIndex v c).
Proof. intros [? ? ? ?]; split; auto. Qed.
Lemma calm_set_accumulatedTime v c : calm c -> calm (set_accumulatedTime v c).
Proof. intros [? ? ? ?]; split; auto. Qed.
Lemma calm_set_mode v c : calm c -> calm (set_mode v c).
Proof. intros [? ? ? ?]; split; auto. Qed.
Lemma calm_set_wasPlayingBeforeHidden v c :
  calm c -> calm (set_wasPlayingBeforeHidden v c).
Proof. intros [? ? ? ?]; split; auto. Qed.

Lemma calm_notify (n : notification) (c : controller) :
  calm c -> progress_below_100 (len c, n) -> calm (notify n c).
Proof.
  intros [? ? ? Hl] Hn; split; auto. cbn [log notify].
  apply Forall_app. split; [exact Hl | constructor; [exact Hn | constructor]].
Qed.

Lemma calm_emitStateChange c : calm c -> calm (emitStateChange c).
Proof. intros H. apply calm_notify; [exact H | exact I]. Qed.

Lemma calm_emitTick c : calm c -> calm (emitTick c).
Proof.
  intros H. unfold emitTick. destruct (at_index _ _); [|exact H].
  apply calm_notify; [exact H | exact I].
Qed.

Lemma calm_emitProgress c :
  calm c -> in_bounds (len c) (currentIndex c) -> calm (emitProgress c).
Proof.
  intros H Hb. apply calm_notify; [exact H|].
  exact (progress_percent _ _ Hb).
Qed.

Lemma calm_set_wpm (w : Q) (c : controller) :
  calm c -> calm (set_wpm (Q_max 50 (Q_min 2000 w)) c).
Proof. intros [? ? ? ?]; split; auto. exact (clamp_rate w). Qed.

Create HintDb calm.
#[local] Hint Resolve calm_pause calm_set_tokens calm_set_currentIndex
  calm_set_accumulatedTime calm_set_mode calm_set_wasPlayingBeforeHidden
  calm_emitStateChange calm_emitTick calm_set_wpm calm_kept : calm.

(** The controller that [step] and [seek] go on with. *)
Lemma calm_paused_first (c : controller) :
  kept c -> calm (if isPlaying c then pause c else c).
Proof.
  intros H. destruct (isPlaying c) eqn:Hp.
  - apply calm_pause; apply H.
  - apply calm_of_kept; assumption.
Qed.

Lemma calm_moved (i : Z) (c : controller) :
  calm c ->
  calm (emitProgress
          (emitTick (set_accumulatedTime 0 (set_currentIndex (clamp_index c i) c)))).
Proof.
  intros H. apply calm_emitProgress; [auto with calm|].
  rewrite len_emitTick. destruct (emitTick_fields
    (set_accumulatedTime 0 (set_currentIndex (clamp_index c i) c)))
    as (_ & -> & _).
  exact (PlaybackFacts.clamp_in_bounds c i).
Qed.

Lemma kept_stop (c : controller) : kept c -> calm (stop c).
Proof.
  intros H. unfold stop. cbv zeta.
  assert (calm (pause c)) by (apply calm_pause; apply H). auto with calm.
Qed.

Lemma kept_load toks startIndex (c : controller) :
  kept c -> calm (load toks startIndex c).
Proof.
  intros H. unfold load. cbv zeta. pose proof (kept_stop c H).
  auto 10 with calm.
Qed.

Lemma kept_step (delta : Z) (c : controller) : kept c -> calm (step delta c).
Proof.
  intros H. unfold step. cbv zeta. apply calm_emitStateChange.
  apply calm_moved, calm_paused_first, H.
Qed.

(** *** A controller that may be playing *)

Lemma kept_set_mode v c : kept c -> kept (set_mode v c).
Proof. intros [? ? ? ?]; split; auto. Qed.
Lemma kept_set_accumulatedTime v c : kept c -> kept (set_accumulatedTime v c).
Proof. intros [? ? ? ?]; split; auto. Qed.
Lemma kept_set_wasPlayingBeforeHidden v c :
  kept c -> kept (set_wasPlayingBeforeHidden v c).
Proof. intros [? ? ? ?]; split; auto. Qed.

Lemma kept_forget_timestamp c : kept c -> kept (set_lastTimestamp None c).
Proof.
  intros [Hr [Hf1 Hf2] Hs Hl]; split; auto. split; [|exact Hf2].
  intros Hp. split; [apply (Hf1 Hp) | reflexivity].
Qed.

Lemma kept_emitStateChange c : kept c -> kept (emitStateChange c).
Proof.
  intros [Hr Hf Hs Hl]; split; auto. cbn [log emitStateChange notify].
  apply Forall_app. split; [exact Hl | constructor; [exact I | constructor]].
Qed.

Lemma kept_setWPM (w : Q) (c : controller) : kept c -> kept (setWPM w c).
Proof.
  intros [Hr Hf Hs Hl]. unfold setWPM. cbv zeta. apply kept_emitStateChange.
  cbn [isPlaying tokens currentIndex wpm set_wpm].
  destruct (isPlaying c) eqn:Hp.
  - destruct (Hs Hp) as (tk & Htk & _). rewrite Htk.
    split; [exact (clamp_rate w) | exact Hf | | exact Hl].
    intros _. exists tk. split; [exact Htk | reflexivity].
  - split; [exact (clamp_rate w) | exact Hf | | exact Hl].
    intros H. cbn in H. congruence.
Qed.

Lemma kept_play (c c' : controller) :
  kept c -> sound c -> play c = Some c' -> kept c'.
Proof.
  intros Hk Hs Hplay. destruct (Z.eq_dec (len c) 0) as [E|E].
  - unfold play in Hplay. rewrite E in Hplay. cbn in Hplay.
    injection Hplay as <-. exact Hk.
  - pose proof (PlaybackFacts.len_nonneg c) as Hlen.
    destruct (sound_position _ Hs) as [Hlo _].
    destruct (PlaybackFacts.play_nonempty c)
      as (tk & c0 & Htk & Hplay0 & Ht & Hi & _ & _ & Hd & Hp & Hraf & Hpend
          & Hw & _ & Hlog); [lia | exact Hlo |].
    assert (c0 = c') by congruence. subst c0.
    destruct Hk as [Hr _ _ Hl]. split.
    + unfold rate_in_range. rewrite Hw. exact Hr.
    + split; [intros H; congruence|]. intros _.
      exists (nextHandle c). split; [exact Hraf|].
      rewrite Hpend. apply in_or_app. right. now left.
    + intros _. exists tk. rewrite Ht, Hi, Hw. auto.
    + rewrite Hlog. apply Forall_app. split; [exact Hl|].
      constructor; [exact I | constructor].
Qed.

(** *** Frames *)

Ltac tick_open := PlaybackFacts.tick_cases.

Lemma tick_wait_frame (ts : Q) (c : controller) :
  isPlaying c = true ->
  Qle_bool (inject_Z (currentTokenDuration c)) (due ts c) = false ->
  exists c',
    tick ts c = Some c'
    /\ wpm c' = wpm c
    /\ rafId c' = Some (nextHandle c)
    /\ pending c' = pending c ++ [nextHandle c]
    /\ log c' = log c.
Proof.
  intros Hp Hd. tick_open. rewrite Hp. tick_open. rewrite Hd.
  eexists. repeat split; reflexivity.
Qed.

Lemma tick_advance_frame (ts : Q) (c : controller) (tk : Token) :
  isPlaying c = true ->
  Qle_bool (inject_Z (currentTokenDuration c)) (due ts c) = true ->
  at_index (tokens c) (currentIndex c + 1) = Some tk ->
  exists c',
    tick ts c = Some c'
    /\ wpm c' = wpm c
    /\ rafId c' = Some (nextHandle c)
    /\ pending c' = pending c ++ [nextHandle c]
    /\ log c' = log c ++
         [(len c, OnTick tk (currentIndex c + 1));
          (len c, OnProgress
                    (if 0 <? len c
                     then (inject_Z (currentIndex c + 1) / inject_Z (len c) * 100)%Q
                     else 0%Q))].
Proof.
  intros Hp Hd Htk. pose proof (PlaybackFacts.at_index_Some _ _ _ Htk) as Hin.
  tick_open. rewrite Hp. tick_open. rewrite Hd.
  destruct (Z.leb_spec (len c) (currentIndex c + 1)) as [Hge|_]; [lia|].
  rewrite ?Htk. unfold emitTick, emitProgress. tick_open. rewrite ?Htk.
  tick_open. eexists. do 4 (split; [reflexivity|]).
  rewrite PlaybackFacts.log_requestAnimationFrame, !PlaybackFacts.log_notify,
    <- app_assoc.
  reflexivity.
Qed.

Lemma tick_complete_frame (ts : Q) (c : controller) :
  isPlaying c = true ->
  Qle_bool (inject_Z (currentTokenDuration c)) (due ts c) = true ->
  len c <= currentIndex c + 1 ->
  exists c', tick ts c = Some c' /\ wpm c' = wpm c.
Proof.
  intros Hp Hd Hge. tick_open. rewrite Hp. tick_open. rewrite Hd.
  destruct (Z.leb_spec (len c) (currentIndex c + 1)) as [_|Hlt]; [|lia].
  unfold pause, emitStateChange. tick_open.
  destruct (rafId c); eexists; split; reflexivity.
Qed.

(** A frame on a controller that is steady leaves a controller that keeps
    everything, its frame included. *)
Lemma kept_tick (ts : Q) (c c' : controller) :
  steady c -> sound c -> tick ts c = Some c' -> kept c'.
Proof.
  intros [Hr Hset Hsync Hl] Hs Ht. destruct (isPlaying c) eqn:Hp.
  2:{ rewrite (PlaybackFacts.tick_paused ts c Hp) in Ht. injection Ht as <-.
      split; auto. split; [exact Hset | intros H; congruence]. }
  pose proof (sound_playing _ Hs Hp) as Hlen.
  pose proof (sound_position _ Hs) as Hpos. unfold in_bounds in Hpos.
  destruct (Qle_bool (inject_Z (currentTokenDuration c)) (due ts c)) eqn:Hd.
  - destruct (Z_lt_le_dec (currentIndex c + 1) (len c)) as [Hlt|Hge].
    + destruct (PlaybackFacts.at_index_inside (tokens c) (currentIndex c + 1))
        as [tk Htk]; [unfold len in Hlt; lia|].
      destruct (PlaybackFacts.tick_advance ts c tk Hp Hd Htk)
        as (c1 & Ht1 & Htok & Hi & Hpl & _ & _ & Hdur & _).
      destruct (tick_advance_frame ts c tk Hp Hd Htk)
        as (c2 & Ht2 & Hw & Hraf & Hpend & Hlog).
      assert (c1 = c') by congruence. assert (c2 = c') by congruence.
      subst c1 c2. split.
      * unfold rate_in_range. rewrite Hw. exact Hr.
      * split; [intros H; congruence|]. intros _.
        exists (nextHandle c). split; [exact Hraf|].
        rewrite Hpend. apply in_or_app. right. now left.
      * intros _. exists tk. rewrite Htok, Hi, Hw. auto.
      * rewrite Hlog. apply Forall_app. split; [exact Hl|].
        constructor; [exact I|]. constructor; [|constructor].
        apply (progress_percent (len c) (currentIndex c + 1)).
        unfold in_bounds. lia.
    + destruct (PlaybackFacts.tick_complete ts c Hp Hd Hge)
        as (c1 & Ht1 & _ & _ & Hpl & _ & Hts & Hraf & Hlog).
      destruct (tick_complete_frame ts c Hp Hd Hge) as (c2 & Ht2 & Hw).
      assert (c1 = c') by congruence. assert (c2 = c') by congruence.
      subst c1 c2. apply calm_kept. split; auto.
      * unfold rate_in_range. rewrite Hw. exact Hr.
      * rewrite Hlog. apply Forall_app. split; [exact Hl|].
        constructor; [exact I|]. constructor; [exact I | constructor].
  - destruct (PlaybackFacts.tick_wait ts c Hp Hd)
      as (c1 & Ht1 & Htok & Hi & Hpl & _ & _ & Hdur & _).
    destruct (tick_wait_frame ts c Hp Hd) as (c2 & Ht2 & Hw & Hraf & Hpend & Hlog).
    assert (c1 = c') by congruence. assert (c2 = c') by congruence.
    subst c1 c2. split.
    + unfold rate_in_range. rewrite Hw. exact Hr.
    + split; [intros H; congruence|]. intros _.
      exists (nextHandle c). split; [exact Hraf|].
      rewrite Hpend. apply in_or_app. right. now left.
    + intros _. destruct (Hsync Hp) as (tk & Htk & Hd').
      exists tk. rewrite Htok, Hi, Hw, Hdur. auto.
    + rewrite Hlog. exact Hl.
Qed.

Lemma steady_cancelAnimationFrame (h : positive) (c : controller) :
  kept c -> steady (cancelAnimationFrame h c).
Proof. intros H. apply kept_steady in H. destruct H as [? ? ? ?]. split; auto. Qed.

(** *** Every call *)

Lemma kept_seek (index : Z) (c c' : controller) :
  kept c -> sound c -> seek index c = Some c' -> kept c'.
Proof.
  intros Hk Hs H. unfold seek in H. cbv zeta in H.
  pose proof (calm_moved index _ (calm_paused_first c Hk)) as Hcalm.
  assert (Hsound : sound (emitProgress (emitTick (set_accumulatedTime 0
            (set_currentIndex
               (clamp_index (if isPlaying c then pause c else c) index)
               (if isPlaying c then pause c else c)))))).
  { apply PlaybackFacts.sound_emitProgress, PlaybackFacts.sound_emitTick.
    apply PlaybackFacts.sound_set_accumulatedTime, PlaybackFacts.sound_move.
    - apply PlaybackFacts.clamp_in_bounds.
    - destruct (isPlaying c); [apply PlaybackFacts.sound_pause|]; exact Hs. }
  destruct (isPlaying c).
  - exact (kept_play _ _ (calm_kept _ Hcalm) Hsound H).
  - injection H as <-. auto with calm.
Qed.

Lemma kept_run (k : call) (c c' : controller) :
  kept c -> sound c -> run k c = Some c' -> kept c'.
Proof.
  intros Hk Hs H. destruct k; cbn [run] in H;
    try (injection H as <-).
  - apply calm_kept, kept_load, Hk.
  - apply kept_setWPM, Hk.
  - apply kept_setWPM, Hk.
  - unfold setMode. apply kept_emitStateChange, kept_set_mode, Hk.
  - exact (kept_play _ _ Hk Hs H).
  - apply calm_kept, calm_pause; apply Hk.
  - apply calm_kept, kept_stop, Hk.
  - unfold toggle in H. destruct (isPlaying c).
    + injection H as <-. apply calm_kept, calm_pause; apply Hk.
    + exact (kept_play _ _ Hk Hs H).
  - apply calm_kept, kept_step, Hk.
  - exact (kept_seek _ _ _ Hk Hs H).
  - exact (kept_seek _ _ _ Hk Hs H).
  - apply calm_kept, kept_step, Hk.
  - unfold frame in H. destruct (existsb _ _).
    + apply (kept_tick timestamp (cancelAnimationFrame h c));
        [apply steady_cancelAnimationFrame, Hk | | exact H].
      apply PlaybackFacts.sound_cancelAnimationFrame, Hs.
    + injection H as <-. exact Hk.
  - unfold handleVisibilityChange. destruct hidden.
    + cbv zeta. cbn [isPlaying set_wasPlayingBeforeHidden].
      destruct (isPlaying c) eqn:Hp.
      * apply calm_kept, calm_pause; apply Hk.
      * apply kept_set_wasPlayingBeforeHidden, Hk.
    + cbv zeta. apply kept_set_accumulatedTime, kept_forget_timestamp, Hk.
  - unfold handleFreeze. cbv zeta. apply calm_kept, calm_pause; apply Hk.
  - unfold handleResume. cbv zeta.
    apply kept_set_accumulatedTime, kept_forget_timestamp, Hk.
Qed.

Lemma kept_constructor : kept constructor.
Proof.
  apply calm_kept. split; cbn; auto.
  - split; discriminate.
Qed.

Lemma kept_reachable (c : controller) : reachable c -> kept c.
Proof.
  induction 1 as [|c k c' Hr IH Hrun]; [exact kept_constructor|].
  exact (kept_run k c c' IH (PlaybackFacts.sound_reachable c Hr) Hrun).
Qed.

End SessionFacts.

(** ** More about the playback controller *)

Module ControllerFacts.
Import Tokenizer Playback Session Run Progress App.

Local Open Scope Z_scope.

(** *** Helpers *)

Lemma clamp_rate_low (w : Q) : (w <= 50)%Q -> (Q_max 50 (Q_min 2000 w) == 50)%Q.
Proof.
  intros Hle. unfold Q_max, Q_min.
  destruct (Qle_bool 2000 w) eqn:E1.
  - apply Qle_bool_iff in E1. exfalso.
    assert (H : (2000 <= 50)%Q) by (eapply Qle_trans; eassumption).
    revert H. unfold Qle. cbn. lia.
  - destruct (Qle_bool 50 w) eqn:E2; [|reflexivity].
    apply Qle_bool_iff in E2. apply Qle_antisym; assumption.
Qed.

Lemma clamp_rate_high (w : Q) : (2000 <= w)%Q -> (Q_max 50 (Q_min 2000 w) == 2000)%Q.
Proof.
  intros Hge. unfold Q_max, Q_min. apply Qle_bool_iff in Hge. rewrite Hge.
  reflexivity.
Qed.

Lemma wpm_setWPM (w : Q) (c : controller) :
  wpm (setWPM w c) = Q_max 50 (Q_min 2000 w).
Proof.
  unfold setWPM. cbn -[at_index getDisplayDuration Q_max Q_min].
  destruct (isPlaying c); [|reflexivity].
  destruct (at_index (tokens c) (currentIndex c)); reflexivity.
Qed.

Lemma setWPM_fields (w : Q) (c : controller) :
  tokens (setWPM w c) = tokens c /\ currentIndex (setWPM w c) = currentIndex c
  /\ isPlaying (setWPM w c) = isPlaying c
  /\ accumulatedTime (setWPM w c) = accumulatedTime c.
Proof.
  unfold setWPM. cbn -[at_index getDisplayDuration Q_max Q_min].
  destruct (isPlaying c) eqn:E; [|repeat split; try reflexivity; exact E].
  destruct (at_index (tokens c) (currentIndex c));
    repeat split; try reflexivity; exact E.
Qed.

Lemma pause_fields (c : controller) :
  tokens (pause c) = tokens c /\ currentIndex (pause c) = currentIndex c
  /\ isPlaying (pause c) = false /\ wpm (pause c) = wpm c
  /\ mode (pause c) = mode c /\ accumulatedTime (pause c) = accumulatedTime c.
Proof.
  unfold pause. cbv zeta. cbn [rafId set_isPlaying].
  destruct (rafId c); repeat split; reflexivity.
Qed.

Lemma load_fields toks startIndex (c : controller) :
  tokens (load toks startIndex c) = toks
  /\ currentIndex (load toks startIndex c)
     = Z.max 0 (Z.min startIndex (Z.of_nat (length toks) - 1))
  /\ isPlaying (load toks startIndex c) = false
  /\ wpm (load toks startIndex c) = wpm c
  /\ mode (load toks startIndex c) = mode c
  /\ accumulatedTime (load toks startIndex c) = 0%Q.
Proof.
  destruct (pause_fields c) as (_ & _ & Hp & Hw & Hm & _).
  unfold load, stop. cbv zeta.
  match goal with
  | |- context [emitTick ?x] =>
      destruct (SessionFacts.emitTick_fields x)
        as (E1 & E2 & E3 & E4 & _ & _ & _ & _ & E9 & E10 & _)
  end.
  cbn [emitStateChange notify tokens currentIndex isPlaying wpm mode
       accumulatedTime].
  rewrite E1, E2, E3, E4, E9, E10.
  cbn [emitStateChange notify tokens currentIndex isPlaying wpm mode
       accumulatedTime set_currentIndex set_tokens set_accumulatedTime].
  unfold clamp_index, len.
  cbn [emitStateChange notify tokens currentIndex isPlaying wpm mode
       accumulatedTime set_currentIndex set_tokens set_accumulatedTime].
  repeat split; try reflexivity; assumption.
Qed.

Lemma step_fields (delta : Z) (c : controller) :
  tokens (step delta c) = tokens c
  /\ currentIndex (step delta c)
     = Z.max 0 (Z.min (currentIndex c + delta) (len c - 1))
  /\ isPlaying (step delta c) = false
  /\ accumulatedTime (step delta c) = 0%Q.
Proof.
  destruct (pause_fields c) as (Ht & Hi & Hp & _).
  unfold step. cbv zeta.
  match goal with
  | |- context [emitTick ?x] =>
      destruct (SessionFacts.emitTick_fields x)
        as (E1 & E2 & E3 & _ & _ & _ & _ & _ & E9 & _)
  end.
  unfold emitProgress. cbv zeta.
  cbn [emitStateChange notify tokens currentIndex isPlaying accumulatedTime].
  rewrite E1, E2, E3, E9.
  unfold clamp_index, len.
  cbn [tokens currentIndex isPlaying accumulatedTime set_currentIndex
       set_accumulatedTime].
  destruct (isPlaying c) eqn:E; rewrite ?Ht, ?Hi;
    repeat split; try reflexivity; assumption.
Qed.


(** *** What a session keeps *)

(** X12. In every controller that a session can reach, the rate lies between
    50 and 2000 words a minute. *)
Theorem rate_always_in_range (c : controller) :
  reachable c -> (50 <= wpm c)%Q /\ (wpm c <= 2000)%Q.
Proof. intros H. exact (kept_rate _ (SessionFacts.kept_reachable c H)). Qed.

Lemma rate_always_in_range_witness :
  (50 <= wpm Scenario.loaded_four)%Q /\ (wpm Scenario.loaded_four <= 2000)%Q.
Proof.
  apply (rate_always_in_range Scenario.loaded_four).
  apply (reach_call constructor (Load Scenario.four_tokens 9));
    [apply reach_new | reflexivity].
Defined.

(** X13. In every controller that a session can reach: while it plays, the
    frame whose handle it holds is pending, so that playback goes on; while it
    is paused, it holds no frame handle and no timestamp of a past frame. *)
Theorem frame_always_kept (c : controller) :
  reachable c ->
  (isPlaying c = true -> exists h, rafId c = Some h /\ In h (pending c))
  /\ (isPlaying c = false -> rafId c = None /\ lastTimestamp c = None).
Proof.
  intros H. destruct (kept_frame _ (SessionFacts.kept_reachable c H)) as [H1 H2].
  split; assumption.
Qed.

Lemma frame_always_kept_witness :
  let c := Scenario.loaded_four in
  (isPlaying c = true -> exists h, rafId c = Some h /\ In h (pending c))
  /\ (isPlaying c = false -> rafId c = None /\ lastTimestamp c = None).
Proof.
  apply (frame_always_kept Scenario.loaded_four).
  apply (reach_call constructor (Load Scenario.four_tokens 9));
    [apply reach_new | reflexivity].
Defined.

(** X14. In every controller that a session can reach and that plays, the
    duration being waited for is the duration of the current token at the
    current rate, also after the rate has been changed in the middle of a
    token. *)
Theorem duration_always_current (c : controller) :
  reachable c -> isPlaying c = true ->
  exists tk, at_index (tokens c) (currentIndex c) = Some tk
             /\ currentTokenDuration c = getDisplayDuration tk (wpm c).
Proof. intros H. exact (kept_sync _ (SessionFacts.kept_reachable c H)). Qed.

Lemma duration_always_current_witness :
  let c := Scenario.or_new (play (load Scenario.four_tokens 0 constructor)) in
  exists tk, at_index (tokens c) (currentIndex c) = Some tk
             /\ currentTokenDuration c = getDisplayDuration tk (wpm c).
Proof.
  apply (duration_always_current
           (Scenario.or_new (play (load Scenario.four_tokens 0 constructor)))).
  - apply (reach_call (load Scenario.four_tokens 0 constructor) Play);
      [|vm_compute; reflexivity].
    apply (reach_call constructor (Load Scenario.four_tokens 0));
      [apply reach_new | reflexivity].
  - vm_compute; reflexivity.
Defined.

(** X15. No progress notification of a session reports 100 percent or more, or
    less than 0: the percentage is that of the tokens before the current one. *)
Theorem progress_never_full (c : controller) (L : Z) (p : Q) :
  reachable c -> In (L, OnProgress p) (log c) -> (0 <= p)%Q /\ (p < 100)%Q.
Proof.
  intros H Hin.
  pose proof (kept_progress _ (SessionFacts.kept_reachable c H)) as Hl.
  rewrite Forall_forall in Hl. exact (Hl _ Hin).
Qed.

Lemma progress_never_full_witness :
  (0 <= 100 # 4)%Q /\ (100 # 4 < 100)%Q.
Proof.
  apply (progress_never_full
           (step 1 (load Scenario.four_tokens 0 constructor)) 4 (100 # 4)).
  - apply (reach_call (load Scenario.four_tokens 0 constructor) (Step 1));
      [|reflexivity].
    apply (reach_call constructor (Load Scenario.four_tokens 0));
      [apply reach_new | reflexivity].
  - vm_compute. do 5 right. left. reflexivity.
Defined.

(** X16. [getProgress] of a controller that a session can reach: with tokens,
    the one-based position is between 1 and the number of tokens and the
    percentage is at least 0 and below 100; without tokens it reports position
    1 of 0, at 0 percent. *)
Theorem getProgress_in_range (c : controller) :
  reachable c ->
  total (getProgress c) = len c
  /\ (tokens c <> [] ->
      1 <= current (getProgress c) <= total (getProgress c)
      /\ (0 <= percent (getProgress c))%Q /\ (percent (getProgress c) < 100)%Q)
  /\ (tokens c = [] ->
      current (getProgress c) = 1 /\ total (getProgress c) = 0
      /\ percent (getProgress c) = 0%Q).
Proof.
  intros H. pose proof (PlaybackFacts.sound_reachable c H) as Hs.
  pose proof (sound_position _ Hs) as Hpos.
  split; [reflexivity|]. split.
  - intros Hne. apply PlaybackFacts.len_nonempty in Hne.
    pose proof (SessionFacts.progress_percent _ _ Hpos) as Hp.
    unfold in_bounds in Hpos. cbn [getProgress current total percent].
    split; [lia | exact Hp].
  - intros He. unfold in_bounds, len in *. cbn [getProgress current total percent].
    unfold len. rewrite He in *. cbn in *. repeat split; try reflexivity. lia.
Qed.

Lemma getProgress_in_range_witness :
  let c := Scenario.loaded_four in
  total (getProgress c) = len c
  /\ (tokens c <> [] ->
      1 <= current (getProgress c) <= total (getProgress c)
      /\ (0 <= percent (getProgress c))%Q /\ (percent (getProgress c) < 100)%Q)
  /\ (tokens c = [] ->
      current (getProgress c) = 1 /\ total (getProgress c) = 0
      /\ percent (getProgress c) = 0%Q).
Proof.
  apply (getProgress_in_range Scenario.loaded_four).
  apply (reach_call constructor (Load Scenario.four_tokens 9));
    [apply reach_new | reflexivity].
Defined.

(** X17. [setWPM] clamps the rate to the range from 50 to 2000, keeps the
    tokens, the position, the playing state and the time accumulated on the
    current token, and, while playing, recomputes the duration of the current
    token at the new rate; it notifies the state once. *)
Theorem setWPM_clamps_and_rescales (w : Q) (c : controller) :
  let c' := setWPM w c in
  ((50 <= wpm c')%Q /\ (wpm c' <= 2000)%Q)
  /\ ((50 <= w)%Q /\ (w <= 2000)%Q -> (wpm c' == w)%Q)
  /\ ((w <= 50)%Q -> (wpm c' == 50)%Q)
  /\ ((2000 <= w)%Q -> (wpm c' == 2000)%Q)
  /\ tokens c' = tokens c /\ currentIndex c' = currentIndex c
  /\ isPlaying c' = isPlaying c
  /\ accumulatedTime c' = accumulatedTime c
  /\ (isPlaying c = false -> currentTokenDuration c' = currentTokenDuration c)
  /\ (forall tk, isPlaying c = true ->
        at_index (tokens c) (currentIndex c) = Some tk ->
        currentTokenDuration c' = getDisplayDuration tk (wpm c'))
  /\ log c' = log c ++ [(len c, OnStateChange (getState c'))].
Proof.
  cbv zeta. rewrite wpm_setWPM.
  split; [apply SessionFacts.clamp_rate|].
  split; [intros [Hlo Hhi]; apply SessionFacts.clamp_rate_inside; assumption|].
  split; [apply clamp_rate_low|]. split; [apply clamp_rate_high|].
  unfold setWPM. cbn -[at_index getDisplayDuration Q_max Q_min].
  destruct (isPlaying c) eqn:Hp.
  - destruct (at_index (tokens c) (currentIndex c)) as [tk|] eqn:Htk;
      cbn -[at_index getDisplayDuration Q_max Q_min];
      repeat split; try reflexivity; try discriminate; try exact Hp.
    intros tk' _ E. injection E as <-. reflexivity.
  - cbn -[at_index getDisplayDuration Q_max Q_min].
    repeat split; try reflexivity; try discriminate; try exact Hp.
Qed.

(** *** Operations *)

(** X18. In a session, for a rate and a delta that are whole numbers
    (which the numbers of the source add and subtract exactly): raising
    the rate by the delta and lowering it by the same delta gives the rate
    back, as long as the raised rate is within the range from 50 to 2000
    (outside, the first change is cut off at the bound). *)
Theorem adjustWPM_undo (n delta : Z) (c : controller) :
  reachable c ->
  (wpm c == inject_Z n)%Q -> 50 <= n + delta <= 2000 ->
  (wpm (adjustWPM (inject_Z (- delta)) (adjustWPM (inject_Z delta) c))
   == wpm c)%Q.
Proof.
  intros H Hn Hb.
  destruct (kept_rate _ (SessionFacts.kept_reachable c H)) as [Rlo Rhi].
  unfold adjustWPM. rewrite !wpm_setWPM.
  assert (E0 : (wpm c + inject_Z delta == inject_Z (n + delta))%Q)
    by (rewrite Hn, inject_Z_plus; reflexivity).
  assert (Hlo : (50 <= wpm c + inject_Z delta)%Q)
    by (rewrite E0; unfold Qle, inject_Z; cbn [Qnum Qden]; lia).
  assert (Hhi : (wpm c + inject_Z delta <= 2000)%Q)
    by (rewrite E0; unfold Qle, inject_Z; cbn [Qnum Qden]; lia).
  pose proof (SessionFacts.clamp_rate_inside _ Hlo Hhi) as E1.
  assert (E2 : (Q_max 50 (Q_min 2000 (wpm c + inject_Z delta))
                + inject_Z (- delta) == wpm c)%Q).
  { rewrite E1, inject_Z_opp. ring. }
  rewrite SessionFacts.clamp_rate_inside; [exact E2| |];
    rewrite E2; assumption.
Qed.

Lemma adjustWPM_undo_witness :
  (wpm (adjustWPM (inject_Z (- (50)))
          (adjustWPM (inject_Z 50) Scenario.loaded_four))
   == wpm Scenario.loaded_four)%Q.
Proof.
  apply (adjustWPM_undo 300 50 Scenario.loaded_four).
  - apply (reach_call constructor (Load Scenario.four_tokens 9));
      [apply reach_new | reflexivity].
  - vm_compute. reflexivity.
  - lia.
Defined.

(** X19. Dragging to change the rate always leaves a rate that is a multiple
    of 10 between 50 and 2000, wherever the drag started and ended. *)
Theorem updateWpmDrag_tens (startY startWPM y : Q) (c : controller) :
  exists k : Z,
    5 <= k <= 200
    /\ (wpm (updateWpmDrag startY startWPM y c) == inject_Z (10 * k))%Q.
Proof.
  unfold updateWpmDrag. cbv zeta. rewrite wpm_setWPM.
  set (n := Math_round ((startWPM + inject_Z (Math_round ((startY - y) / 2))) / 10)).
  destruct (Z_le_gt_dec n 5) as [H5|H5].
  - exists 5. split; [lia|]. apply clamp_rate_low.
    unfold Qle, inject_Z. cbn [Qnum Qden]. lia.
  - destruct (Z_le_gt_dec 200 n) as [H2|H2].
    + exists 200. split; [lia|]. apply clamp_rate_high.
      unfold Qle, inject_Z. cbn [Qnum Qden]. lia.
    + exists n. split; [lia|].
      rewrite SessionFacts.clamp_rate_inside.
      * unfold Qeq, inject_Z. cbn [Qnum Qden]. lia.
      * unfold Qle, inject_Z. cbn [Qnum Qden]. lia.
      * unfold Qle, inject_Z. cbn [Qnum Qden]. lia.
Qed.

(** X20. Opening the reader with the progress that [saveProgress] stores for a
    controller of a session, on the same tokens, restores the position, the
    rate and the mode, and leaves the controller paused with no time
    accumulated. *)
Theorem openReader_restores (c c0 : controller) (settings : Settings) :
  reachable c ->
  let c' := openReader (tokens c) (Some (saveProgress c)) true settings c0 in
  tokens c' = tokens c
  /\ currentIndex c' = currentIndex c
  /\ (wpm c' == wpm c)%Q
  /\ mode c' = mode c
  /\ isPlaying c' = false
  /\ accumulatedTime c' = 0%Q.
Proof.
  intros H. cbv zeta.
  pose proof (PlaybackFacts.sound_reachable c H) as Hs.
  destruct (kept_rate _ (SessionFacts.kept_reachable c H)) as [Rlo Rhi].
  pose proof (sound_position _ Hs) as Hpos. unfold in_bounds, len in Hpos.
  unfold openReader, saveProgress. cbv zeta.
  cbn [getState st_currentIndex st_wpm st_mode progress_currentIndex
       progress_wpm progress_mode].
  assert (Hz : Qeq_bool (wpm c) 0 = false).
  { destruct (Qeq_bool (wpm c) 0) eqn:E; [|reflexivity].
    apply Qeq_bool_iff in E. rewrite E in Rlo. exfalso. revert Rlo.
    unfold Qle. cbn. lia. }
  rewrite Hz.
  destruct (load_fields (tokens c) (currentIndex c) c0)
    as (Lt & Li & Lp & _ & _ & La).
  set (c1 := load (tokens c) (currentIndex c) c0) in *.
  destruct (setWPM_fields (wpm c) c1) as (St & Si & Sp & Sa).
  unfold setMode.
  cbn [emitStateChange notify set_mode tokens currentIndex wpm mode isPlaying
       accumulatedTime].
  rewrite St, Si, Sp, Sa, wpm_setWPM, Lt, Li, Lp, La.
  repeat split; try reflexivity.
  - lia.
  - apply SessionFacts.clamp_rate_inside; assumption.
Qed.


Lemma openReader_restores_witness :
  let c := Scenario.loaded_four in
  let c' := openReader (tokens c) (Some (saveProgress c)) true
              {| defaultWPM := 300; settings_mode := skim |} constructor in
  tokens c' = tokens c
  /\ currentIndex c' = currentIndex c
  /\ (wpm c' == wpm c)%Q
  /\ mode c' = mode c
  /\ isPlaying c' = false
  /\ accumulatedTime c' = 0%Q.
Proof.
  apply (openReader_restores Scenario.loaded_four constructor
           {| defaultWPM := 300; settings_mode := skim |}).
  apply (reach_call constructor (Load Scenario.four_tokens 9));
    [apply reach_new | reflexivity].
Defined.

(** X21. In a session [toggle] always completes; with tokens loaded it turns a
    paused controller into a playing one and a playing one into a paused one,
    and with no tokens it changes nothing. *)
Theorem toggle_flips (c : controller) :
  reachable c ->
  exists c',
    toggle c = Some c'
    /\ (tokens c <> [] -> isPlaying c' = negb (isPlaying c))
    /\ (tokens c = [] -> c' = c).
Proof.
  intros H. pose proof (PlaybackFacts.sound_reachable c H) as Hs.
  pose proof (sound_position _ Hs) as [Hlo _].
  unfold toggle. destruct (isPlaying c) eqn:Hp.
  - exists (pause c). split; [reflexivity|]. split.
    + intros _. apply PlaybackFacts.isPlaying_pause.
    + intros He. pose proof (sound_playing _ Hs Hp) as Hl.
      unfold len in Hl. rewrite He in Hl. cbn in Hl. lia.
  - destruct (tokens c) as [|t ts] eqn:Ht.
    + exists c. split; [apply PlaybackFacts.play_empty; exact Ht|].
      split; [intros E; contradiction | reflexivity].
    + destruct (PlaybackFacts.play_nonempty c)
        as (tk & c' & _ & Hplay & _ & _ & _ & _ & _ & Hp' & _);
        [unfold len; rewrite Ht; cbn [length]; lia | exact Hlo |].
      exists c'. split; [exact Hplay|].
      split; [intros _; exact Hp' | discriminate].
Qed.

Lemma toggle_flips_witness :
  let c := Scenario.loaded_four in
  exists c',
    toggle c = Some c'
    /\ (tokens c <> [] -> isPlaying c' = negb (isPlaying c))
    /\ (tokens c = [] -> c' = c).
Proof.
  apply (toggle_flips Scenario.loaded_four).
  apply (reach_call constructor (Load Scenario.four_tokens 9));
    [apply reach_new | reflexivity].
Defined.

(** X22. In a session, two steps in the same direction end where one step of
    the sum ends (so do two rewinds); a step always leaves the controller
    paused with no time accumulated. *)
Theorem step_composes (a b : Z) (c : controller) :
  reachable c ->
  (0 <= a /\ 0 <= b) \/ (a <= 0 /\ b <= 0) ->
  currentIndex (step b (step a c)) = currentIndex (step (a + b) c)
  /\ currentIndex (rewind b (rewind a c)) = currentIndex (rewind (a + b) c)
  /\ isPlaying (step b (step a c)) = false
  /\ accumulatedTime (step b (step a c)) = 0%Q.
Proof.
  intros H Hab. pose proof (PlaybackFacts.sound_reachable c H) as Hs.
  pose proof (sound_position _ Hs) as Hpos. unfold in_bounds in Hpos.
  clear H Hs.
  assert (Hsum : forall x y,
             (0 <= x /\ 0 <= y) \/ (x <= 0 /\ y <= 0) ->
             currentIndex (step y (step x c)) = currentIndex (step (x + y) c)).
  { intros x y Hxy.
    destruct (step_fields x c) as (Ht & Hi & _).
    destruct (step_fields y (step x c)) as (_ & Hi2 & _).
    destruct (step_fields (x + y) c) as (_ & Hi3 & _).
    rewrite Hi2, Hi3, Hi. unfold len. rewrite Ht. fold (len c).
    clear Ht Hi Hi2 Hi3. lia. }
  destruct (step_fields b (step a c)) as (_ & _ & Hp2 & Ha2).
  split; [apply Hsum; exact Hab|]. split; [|split; assumption].
  unfold rewind. replace (- (a + b)) with (- a + - b) by lia.
  apply Hsum. clear Hsum Hp2 Ha2. lia.
Qed.

Lemma step_composes_witness :
  let c := Scenario.loaded_four in
  currentIndex (step (-1) (step (-1) c)) = currentIndex (step (-1 + -1) c)
  /\ currentIndex (rewind (-1) (rewind (-1) c))
     = currentIndex (rewind (-1 + -1) c)
  /\ isPlaying (step (-1) (step (-1) c)) = false
  /\ accumulatedTime (step (-1) (step (-1) c)) = 0%Q.
Proof.
  apply (step_composes (-1) (-1) Scenario.loaded_four).
  - apply (reach_call constructor (Load Scenario.four_tokens 9));
      [apply reach_new | reflexivity].
  - right. lia.
Defined.


Lemma seek_paused (index : Z) (c : controller) :
  isPlaying c = false ->
  exists c',
    seek index c = Some c'
    /\ tokens c' = tokens c
    /\ currentIndex c' = Z.max 0 (Z.min index (len c - 1))
    /\ isPlaying c' = false
    /\ accumulatedTime c' = 0%Q.
Proof.
  intros Hp. unfold seek. cbv zeta. rewrite Hp. eexists. split; [reflexivity|].
  match goal with
  | |- context [emitTick ?x] =>
      destruct (SessionFacts.emitTick_fields x)
        as (E1 & E2 & E3 & _ & _ & _ & _ & _ & E9 & _)
  end.
  unfold emitProgress. cbv zeta.
  cbn [emitStateChange notify tokens currentIndex isPlaying accumulatedTime].
  rewrite E1, E2, E3, E9.
  repeat split; try reflexivity. exact Hp.
Qed.

Lemma scaled_le (p q : Q) (L : Z) :
  0 <= L -> (p <= q)%Q ->
  (p / 100 * inject_Z L <= q / 100 * inject_Z L)%Q.
Proof.
  intros HL Hpq. apply Qmult_le_compat_r.
  - apply Qmult_le_compat_r; [exact Hpq | discriminate].
  - unfold Qle, inject_Z. cbn [Qnum Qden]. lia.
Qed.

(** X23. [seekPercent] on a paused controller: the position it leaves is
    within the bounds, is the first index for a percentage of 0 or less and
    the last index for 100 or more, and does not decrease when the percentage
    grows. *)
Theorem seekPercent_paused (p q : Q) (c : controller) :
  isPlaying c = false ->
  exists cp cq,
    seekPercent p c = Some cp /\ seekPercent q c = Some cq
    /\ 0 <= currentIndex cp <= Z.max 0 (len c - 1)
    /\ ((p <= 0)%Q -> currentIndex cp = 0)
    /\ ((100 <= p)%Q -> currentIndex cp = Z.max 0 (len c - 1))
    /\ ((p <= q)%Q -> currentIndex cp <= currentIndex cq)
    /\ isPlaying cp = false.
Proof.
  intros Hp. unfold seekPercent. cbv zeta.
  destruct (seek_paused (Qfloor (p / 100 * inject_Z (len c))) c Hp)
    as (cp & Ep & _ & Ip & Pp & _).
  destruct (seek_paused (Qfloor (q / 100 * inject_Z (len c))) c Hp)
    as (cq & Eq & _ & Iq & _).
  exists cp, cq. pose proof (PlaybackFacts.len_nonneg c) as HL.
  split; [exact Ep|]. split; [exact Eq|]. rewrite Ip, Iq.
  split; [lia|]. split; [|split; [|split; [|exact Pp]]].
  - intros H0. pose proof (scaled_le p 0 (len c) HL H0) as Hle.
    apply Qfloor_resp_le in Hle.
    assert (E : Qfloor (0 / 100 * inject_Z (len c)) = 0).
    { transitivity (Qfloor 0); [apply Qfloor_comp; field | reflexivity]. }
    lia.
  - intros H1. pose proof (scaled_le 100 p (len c) HL H1) as Hle.
    apply Qfloor_resp_le in Hle.
    assert (E : Qfloor (100 / 100 * inject_Z (len c)) = len c).
    { transitivity (Qfloor (inject_Z (len c)));
        [apply Qfloor_comp; field | apply Qfloor_Z]. }
    lia.
  - intros Hpq. pose proof (scaled_le p q (len c) HL Hpq) as Hle.
    apply Qfloor_resp_le in Hle. lia.
Qed.

Lemma seekPercent_paused_witness :
  let c := Scenario.paused_hundred in
  exists cp cq,
    seekPercent 25 c = Some cp /\ seekPercent 150 c = Some cq
    /\ 0 <= currentIndex cp <= Z.max 0 (len c - 1)
    /\ ((25 <= 0)%Q -> currentIndex cp = 0)
    /\ ((100 <= 25)%Q -> currentIndex cp = Z.max 0 (len c - 1))
    /\ ((25 <= 150)%Q -> currentIndex cp <= currentIndex cq)
    /\ isPlaying cp = false.
Proof.
  apply (seekPercent_paused 25 150 Scenario.paused_hundred).
  reflexivity.
Defined.

(** X24. In a session, the frame on which the last token's time is up ends
    playback: the controller is paused on the last index and the state change
    and the completion are notified, in this order; playing again then starts
    from the first token. *)
Theorem playback_ends_then_replays (ts : Q) (c : controller) :
  reachable c ->
  isPlaying c = true ->
  currentIndex c = len c - 1 ->
  Qle_bool (inject_Z (currentTokenDuration c)) (due ts c) = true ->
  exists c1 c2,
    tick ts c = Some c1
    /\ isPlaying c1 = false /\ currentIndex c1 = len c - 1
    /\ rafId c1 = None
    /\ log c1 = log c ++ [(len c, OnStateChange
                              {| st_isPlaying := false;
                                 st_currentIndex := len c - 1;
                                 st_wpm := wpm c; st_mode := mode c |});
                           (len c, OnComplete)]
    /\ play c1 = Some c2
    /\ isPlaying c2 = true /\ currentIndex c2 = 0
    /\ accumulatedTime c2 = 0%Q.
Proof.
  intros H Hp Hi Hd. pose proof (PlaybackFacts.sound_reachable c H) as Hs.
  pose proof (sound_playing _ Hs Hp) as HL.
  destruct (PlaybackFacts.tick_complete ts c Hp Hd ltac:(lia))
    as (c1 & Ht & Htok & Hi1 & Hp1 & _ & _ & Hr1 & Hl1).
  assert (HL1 : len c1 = len c) by (unfold len; rewrite Htok; reflexivity).
  destruct (PlaybackFacts.play_nonempty c1)
    as (tk & c2 & _ & Hplay & _ & Hi2 & Ha2 & _ & _ & Hp2 & _); [lia | lia |].
  exists c1, c2. repeat split; try assumption.
  rewrite Hi2. unfold start_of. rewrite HL1, Hi1, Z.leb_refl. reflexivity.
Qed.

Lemma playback_ends_then_replays_witness :
  let c := Scenario.or_new
             (frame 1 0
                (Scenario.or_new
                   (play (load (tokenize (JsString.lit "a") reading) 0
                            constructor)))) in
  exists c1 c2,
    tick 10000 c = Some c1
    /\ isPlaying c1 = false /\ currentIndex c1 = len c - 1
    /\ rafId c1 = None
    /\ log c1 = log c ++ [(len c, OnStateChange
                              {| st_isPlaying := false;
                                 st_currentIndex := len c - 1;
                                 st_wpm := wpm c; st_mode := mode c |});
                           (len c, OnComplete)]
    /\ play c1 = Some c2
    /\ isPlaying c2 = true /\ currentIndex c2 = 0
    /\ accumulatedTime c2 = 0%Q.
Proof.
  apply (playback_ends_then_replays 10000
           (Scenario.or_new
              (frame 1 0
                 (Scenario.or_new
                    (play (load (tokenize (JsString.lit "a") reading) 0
                             constructor)))))).
  - apply (reach_call
             (Scenario.or_new
                (play (load (tokenize (JsString.lit "a") reading) 0 constructor)))
             (Frame 1 0)); [|vm_compute; reflexivity].
    apply (reach_call (load (tokenize (JsString.lit "a") reading) 0 constructor)
             Play); [|vm_compute; reflexivity].
    apply (reach_call constructor (Load (tokenize (JsString.lit "a") reading) 0));
      [apply reach_new | reflexivity].
  - vm_compute; reflexivity.
  - vm_compute; reflexivity.
  - vm_compute; reflexivity.
Defined.

(** *** The playback clock *)

Lemma firstn_next {A} (l : list A) (n : nat) (x : A) :
  nth_error l n = Some x -> firstn (S n) l = firstn n l ++ [x].
Proof.
  revert n. induction l as [|a l IH]; intros [|n] H; try discriminate.
  - injection H as ->. reflexivity.
  - cbn [nth_error] in H. change (a :: firstn (S n) l = a :: (firstn n l ++ [x])).
    f_equal. apply IH. exact H.
Qed.

Lemma shown_next (toks : list Token) (w : Q) (i : Z) (tk : Token) :
  at_index toks i = Some tk ->
  fold_left (fun sum t => sum + getDisplayDuration t w)
    (firstn (Z.to_nat (i + 1)) toks) 0
  = fold_left (fun sum t => sum + getDisplayDuration t w)
      (firstn (Z.to_nat i) toks) 0
    + getDisplayDuration tk w.
Proof.
  unfold at_index. destruct (Z.ltb_spec i 0) as [|Hi]; [discriminate|].
  intros H. replace (Z.to_nat (i + 1)) with (S (Z.to_nat i)) by lia.
  rewrite (firstn_next _ _ _ H), fold_left_app. reflexivity.
Qed.

Lemma ticks_paused (timestamps : list Q) (c : controller) :
  isPlaying c = false -> ticks timestamps c = Some c.
Proof.
  intros Hp. induction timestamps as [|ts rest IH]; [reflexivity|].
  cbn [ticks]. rewrite (PlaybackFacts.tick_paused ts c Hp). exact IH.
Qed.

Lemma last_cons (ts : Q) (rest : list Q) (d : Q) :
  last (ts :: rest) d = last rest ts.
Proof.
  revert ts d. induction rest as [|a rest IH]; intros ts d; [reflexivity|].
  change (last (ts :: a :: rest) d) with (last (a :: rest) d).
  rewrite !IH. reflexivity.
Qed.

(** One frame that leaves the controller playing adds the frame's time to
    the clock. *)
Lemma clock_tick (ts : Q) (c c' : controller) :
  isPlaying c = true -> in_sync c ->
  tick ts c = Some c' -> isPlaying c' = true ->
  (clock c' == clock c + deltaTime ts c)%Q
  /\ in_sync c' /\ lastTimestamp c' = Some ts.
Proof.
  intros Hp Hsync Ht Hp'. destruct (Hsync Hp) as (tk0 & Htk0 & Hdur0).
  assert (Hidx : 0 <= currentIndex c).
  { unfold at_index in Htk0.
    destruct (Z.ltb_spec (currentIndex c) 0); [discriminate | assumption]. }
  destruct (Qle_bool (inject_Z (currentTokenDuration c)) (due ts c)) eqn:Hd.
  - destruct (Z_lt_le_dec (currentIndex c + 1) (len c)) as [Hlt|Hge].
    + destruct (PlaybackFacts.at_index_inside (tokens c) (currentIndex c + 1))
        as [tk Htk]; [unfold len in Hlt; lia|].
      destruct (PlaybackFacts.tick_advance ts c tk Hp Hd Htk)
        as (c1 & Ht1 & Htok & Hi & _ & Hacc & Hlast & Hdur & _).
      destruct (SessionFacts.tick_advance_frame ts c tk Hp Hd Htk)
        as (c2 & Ht2 & Hw & _).
      assert (c1 = c') by congruence. assert (c2 = c') by congruence.
      subst c1 c2. split; [|split; [|exact Hlast]].
      * unfold clock, shown. rewrite Htok, Hi, Hw, Hacc.
        rewrite (shown_next _ _ _ _ Htk0), <- Hdur0, inject_Z_plus.
        unfold due. ring.
      * intros _. exists tk. rewrite Htok, Hi, Hw. split; assumption.
    + destruct (PlaybackFacts.tick_complete ts c Hp Hd Hge)
        as (c1 & Ht1 & _ & _ & Hp1 & _).
      congruence.
  - destruct (PlaybackFacts.tick_wait ts c Hp Hd)
      as (c1 & Ht1 & Htok & Hi & _ & Hacc & Hlast & Hdur & _).
    destruct (SessionFacts.tick_wait_frame ts c Hp Hd) as (c2 & Ht2 & Hw & _).
    assert (c1 = c') by congruence. assert (c2 = c') by congruence.
    subst c1 c2. split; [|split; [|exact Hlast]].
    + unfold clock, shown. rewrite Htok, Hi, Hw, Hacc. unfold due. ring.
    + intros _. exists tk0. rewrite Htok, Hi, Hw, Hdur. split; assumption.
Qed.

Lemma clock_ticks (timestamps : list Q) (c c' : controller) :
  isPlaying c = true -> in_sync c ->
  ticks timestamps c = Some c' -> isPlaying c' = true ->
  (clock c' ==
   clock c + (last timestamps (baseline timestamps c) - baseline timestamps c))%Q.
Proof.
  revert c. induction timestamps as [|ts rest IH]; intros c Hp Hsync Ht Hp'.
  - cbn [ticks] in Ht. injection Ht as <-. cbn [last]. ring.
  - cbn [ticks] in Ht. destruct (tick ts c) as [c1|] eqn:E; [|discriminate].
    destruct (isPlaying c1) eqn:Hp1.
    2:{ rewrite (ticks_paused rest c1 Hp1) in Ht. congruence. }
    destruct (clock_tick ts c c1 Hp Hsync E Hp1) as (Hc & Hs1 & Hl1).
    rewrite (IH c1 Hp1 Hs1 Ht Hp'), Hc, last_cons.
    unfold baseline, deltaTime. rewrite Hl1. cbn [hd].
    destruct (lastTimestamp c); ring.
Qed.

(** *** Frames in whole milliseconds *)

Lemma whole_Z (q : Q) :
  whole q = true ->
  (q == inject_Z (Qfloor q))%Q /\ 0 <= Qfloor q < 2 ^ 52.
Proof.
  unfold whole. intros H.
  apply andb_prop in H as [H H3]. apply andb_prop in H as [H1 H2].
  apply Qeq_bool_iff in H1. apply Z.leb_le in H2. apply Z.ltb_lt in H3.
  split; [exact H1 | lia].
Qed.

Lemma inject_Z_le (a b : Z) : (inject_Z a <= inject_Z b)%Q <-> a <= b.
Proof. unfold Qle, inject_Z. cbn [Qnum Qden]. lia. Qed.

Lemma inject_Z_eq (a b : Z) : (inject_Z a == inject_Z b)%Q <-> a = b.
Proof. unfold Qeq, inject_Z. cbn [Qnum Qden]. lia. Qed.

Lemma inject_Z_sub (a b : Z) :
  (inject_Z (a - b) == inject_Z a - inject_Z b)%Q.
Proof. unfold Z.sub. rewrite inject_Z_plus, inject_Z_opp. reflexivity. Qed.

Lemma display_duration_nonneg (tk : Token) (r : Q) :
  0 <= baseDurationMs tk -> (0 < r)%Q -> 0 <= getDisplayDuration tk r.
Proof.
  intros Hb Hr. unfold getDisplayDuration.
  rewrite <- (DurationFacts.Math_round_integer 0) at 1.
  apply DurationFacts.Math_round_le. change (inject_Z 0) with 0%Q.
  apply Qmult_le_0_compat; [apply (proj2 (inject_Z_le 0 _)); exact Hb|].
  apply Qlt_le_weak, Qlt_shift_div_l; [exact Hr | reflexivity].
Qed.

(** One frame in whole milliseconds leaves a whole number of milliseconds
    accumulated, no more than were accumulated plus the time of the
    frame. *)
Lemma whole_tick (ts : Q) (c c' : controller) (a t l : Z) :
  isPlaying c = true -> in_sync c -> (0 < wpm c)%Q ->
  Forall (fun tk => 0 <= baseDurationMs tk) (tokens c) ->
  tick ts c = Some c' -> isPlaying c' = true ->
  (accumulatedTime c == inject_Z a)%Q -> (ts == inject_Z t)%Q ->
  match lastTimestamp c with
  | Some x => (x == inject_Z l)%Q
  | None => l = t
  end ->
  0 <= a -> l <= t ->
  exists a', (accumulatedTime c' == inject_Z a')%Q /\ 0 <= a' <= a + (t - l).
Proof.
  intros Hp Hsync Hr Hnn Ht Hp' Ha Hts Hl Ha0 Hlt.
  destruct (Hsync Hp) as (tk0 & Htk0 & Hdur0).
  assert (Hd0 : 0 <= currentTokenDuration c).
  { rewrite Hdur0. apply display_duration_nonneg; [|exact Hr].
    rewrite Forall_forall in Hnn. apply Hnn. unfold at_index in Htk0.
    destruct (currentIndex c <? 0); [discriminate|].
    eapply nth_error_In. exact Htk0. }
  assert (Hdue : (due ts c == inject_Z (a + (t - l)))%Q).
  { assert (E : (inject_Z (a + (t - l))
                 == inject_Z a + (inject_Z t - inject_Z l))%Q).
    { rewrite inject_Z_plus, inject_Z_sub. reflexivity. }
    rewrite E. unfold due, deltaTime. rewrite Ha.
    destruct (lastTimestamp c) as [x|].
    - rewrite Hl, Hts. reflexivity.
    - subst l. rewrite Hts. reflexivity. }
  destruct (Qle_bool (inject_Z (currentTokenDuration c)) (due ts c)) eqn:Hd.
  - destruct (Z_lt_le_dec (currentIndex c + 1) (len c)) as [Hlen|Hge].
    + destruct (PlaybackFacts.at_index_inside (tokens c) (currentIndex c + 1))
        as [tk Htk].
      { unfold at_index in Htk0.
        destruct (Z.ltb_spec (currentIndex c) 0); [discriminate|].
        unfold len in Hlen. lia. }
      destruct (PlaybackFacts.tick_advance ts c tk Hp Hd Htk)
        as (c1 & Ht1 & _ & _ & _ & Hacc & _).
      assert (c1 = c') by congruence. subst c1.
      exists (a + (t - l) - currentTokenDuration c). split.
      * rewrite Hacc, Hdue, inject_Z_sub. reflexivity.
      * apply Qle_bool_iff in Hd. rewrite Hdue in Hd.
        apply (proj1 (inject_Z_le _ _)) in Hd. lia.
    + destruct (PlaybackFacts.tick_complete ts c Hp Hd Hge)
        as (c1 & Ht1 & _ & _ & Hp1 & _).
      congruence.
  - destruct (PlaybackFacts.tick_wait ts c Hp Hd)
      as (c1 & Ht1 & _ & _ & _ & Hacc & _).
    assert (c1 = c') by congruence. subst c1.
    exists (a + (t - l)). split; [rewrite Hacc; exact Hdue | lia].
Qed.


Lemma tick_keeps (ts : Q) (c c' : controller) :
  isPlaying c = true -> in_sync c -> tick ts c = Some c' ->
  tokens c' = tokens c /\ wpm c' = wpm c.
Proof.
  intros Hp Hsync Ht. destruct (Hsync Hp) as (tk0 & Htk0 & _).
  destruct (Qle_bool (inject_Z (currentTokenDuration c)) (due ts c)) eqn:Hd.
  - destruct (Z_lt_le_dec (currentIndex c + 1) (len c)) as [Hlen|Hge].
    + destruct (PlaybackFacts.at_index_inside (tokens c) (currentIndex c + 1))
        as [tk Htk].
      { unfold at_index in Htk0.
        destruct (Z.ltb_spec (currentIndex c) 0); [discriminate|].
        unfold len in Hlen. lia. }
      destruct (PlaybackFacts.tick_advance ts c tk Hp Hd Htk)
        as (c1 & Ht1 & Htok & _).
      destruct (SessionFacts.tick_advance_frame ts c tk Hp Hd Htk)
        as (c2 & Ht2 & Hw & _).
      assert (c1 = c') by congruence. assert (c2 = c') by congruence.
      subst c1 c2. split; assumption.
    + destruct (PlaybackFacts.tick_complete ts c Hp Hd Hge)
        as (c1 & Ht1 & Htok & _).
      destruct (SessionFacts.tick_complete_frame ts c Hp Hd Hge)
        as (c2 & Ht2 & Hw).
      assert (c1 = c') by congruence. assert (c2 = c') by congruence.
      subst c1 c2. split; assumption.
  - destruct (PlaybackFacts.tick_wait ts c Hp Hd) as (c1 & Ht1 & Htok & _).
    destruct (SessionFacts.tick_wait_frame ts c Hp Hd) as (c2 & Ht2 & Hw & _).
    assert (c1 = c') by congruence. assert (c2 = c') by congruence.
    subst c1 c2. split; assumption.
Qed.

Lemma Qfloor_whole (q : Q) (z : Z) : (q == inject_Z z)%Q -> Qfloor q = z.
Proof. intros H. rewrite (Qfloor_comp _ _ H). apply Qfloor_Z. Qed.

(** A run of frames in whole milliseconds leaves a whole number of
    milliseconds accumulated, no more than were accumulated plus the time
    of the run. *)
Lemma whole_ticks (timestamps : list Q) (c c' : controller) (a l : Z) :
  isPlaying c = true -> in_sync c -> (0 < wpm c)%Q ->
  Forall (fun tk => 0 <= baseDurationMs tk) (tokens c) ->
  ticks timestamps c = Some c' -> isPlaying c' = true ->
  (accumulatedTime c == inject_Z a)%Q -> 0 <= a ->
  (baseline timestamps c == inject_Z l)%Q ->
  Forall (fun ts => (ts == inject_Z (Qfloor ts))%Q) timestamps ->
  ascending (baseline timestamps c) timestamps = true ->
  exists a',
    (accumulatedTime c' == inject_Z a')%Q
    /\ 0 <= a'
       <= a + (Qfloor (last timestamps (baseline timestamps c)) - l).
Proof.
  revert c a l.
  induction timestamps as [|ts rest IH];
    intros c a l Hp Hsync Hr Hnn Ht Hp' Ha Ha0 Hl Hw Hasc.
  - cbn [ticks] in Ht. injection Ht as <-. exists a. split; [exact Ha|].
    cbn [last]. rewrite (Qfloor_whole _ _ Hl). lia.
  - cbn [ticks] in Ht. destruct (tick ts c) as [c1|] eqn:E; [|discriminate].
    destruct (isPlaying c1) eqn:Hp1.
    2:{ rewrite (ticks_paused rest c1 Hp1) in Ht. congruence. }
    destruct (clock_tick ts c c1 Hp Hsync E Hp1) as (_ & Hs1 & Hl1).
    destruct (tick_keeps ts c c1 Hp Hsync E) as (Htok & Hwpm).
    inversion Hw as [|? ? Hts Hw']; subst.
    cbn [ascending] in Hasc. apply andb_prop in Hasc as [Hle Hasc].
    apply Qle_bool_iff in Hle.
    assert (Hlt : l <= Qfloor ts).
    { rewrite Hl, Hts in Hle. apply (proj1 (inject_Z_le _ _)) in Hle.
      exact Hle. }
    assert (Hlast : match lastTimestamp c with
                    | Some x => (x == inject_Z l)%Q
                    | None => l = Qfloor ts
                    end).
    { unfold baseline in Hl. destruct (lastTimestamp c); [exact Hl|].
      cbn [hd] in Hl. rewrite Hts in Hl.
      apply (proj1 (inject_Z_eq _ _)) in Hl. congruence. }
    destruct (whole_tick ts c c1 a (Qfloor ts) l Hp Hsync Hr Hnn E Hp1 Ha Hts
                Hlast Ha0 Hlt) as (a1 & Ha1 & Ha1lo & Ha1hi).
    assert (Hb1 : baseline rest c1 = ts) by (unfold baseline; rewrite Hl1; reflexivity).
    destruct (IH c1 a1 (Qfloor ts)) as (a' & Ha' & Hlo & Hhi);
      try assumption.
    + rewrite Hwpm. exact Hr.
    + rewrite Htok. exact Hnn.
    + rewrite Hb1. exact Hts.
    + rewrite Hb1. exact Hasc.
    + exists a'. split; [exact Ha'|]. rewrite last_cons.
      rewrite Hb1 in Hhi. lia.
Qed.

Lemma whole_last (timestamps : list Q) (b : Q) :
  whole b = true -> forallb whole timestamps = true ->
  whole (last timestamps b) = true.
Proof.
  revert b. induction timestamps as [|ts rest IH]; intros b Hb Hall;
    [exact Hb|].
  cbn [forallb] in Hall. apply andb_prop in Hall as [Hts Hrest].
  rewrite last_cons. apply IH; assumption.
Qed.

(** X25. No playback time is lost.  In a session, for tokens whose base
    durations are not negative and a run of frames in whole milliseconds
    that do not go back in time (numbers that the source adds and subtracts
    exactly): as long as playback goes on, the playback clock (the
    durations, at the current rate, of the tokens already shown, and the
    time accumulated on the current token) advances by exactly the time
    between the frames, what a late frame overshoots being carried over to
    the next token; and the time accumulated stays a whole number of
    milliseconds from 0 to below 2^53. *)
Theorem clock_follows_frames (timestamps : list Q) (c c' : controller) :
  reachable c -> isPlaying c = true ->
  Forall (fun tk => 0 <= baseDurationMs tk) (tokens c) ->
  on_whole_ms timestamps c ->
  ticks timestamps c = Some c' -> isPlaying c' = true ->
  (clock c' ==
   clock c + (last timestamps (baseline timestamps c) - baseline timestamps c))%Q
  /\ exists a, (accumulatedTime c' == inject_Z a)%Q /\ 0 <= a < 2 ^ 53.
Proof.
  intros H Hp Hnn (Hacc & Hbase & Hall & Hasc) Ht Hp'.
  pose proof (SessionFacts.kept_reachable c H) as Hk.
  pose proof (kept_sync _ Hk) as Hsync.
  destruct (kept_rate _ Hk) as [Rlo _].
  split; [exact (clock_ticks timestamps c c' Hp Hsync Ht Hp')|].
  destruct (whole_Z _ Hacc) as (Ea & Ha0 & Ha1).
  destruct (whole_Z _ Hbase) as (Eb & Hb0 & Hb1).
  destruct (whole_Z _ (whole_last _ _ Hbase Hall)) as (_ & _ & Hl1).
  assert (Hr : (0 < wpm c)%Q) by (eapply Qlt_le_trans; [|exact Rlo]; reflexivity).
  assert (Hw : Forall (fun ts => (ts == inject_Z (Qfloor ts))%Q) timestamps).
  { apply Forall_forall. intros ts Hin. rewrite forallb_forall in Hall.
    apply (whole_Z _ (Hall ts Hin)). }
  destruct (whole_ticks timestamps c c' _ _ Hp Hsync Hr Hnn Ht Hp' Ea Ha0 Eb
              Hw Hasc) as (a' & Ha' & Hlo & Hhi).
  exists a'. split; [exact Ha'|]. lia.
Qed.

Lemma clock_follows_frames_witness :
  let c := Scenario.or_new (play (load Scenario.four_tokens 0 constructor)) in
  let c' := Scenario.or_new (ticks [0%Q; 100%Q; 300%Q] c) in
  (clock c' ==
   clock c + (last [0%Q; 100%Q; 300%Q] (baseline [0%Q; 100%Q; 300%Q] c)
              - baseline [0%Q; 100%Q; 300%Q] c))%Q
  /\ exists a, (accumulatedTime c' == inject_Z a)%Q /\ 0 <= a < 2 ^ 53.
Proof.
  apply (clock_follows_frames [0%Q; 100%Q; 300%Q]
           (Scenario.or_new (play (load Scenario.four_tokens 0 constructor)))
           (Scenario.or_new
              (ticks [0%Q; 100%Q; 300%Q]
                 (Scenario.or_new
                    (play (load Scenario.four_tokens 0 constructor)))))).
  - apply (reach_call (load Scenario.four_tokens 0 constructor) Play);
      [|vm_compute; reflexivity].
    apply (reach_call constructor (Load Scenario.four_tokens 0));
      [apply reach_new | reflexivity].
  - vm_compute; reflexivity.
  - vm_compute. repeat constructor; intros H; discriminate H.
  - repeat split; vm_compute; reflexivity.
  - vm_compute; reflexivity.
  - vm_compute; reflexivity.
Defined.

End ControllerFacts.

(** ** The format of a reading time *)

Module FormatFacts.
Import JsString Tokenizer ReadingTime.

Local Open Scope Z_scope.

Lemma padStart2_two_digits (n : Z) :
  0 <= n < 60 -> padStart2 (digits n) = two_digits n.
Proof.
  intros Hn.
  assert (H : forallb
                (fun k => if list_eq_dec N.eq_dec
                               (padStart2 (digits (Z.of_nat k)))
                               (two_digits (Z.of_nat k))
                          then true else false)
                (seq 0 60) = true) by (vm_compute; reflexivity).
  rewrite forallb_forall in H. specialize (H (Z.to_nat n)).
  rewrite Z2Nat.id in H by lia.
  destruct (list_eq_dec N.eq_dec (padStart2 (digits n)) (two_digits n))
    as [E|_]; [exact E|].
  assert (false = true); [|discriminate].
  apply H. apply in_seq. lia.
Qed.

Lemma toString_safe (n : Z) : Z.abs n < 2 ^ 53 -> toString n = Some (digits n).
Proof.
  intros H. unfold toString, isSafeInteger.
  destruct (Z.ltb_spec (Z.abs n) (2 ^ 53)); [reflexivity | lia].
Qed.

(** X26. [formatTime] of a whole number of seconds from 0 to below 2^53
    (the safe integers, which the numbers of the source hold exactly):
    below an hour it is the minutes, a colon and the seconds of the minute
    in exactly two digits; from an hour on it is the hours, a colon, the
    minutes of the hour in exactly two digits, a colon and the seconds in
    exactly two digits. *)
Theorem formatTime_fields (seconds : Z) :
  0 <= seconds < 2 ^ 53 ->
  formatTime seconds
  = Some (if seconds <? 3600
          then digits (seconds / 60) ++ [colon] ++ two_digits (seconds mod 60)
          else digits (seconds / 3600) ++ [colon]
               ++ two_digits (seconds mod 3600 / 60) ++ [colon]
               ++ two_digits (seconds mod 60)).
Proof.
  intros H. unfold formatTime, isSafeInteger.
  destruct (Z.ltb_spec (Z.abs seconds) (2 ^ 53)) as [_|Hbig]; [|lia].
  cbv zeta. rewrite !Z.rem_mod_nonneg by lia.
  pose proof (Z.mod_pos_bound seconds 60 ltac:(lia)) as Hs.
  pose proof (Z.mod_pos_bound seconds 3600 ltac:(lia)) as Hm.
  assert (Hmin : 0 <= seconds mod 3600 / 60 < 60).
  { split; [apply Z.div_pos; lia | apply Z.div_lt_upper_bound; lia]. }
  assert (Hhrs : 0 <= seconds / 3600 <= seconds).
  { split; [apply Z.div_pos; lia|].
    apply Z.div_le_upper_bound; lia. }
  rewrite (toString_safe (seconds mod 60)) by lia.
  rewrite (toString_safe (seconds mod 3600 / 60)) by lia.
  rewrite (toString_safe (seconds / 3600)) by lia.
  rewrite (padStart2_two_digits (seconds mod 60)) by lia.
  destruct (Z.ltb_spec seconds 3600) as [Hlt|Hge].
  - rewrite Z.div_small by lia. cbn [Z.ltb Z.compare].
    rewrite Z.mod_small by lia. reflexivity.
  - destruct (Z.ltb_spec 0 (seconds / 3600)) as [_|Hh].
    + rewrite (padStart2_two_digits (seconds mod 3600 / 60)) by exact Hmin.
      reflexivity.
    + exfalso. assert (1 <= seconds / 3600); [|lia].
      apply Z.div_le_lower_bound; lia.
Qed.

Lemma formatTime_fields_witness :
  formatTime 3725
  = Some (if 3725 <? 3600
          then digits (3725 / 60) ++ [colon] ++ two_digits (3725 mod 60)
          else digits (3725 / 3600) ++ [colon]
               ++ two_digits (3725 mod 3600 / 60) ++ [colon]
               ++ two_digits (3725 mod 60)).
Proof. apply (formatTime_fields 3725). lia. Defined.

End FormatFacts.

(** ** Document identifiers *)

Module PersistenceFacts.
Import JsString Persistence.

Local Open Scope Z_scope.

Lemma toInt32_range (z : Z) : - 2 ^ 31 <= toInt32 z < 2 ^ 31.
Proof.
  unfold toInt32. pose proof (Z.mod_pos_bound (z + 2 ^ 31) (2 ^ 32)). lia.
Qed.

Lemma toInt32_mod (z : Z) : toInt32 z mod 2 ^ 32 = z mod 2 ^ 32.
Proof.
  unfold toInt32. rewrite Zminus_mod_idemp_l. f_equal. lia.
Qed.

Lemma toInt32_congr (a b : Z) :
  a mod 2 ^ 32 = b mod 2 ^ 32 -> toInt32 a = toInt32 b.
Proof.
  intros H. unfold toInt32.
  rewrite <- (Zplus_mod_idemp_l a), <- (Zplus_mod_idemp_l b), H. reflexivity.
Qed.

Lemma toInt32_shift (z : Z) : exists k, toInt32 z = z + k * 2 ^ 32.
Proof.
  exists (- ((z + 2 ^ 31) / 2 ^ 32)). unfold toInt32.
  rewrite Z.mod_eq by lia. lia.
Qed.

Lemma hash_round_wrapped (H : Z) (char : N) :
  hash_round (toInt32 H) char = toInt32 (H * 31 + Z.of_N char).
Proof.
  unfold hash_round, shl5. cbv zeta. apply toInt32_congr.
  destruct (toInt32_shift (toInt32 (toInt32 H) * 2 ^ 5)) as [k3 ->].
  destruct (toInt32_shift (toInt32 H)) as [k2 ->].
  destruct (toInt32_shift H) as [k1 ->].
  replace ((H + k1 * 2 ^ 32 + k2 * 2 ^ 32) * 2 ^ 5 + k3 * 2 ^ 32
           - (H + k1 * 2 ^ 32) + Z.of_N char)
    with (H * 31 + Z.of_N char + (k1 * 31 + k2 * 32 + k3) * 2 ^ 32) by lia.
  apply Z_mod_plus_full.
Qed.

Lemma hash_loop (input : JsString.t) (h H : Z) :
  h = toInt32 H ->
  fold_left hash_round input h
  = toInt32 (fold_left (fun acc char => acc * 31 + Z.of_N char) input H).
Proof.
  revert h H. induction input as [|char input IH]; intros h H E; [exact E|].
  cbn [fold_left]. apply IH. rewrite E. apply hash_round_wrapped.
Qed.

(** X27. The hash of [generateDocumentId] is the base-31 polynomial of the
    code units of the input, wrapped to 32 bits; the number written in the
    identifier is therefore at most 2^31. *)
Theorem hashCode_polynomial (input : JsString.t) :
  hashCode input = toInt32 (polynomial31 input)
  /\ 0 <= Z.abs (hashCode input) <= 2 ^ 31.
Proof.
  assert (E : hashCode input = toInt32 (polynomial31 input)).
  { unfold hashCode, polynomial31. apply hash_loop. reflexivity. }
  split; [exact E|]. rewrite E.
  pose proof (toInt32_range (polynomial31 input)). lia.
Qed.

End PersistenceFacts.
